(** * Melonix: granular segmentation, time-warp map and playback callback

    A shallow embedding of the DSP core of [src/app.cpp] and the
    verification of its specification.

    Modelling conventions.
    - [int] values are integers in [Z].  Signed overflow is undefined in C++
      and lies outside the model; the conversions from [size_t] to [int],
      which are defined and do matter for short buffers, are written out
      with [wrap64] and [to_int].
    - [double] and [float] values are rationals in [Q].  Except in the
      module [Rounded], every arithmetic operation is the exact one and
      rounding is outside the model; [Rounded] has [App::sample2Time] and
      [App::time2Sample] with every operation rounded to binary64, for the
      round trip between them, which the truncation to [int] makes depend
      on the rounding.  Equality of such values is [Qeq] (written [==]).
      [Q] makes [x / 0] equal to [0] where IEEE arithmetic gives an
      infinity or a NaN.  The interpolations inside the marker loops
      divide by a length that the loop condition makes positive; a result
      below that evaluates another quotient either assumes its divisor
      positive ([sampleRate]) or equates two expressions that hold the
      same quotient.
    - [std::unordered_map]/[std::map] caches are finite maps [gmap Z _].
    - Functions of [App] that read and write the caches are computations in
      a small state monad over the record of the three caches.
    - Library calls ([fftw_execute], [std::pow], [std::sin], [rand]) are
      parameters: arbitrary functions, about which nothing is assumed.
    - The members of [App] are declared in [app.hpp], which is not among
      the sources; their types are taken from their uses in [app.cpp] and
      from the data model of the specification. *)

From Stdlib Require Import ZArith QArith Qround Qminmax Qabs Qpower Lqa Lia List Bool Ascii String.
From stdpp Require Import gmap.
Import ListNotations.

Local Open Scope Z_scope.
Local Open Scope Q_scope.

(** ** Numeric conversions *)

(** [static_cast<int>(d)] for a double [d]: truncation toward zero. *)
Definition Qtrunc (x : Q) : Z :=
  if Qle_bool 0 x then Qfloor x else Qceiling x.

(** An unsigned 64-bit [size_t] value. *)
Definition wrap64 (z : Z) : Z := (z mod 2 ^ 64)%Z.

(** [static_cast<int>(u)] for a [size_t] value [u]: the low 32 bits, read
    in two's complement. *)
Definition to_int (z : Z) : Z := ((z + 2 ^ 31) mod 2 ^ 32 - 2 ^ 31)%Z.

(** The comparison [x < y] on doubles. *)
Definition Qlt_bool (x y : Q) : bool := negb (Qle_bool y x).

(** ** Data model *)

(** Modelled from the spec: the declaration of [Marker] (in [app.hpp]).
    The fields are those of the specification's data model, in the order
    of the initializer [Marker{sample, note - pitchBend, 0., pitchBend}]. *)
Record Marker := mkMarker {
  sample : Z;
  note : Q;
  dTime : Q;
  pitchBend : Q
}.

(** Modelled from the spec: the declarations of the three memoization
    tables (in [app.hpp]), mappings from a quantized input to the computed
    output.  The keys are the [int]s the code looks up; [time2SampleCache]
    is taken to hold the [int] the function returns (were it to hold the
    [double], the conversion on return would give the same [int]). *)
Record Caches := mkCaches {
  sample2TimeCache : gmap Z Q;
  time2SampleCache : gmap Z Z;
  time2PitchBendCache : gmap Z Q
}.

(** [App::invalidateCache], restricted to the three warp caches. *)
Definition invalidateCache : Caches := mkCaches ∅ ∅ ∅.

(** ** A state monad over the caches *)

Definition Memo (A : Type) : Type := Caches -> A * Caches.

Definition ret {A} (a : A) : Memo A := fun c => (a, c).
Definition bind {A B} (m : Memo A) (k : A -> Memo B) : Memo B :=
  fun c => let (a, c') := m c in k a c'.

Notation "'let*' x ':=' m 'in' k" := (bind m (fun x => k))
  (at level 10, x name, m at level 100, k at level 200, only parsing).

(** The value of a computation run on given caches. *)
Definition value {A} (m : Memo A) (c : Caches) : A := fst (m c).
(** The caches it leaves. *)
Definition after {A} (m : Memo A) (c : Caches) : Caches := snd (m c).

Module Warp.
Section Warp.

(** The document: sample rate, marker list, [data.size()]. *)
Variable sampleRate : Z.
Variable markers : list Marker.
Variable dataSize : Z.

(** [rightTime] of the loop body shared by the three queries:
    [prevTime + 1.0 * (marker.sample - prevSample) / sampleRate + marker.dTime]. *)
Definition rightTimeOf (prevSample : Z) (prevTime : Q) (marker : Marker) : Q :=
  prevTime + 1 * inject_Z (sample marker - prevSample) / inject_Z sampleRate
  + dTime marker.

(** The marker loop of [App::sample2Time] and the statement after it,
    started with the given [prevSample] and [prevTime]. *)
Fixpoint sample2Time_loop (ms : list Marker) (val prevSample : Z) (prevTime : Q) : Q :=
  match ms with
  | [] => prevTime + 1 * inject_Z (val - prevSample) / inject_Z sampleRate
  | marker :: rest =>
    let rightTime := rightTimeOf prevSample prevTime marker in
    if (prevSample <? val)%Z && (val <=? sample marker)%Z then
      prevTime + inject_Z (val - prevSample) * (rightTime - prevTime)
                 / inject_Z (sample marker - prevSample)
    else sample2Time_loop rest val (sample marker) rightTime
  end.

(** [App::sample2Time]. *)
Definition sample2Time (val : Z) : Memo Q := fun c =>
  if (val <=? 0)%Z then (1 * inject_Z val / inject_Z sampleRate, c)
  else match sample2TimeCache c !! val with
       | Some v => (v, c)
       | None =>
         let r := sample2Time_loop markers val 0 0 in
         (r, mkCaches (<[val := r]> (sample2TimeCache c))
                      (time2SampleCache c) (time2PitchBendCache c))
       end.

(** The marker loop of [App::time2Sample] and the statement after it. *)
Fixpoint time2Sample_loop (ms : list Marker) (val : Q) (prevSample : Z) (prevTime : Q) : Q :=
  match ms with
  | [] => inject_Z prevSample + (val - prevTime) * inject_Z sampleRate
  | marker :: rest =>
    let rightTime := rightTimeOf prevSample prevTime marker in
    if Qlt_bool prevTime val && Qle_bool val rightTime then
      inject_Z prevSample
      + (val - prevTime) * inject_Z (sample marker - prevSample) / (rightTime - prevTime)
    else time2Sample_loop rest val (sample marker) rightTime
  end.

(** The cache key [static_cast<int>(val * sampleRate)]. *)
Definition timeKey (val : Q) : Z := Qtrunc (val * inject_Z sampleRate).

(** [App::time2Sample]; the [double] result leaves as an [int]. *)
Definition time2Sample (val : Q) : Memo Z := fun c =>
  if Qle_bool val 0 then (Qtrunc (val * inject_Z sampleRate), c)
  else match time2SampleCache c !! timeKey val with
       | Some v => (v, c)
       | None =>
         let r := Qtrunc (time2Sample_loop markers val 0 0) in
         (r, mkCaches (sample2TimeCache c)
                      (<[timeKey val := r]> (time2SampleCache c))
                      (time2PitchBendCache c))
       end.

(** [App::duration]: [sample2Time(data.size() - 1)], the [size_t]
    argument converted to [int]. *)
Definition duration : Memo Q :=
  sample2Time (to_int (wrap64 (dataSize - 1))).

(** The marker loop of [App::time2PitchBend]: the value returned inside
    the loop, or, when no marker interval brackets [val], the final
    [prevTime] and [prevPitchBend]. *)
Fixpoint time2PitchBend_loop (ms : list Marker) (val : Q) (prevSample : Z)
         (prevTime prevPitchBend : Q) : Q + (Q * Q) :=
  match ms with
  | [] => inr (prevTime, prevPitchBend)
  | marker :: rest =>
    let rightTime := rightTimeOf prevSample prevTime marker in
    if Qlt_bool prevTime val && Qle_bool val rightTime then
      inl (prevPitchBend
           + (val - prevTime) * (pitchBend marker - prevPitchBend) / (rightTime - prevTime))
    else time2PitchBend_loop rest val (sample marker) rightTime (pitchBend marker)
  end.

Definition storePitchBend (k : Z) (r : Q) : Memo Q := fun c =>
  (r, mkCaches (sample2TimeCache c) (time2SampleCache c)
               (<[k := r]> (time2PitchBendCache c))).

(** [App::time2PitchBend]. *)
Definition time2PitchBend (val : Q) : Memo Q := fun c =>
  if Qle_bool val 0 then (0, c)
  else match time2PitchBendCache c !! timeKey val with
       | Some v => (v, c)
       | None =>
         match time2PitchBend_loop markers val 0 0 0 with
         | inl r => storePitchBend (timeKey val) r c
         | inr (prevTime, prevPitchBend) =>
           (let* d1 := duration in
            if Qlt_bool d1 val then ret 0
            else
              let* d2 := duration in
              storePitchBend (timeKey val)
                (prevPitchBend
                 + (val - prevTime) * (0 - prevPitchBend) / (d2 - prevTime))) c
         end
       end.

(** *** The same computations without the caches

    The bodies above with every cache lookup and store removed: the
    functions of the current marker list that the memoized ones are
    meant to compute. *)

Definition sample2Time_uncached (val : Z) : Q :=
  if (val <=? 0)%Z then 1 * inject_Z val / inject_Z sampleRate
  else sample2Time_loop markers val 0 0.

Definition time2Sample_uncached (val : Q) : Z :=
  if Qle_bool val 0 then Qtrunc (val * inject_Z sampleRate)
  else Qtrunc (time2Sample_loop markers val 0 0).

Definition duration_uncached : Q :=
  sample2Time_uncached (to_int (wrap64 (dataSize - 1))).

Definition time2PitchBend_uncached (val : Q) : Q :=
  if Qle_bool val 0 then 0
  else match time2PitchBend_loop markers val 0 0 0 with
       | inl r => r
       | inr (prevTime, prevPitchBend) =>
         if Qlt_bool duration_uncached val then 0
         else prevPitchBend
              + (val - prevTime) * (0 - prevPitchBend) / (duration_uncached - prevTime)
       end.

(** What the caches hold between two invalidations: under an integer
    sample key the uncached value at that sample; under a quantized time
    key the uncached value at some time that has this key. *)
Record coherent (c : Caches) : Prop := {
  coh_sample2Time : forall k v,
    sample2TimeCache c !! k = Some v -> v = sample2Time_uncached k;
  coh_time2Sample : forall k v,
    time2SampleCache c !! k = Some v ->
    exists t, timeKey t = k /\ v = time2Sample_uncached t;
  coh_time2PitchBend : forall k v,
    time2PitchBendCache c !! k = Some v ->
    exists t, timeKey t = k /\ v = time2PitchBend_uncached t
}.

(** *** The pitch-bend curve as a list of knots

    The reference the pitch-bend query is compared with: the
    piecewise-linear curve through the points [(time, pitchBend)], one
    per marker, closed by the point [(endTime, 0)]. *)

(** The line through [(t0, p0)] and [(t1, p1)], at [val]. *)
Definition lerp (t0 p0 t1 p1 val : Q) : Q :=
  p0 + (val - t0) * (p1 - p0) / (t1 - t0).

(** The edited time and pitch bend of each marker, the times accumulated
    as [rightTime] is. *)
Fixpoint markerKnots (ms : list Marker) (prevSample : Z) (prevTime : Q) : list (Q * Q) :=
  match ms with
  | [] => []
  | marker :: rest =>
    let rightTime := rightTimeOf prevSample prevTime marker in
    (rightTime, pitchBend marker) :: markerKnots rest (sample marker) rightTime
  end.

(** The curve through [prev], the [knots] and [(endTime, 0)] at [val]:
    the line of the first interval [(t_i, t_i+1]] that holds [val]; past
    the knots the line down to [(endTime, 0)], and 0 beyond [endTime]. *)
Fixpoint curveThrough (knots : list (Q * Q)) (prev : Q * Q) (endTime val : Q) : Q :=
  match knots with
  | [] =>
    if Qlt_bool endTime val then 0
    else lerp (fst prev) (snd prev) endTime 0 val
  | knot :: rest =>
    if Qlt_bool (fst prev) val && Qle_bool val (fst knot)
    then lerp (fst prev) (snd prev) (fst knot) (snd knot) val
    else curveThrough rest knot endTime val
  end.

(** The marker list is sorted ascending by [sample], the order
    [std::sort] leaves it in. *)
Fixpoint sortedBySample (ms : list Marker) : bool :=
  match ms with
  | [] => true
  | a :: rest =>
    match rest with
    | [] => true
    | b :: _ => (sample a <=? sample b)%Z && sortedBySample rest
    end
  end.

(** No marker segment runs backwards in edited time: for every marker,
    [(marker.sample - prevSample) / sampleRate + marker.dTime >= 0], the
    walk starting at [prevSample]. *)
Fixpoint no_reversal (ms : list Marker) (prevSample : Z) : bool :=
  match ms with
  | [] => true
  | marker :: rest =>
    Qle_bool 0 (1 * inject_Z (sample marker - prevSample) / inject_Z sampleRate
                + dTime marker)
    && no_reversal rest (sample marker)
  end.

(** The pitch-bend curve of the marker list: 0 up to time 0, then the
    curve through [(0, 0)], the marker knots and [(duration, 0)]. *)
Definition pitchBendCurve (val : Q) : Q :=
  if Qle_bool val 0 then 0
  else curveThrough (markerKnots markers 0 0) (0, 0) duration_uncached val.

(** *** Query histories

    The calls that reach the caches between two invalidations. *)

Inductive Query : Type :=
| AskSample2Time (val : Z)
| AskTime2Sample (val : Q)
| AskTime2PitchBend (val : Q)
| AskDuration.

Definition ask (q : Query) : Memo unit :=
  match q with
  | AskSample2Time val => let* _ := sample2Time val in ret tt
  | AskTime2Sample val => let* _ := time2Sample val in ret tt
  | AskTime2PitchBend val => let* _ := time2PitchBend val in ret tt
  | AskDuration => let* _ := duration in ret tt
  end.

(** The caches after the queries [qs], asked in order on [c]. *)
Definition history (qs : list Query) (c : Caches) : Caches :=
  fold_left (fun c q => after (ask q) c) qs c.

End Warp.
End Warp.

(** ** Rounding

    The arithmetic of [double]: every operation returns the exact result
    rounded to the nearest value with a 53-bit significand, a tie going to
    the even significand.  The exponent is not bounded: overflow and
    subnormal numbers are outside the model. *)

Module Binary64.

(** The integer nearest to [y], a tie going to the even one. *)
Definition nearestEven (y : Q) : Z :=
  let f := Qfloor y in
  let r := y - inject_Z f in
  if Qlt_bool r (1 # 2) then f
  else if Qlt_bool (1 # 2) r then (f + 1)%Z
  else if Z.even f then f else (f + 1)%Z.

(** The exponent [e] of the last place of a 53-bit significand for [x]:
    [2^52 <= |x| / 2^e < 2^53]. *)
Definition ulpExponent (x : Q) : Z :=
  let e := (Z.log2 (Z.abs (Qnum x)) - Z.log2 (Zpos (Qden x)) - 52)%Z in
  if Qlt_bool (Qabs x) (2 ^ (e + 52)) then (e - 1)%Z else e.

(** Rounding to the nearest [double], ties to even. *)
Definition round (x : Q) : Q :=
  if Qeq_bool x 0 then 0
  else
    let e := ulpExponent x in
    inject_Z (nearestEven (x / 2 ^ e)) * 2 ^ e.

(** Half a unit in the last place of 1: [2^-53]. *)
Definition unitRoundoff : Q := 1 # 9007199254740992.

End Binary64.

(** ** The warp map in rounded arithmetic

    [App::sample2Time] and [App::time2Sample] once more, every operation
    on [double]s followed by the rounding [rnd]; the conversions of an
    [int] to [double] are exact.  At the identity for [rnd] these are the
    functions of [Warp]. *)

Module Rounded.
Section Rounded.

Variable rnd : Q -> Q.

Variable sampleRate : Z.
Variable markers : list Marker.

(** [prevTime + 1.0 * (marker.sample - prevSample) / sampleRate + marker.dTime]. *)
Definition rightTimeOf (prevSample : Z) (prevTime : Q) (marker : Marker) : Q :=
  rnd (rnd (prevTime
            + rnd (rnd (1 * inject_Z (sample marker - prevSample)) / inject_Z sampleRate))
       + dTime marker).

(** The marker loop of [App::sample2Time] and the statement after it. *)
Fixpoint sample2Time_loop (ms : list Marker) (val prevSample : Z) (prevTime : Q) : Q :=
  match ms with
  | [] => rnd (prevTime + rnd (rnd (1 * inject_Z (val - prevSample)) / inject_Z sampleRate))
  | marker :: rest =>
    let rightTime := rightTimeOf prevSample prevTime marker in
    if (prevSample <? val)%Z && (val <=? sample marker)%Z then
      rnd (prevTime
           + rnd (rnd (inject_Z (val - prevSample) * rnd (rightTime - prevTime))
                  / inject_Z (sample marker - prevSample)))
    else sample2Time_loop rest val (sample marker) rightTime
  end.

(** [App::sample2Time]. *)
Definition sample2Time (val : Z) : Memo Q := fun c =>
  if (val <=? 0)%Z then (rnd (rnd (1 * inject_Z val) / inject_Z sampleRate), c)
  else match sample2TimeCache c !! val with
       | Some v => (v, c)
       | None =>
         let r := sample2Time_loop markers val 0 0 in
         (r, mkCaches (<[val := r]> (sample2TimeCache c))
                      (time2SampleCache c) (time2PitchBendCache c))
       end.

(** The marker loop of [App::time2Sample] and the statement after it. *)
Fixpoint time2Sample_loop (ms : list Marker) (val : Q) (prevSample : Z) (prevTime : Q) : Q :=
  match ms with
  | [] => rnd (inject_Z prevSample + rnd (rnd (val - prevTime) * inject_Z sampleRate))
  | marker :: rest =>
    let rightTime := rightTimeOf prevSample prevTime marker in
    if Qlt_bool prevTime val && Qle_bool val rightTime then
      rnd (inject_Z prevSample
           + rnd (rnd (rnd (val - prevTime) * inject_Z (sample marker - prevSample))
                  / rnd (rightTime - prevTime)))
    else time2Sample_loop rest val (sample marker) rightTime
  end.

(** The cache key [static_cast<int>(val * sampleRate)]. *)
Definition timeKey (val : Q) : Z := Qtrunc (rnd (val * inject_Z sampleRate)).

(** [App::time2Sample]; the [double] result leaves as an [int]. *)
Definition time2Sample (val : Q) : Memo Z := fun c =>
  if Qle_bool val 0 then (Qtrunc (rnd (val * inject_Z sampleRate)), c)
  else match time2SampleCache c !! timeKey val with
       | Some v => (v, c)
       | None =>
         let r := Qtrunc (time2Sample_loop markers val 0 0) in
         (r, mkCaches (sample2TimeCache c)
                      (<[timeKey val := r]> (time2SampleCache c))
                      (time2PitchBendCache c))
       end.

End Rounded.

(** A rounding whose relative error is at most the unit roundoff, as
    that of binary64 is. *)
Definition accurate (rnd : Q -> Q) : Prop :=
  forall x, Qabs (rnd x - x) <= Qabs x * Binary64.unitRoundoff.

End Rounded.

(** ** The sample buffer and the grain index *)

(** [preferredGrainSize] and [GrainSpectrSize]. *)
Definition preferredGrainSize : Z := 1500.
Definition GrainSpectrSize : Z := 2 * 4096.

(** The half-open range [lo, lo + 1, ..., hi - 1] a counting [for] loop
    runs through. *)
Definition zrange (lo hi : Z) : list Z :=
  map (fun k => (lo + Z.of_nat k)%Z) (seq 0 (Z.to_nat (hi - lo))).

(** [data[idx]]: [None] where the index is outside the vector, which the
    C++ code leaves undefined. *)
Definition readSample (data : list Q) (idx : Z) : option Q :=
  if (idx <? 0)%Z then None else nth_error data (Z.to_nat idx).

(** [data.size()]. *)
Definition sizeOf (data : list Q) : Z := Z.of_nat (length data).

(** An entry of the grain map: the key [startSample], the size of the
    [std::span<float>(data.data() + startSample, spanSize)] and the
    drift. *)
Record Grain := mkGrain {
  startSample : Z;
  spanSize : Z;
  drift : Z
}.

(** The sample index just past the grain's span. *)
Definition endOf (g : Grain) : Z := (startSample g + spanSize g)%Z.

(** [grains.insert(...)] on the [std::map], kept as the list of its
    entries in key order: an entry whose key is present is not replaced. *)
Fixpoint insertGrain (g : Grain) (grains : list Grain) : list Grain :=
  match grains with
  | [] => [g]
  | h :: rest =>
    if (startSample g <? startSample h)%Z then g :: h :: rest
    else if (startSample g =? startSample h)%Z then h :: rest
    else h :: insertGrain g rest
  end.

(** [grains.lower_bound(key)]: the first entry whose key is not less than
    [key]; [None] for [std::end(grains)]. *)
Fixpoint lower_bound (grains : list Grain) (key : Z) : option Grain :=
  match grains with
  | [] => None
  | h :: rest => if (key <=? startSample h)%Z then Some h else lower_bound rest key
  end.

(** ** Grain size estimation *)

Module Estimator.
Section Estimator.

Variable data : list Q.
Variable sampleRate : Z.

(** [fftw_execute(spec.plan)]: the transform of the 8192 real inputs,
    as the real and imaginary part of each output bin.  The transform is
    the library's; nothing is assumed about it. *)
Variable fft : list Q -> Z -> Q * Q.

(** The input window: [data[min(start + i, data.size() - 1)]] for
    [i < GrainSpectrSize]; [None] when a read falls outside [data]. *)
Fixpoint readWindow (indices : list Z) (start : Z) : option (list Q) :=
  match indices with
  | [] => Some []
  | i :: rest =>
    match readSample data (Z.min (start + i) (to_int (wrap64 (sizeOf data - 1)))) with
    | None => None
    | Some x =>
      match readWindow rest start with
      | None => None
      | Some xs => Some (x :: xs)
      end
    end
  end.

(** [std::abs(spec.output[i][0]) + std::abs(spec.output[i][1])]. *)
Definition magnitude (output : Z -> Q * Q) (i : Z) : Q :=
  Qabs (fst (output i)) + Qabs (snd (output i)).

(** One of the two scans for the largest bin, over the bins [indices],
    from the running [max] and [maxIndex]. *)
Fixpoint scanMax (output : Z -> Q * Q) (indices : list Z) (max : Q) (maxIndex : Z) : Z :=
  match indices with
  | [] => maxIndex
  | i :: rest =>
    let val := magnitude output i in
    if Qlt_bool max val then scanMax output rest val i
    else scanMax output rest max maxIndex
  end.

(** The bin [maxIndex] the two scans end with. *)
Definition peakBin (output : Z -> Q * Q) : Z :=
  let maxIndex := (20 * GrainSpectrSize ÷ sampleRate)%Z in
  let maxIndex := scanMax output (zrange maxIndex (GrainSpectrSize ÷ 2 ÷ 4)) 0 maxIndex in
  let maxIndex := (maxIndex * 4 - maxIndex ÷ 4)%Z in
  scanMax output (zrange maxIndex (GrainSpectrSize ÷ 2)) 0 maxIndex.

(** [std::max(1., 1. * maxIndex * sampleRate / GrainSpectrSize / 4.)]. *)
Definition maxFreqOf (maxIndex : Z) : Q :=
  Qmax 1 (1 * inject_Z maxIndex * inject_Z sampleRate / inject_Z GrainSpectrSize / 4).

(** The last line of [App::estimateGrainSize]; the [double] leaves as an
    [int]. *)
Definition grainSizeOf (maxIndex : Z) : Z :=
  let maxFreq := maxFreqOf maxIndex in
  Qtrunc (inject_Z (Qceiling (1 * inject_Z preferredGrainSize * maxFreq
                              / inject_Z sampleRate))
          * inject_Z sampleRate / maxFreq).

(** [App::estimateGrainSize]. *)
Definition estimateGrainSize (start : Z) : option Z :=
  match readWindow (zrange 0 GrainSpectrSize) start with
  | None => None
  | Some input => Some (grainSizeOf (peakBin (fft input)))
  end.

(** *** What the estimate is checked against *)

(** The 8192 samples of the window at [start], clamped at the end of the
    buffer: [data[min(start + i, data.size() - 1)]] for [i = 0 .. 8191]. *)
Definition windowAt (start : Z) (input : list Q) : Prop :=
  map Some input
  = map (fun i => readSample data (Z.min (start + i) (sizeOf data - 1))) (zrange 0 8192).

(** The bin a scan of the bins [lo .. hi - 1] for the largest
    [|re| + |im|] ends in, said without the loop: the first bin of the
    range whose value is above 0, above that of every bin before it and
    not below that of any bin after it; [lo] itself when no bin of the
    range is above 0. *)
Definition scanPeak (output : Z -> Q * Q) (lo hi bin : Z) : Prop :=
  let size i := Qabs (fst (output i)) + Qabs (snd (output i)) in
  (bin = lo /\ forall j, (lo <= j < hi)%Z -> size j <= 0) \/
  ((lo <= bin < hi)%Z /\ 0 < size bin /\
   (forall j, (lo <= j < bin)%Z -> size j < size bin) /\
   (forall j, (bin <= j < hi)%Z -> size j <= size bin)).

End Estimator.
End Estimator.

(** ** Segmentation into grains *)

Module Segmenter.
Section Segmenter.

Variable data : list Q.

(** [App::estimateGrainSize], as the segmentation loop calls it; [None]
    when the estimate reads outside [data]. *)
Variable estimateGrainSize : Z -> option Z.

(** [data[idx] < 0 && data[idx + 1] >= 0]; the second sample is read
    only when the first is negative.  [None] when a read falls outside
    [data]. *)
Definition isZeroCrossing (idx : Z) : option bool :=
  match readSample data idx with
  | None => None
  | Some a =>
    if Qlt_bool a 0 then
      match readSample data (idx + 1) with
      | None => None
      | Some b => Some (Qle_bool 0 b)
      end
    else Some false
  end.

Inductive Search : Type :=
| Found (idx : Z)
| NotFound
| BadRead.

(** A search loop: the first of the [candidates], in order, that is a
    zero-crossing. *)
Fixpoint firstCrossing (candidates : list Z) : Search :=
  match candidates with
  | [] => NotFound
  | idx :: rest =>
    match isZeroCrossing idx with
    | None => BadRead
    | Some true => Found idx
    | Some false => firstCrossing rest
    end
  end.

(** [start + grainSize + (i % 2 == 0 ? i / 2 : -i / 2)]. *)
Definition nearIndex (start grainSize i : Z) : Z :=
  (start + grainSize + (if (Z.rem i 2 =? 0)%Z then i ÷ 2 else (- i) ÷ 2))%Z.

(** The candidates of the first search: [i = 0 .. grainSize - 1]. *)
Definition nearCandidates (start grainSize : Z) : list Z :=
  map (nearIndex start grainSize) (zrange 0 grainSize).

(** The candidates of the fall-back scan, up to
    [static_cast<int>(data.size() - 1)]. *)
Definition farCandidates (start grainSize : Z) : list Z :=
  zrange (start + grainSize + grainSize ÷ 2) (to_int (wrap64 (sizeOf data - 1))).

(** How the model of a segmentation pass ends, with the grains inserted
    so far.  [Finished]: the loop is left as the code leaves it, every
    read having been inside [data].  [OutOfBounds]: the pass reads a
    sample outside [data]; the C++ code has no check there and goes on
    with whatever the memory holds, which the model does not follow: the
    grains are those inserted before that read.  [OutOfFuel]: the given
    number of iterations is used up. *)
Inductive Outcome : Type :=
| Finished (grains : list Grain)
| OutOfBounds (grains : list Grain)
| OutOfFuel (grains : list Grain).

Definition grainsOf (o : Outcome) : list Grain :=
  match o with
  | Finished grains | OutOfBounds grains | OutOfFuel grains => grains
  end.

(** The [while] loop of [App::preproc], at most [fuel] iterations. *)
Fixpoint segment (fuel : nat) (start grainSize nextEstimation : Z)
         (grains : list Grain) : Outcome :=
  match fuel with
  | O => OutOfFuel grains
  | S fuel =>
    if (start <? to_int (wrap64 (sizeOf data - grainSize - 1)))%Z then
      let found :=
        match firstCrossing (nearCandidates start grainSize) with
        | NotFound => firstCrossing (farCandidates start grainSize)
        | r => r
        end in
      match found with
      | BadRead => OutOfBounds grains
      | NotFound => Finished grains
      | Found idx =>
        let grains :=
          insertGrain (mkGrain start (idx - start) (idx - start - grainSize)) grains in
        let start := idx in
        if (nextEstimation <? start)%Z then
          match estimateGrainSize start with
          | None => OutOfBounds grains
          | Some grainSize =>
            segment fuel start grainSize (nextEstimation + GrainSpectrSize) grains
          end
        else segment fuel start grainSize nextEstimation grains
      end
    else Finished grains
  end.

(** The grain generation of [App::preproc]. *)
Definition preproc (fuel : nat) : Outcome :=
  match estimateGrainSize 0 with
  | None => OutOfBounds []
  | Some grainSize => segment fuel 0 grainSize GrainSpectrSize []
  end.

(** *** What the grains are checked against *)

(** A true zero-crossing at [idx]: both samples are in the buffer, the
    one at [idx] is negative and the next is not. *)
Definition crossingAt (idx : Z) : Prop :=
  exists a b, readSample data idx = Some a /\ readSample data (idx + 1) = Some b /\
              a < 0 /\ 0 <= b.

(** The grains, in key order, tile the buffer from [from] on: each starts
    where the one before it ends. *)
Fixpoint contiguousFrom (from : Z) (grains : list Grain) : Prop :=
  match grains with
  | [] => True
  | g :: rest => startSample g = from /\ contiguousFrom (endOf g) rest
  end.

(** The grains so far: contiguous from [from] to [to], every span
    non-empty. *)
Fixpoint chain (from : Z) (grains : list Grain) (to : Z) : Prop :=
  match grains with
  | [] => from = to
  | g :: rest =>
    startSample g = from /\ (0 < spanSize g)%Z /\ chain (endOf g) rest to
  end.

(** The invariant of the segmentation loop: the grains tile the buffer
    from sample 0 to [start] and each ends at a true zero-crossing. *)
Definition tiled (grains : list Grain) (start : Z) : Prop :=
  chain 0 grains start /\ Forall (fun g => crossingAt (endOf g)) grains.

(** The grains are contiguous from sample 0, each has a non-empty span
    that ends at a true zero-crossing, and each but the first starts at
    one. *)
Definition aligned (grains : list Grain) : Prop :=
  contiguousFrom 0 grains /\
  Forall (fun g => (0 < spanSize g)%Z /\ crossingAt (endOf g)) grains /\
  match grains with
  | [] => True
  | first :: rest =>
    startSample first = 0%Z /\ Forall (fun g => crossingAt (startSample g)) rest
  end.

End Segmenter.
End Segmenter.

(** ** The playback callback *)

Module Playback.

(** What a run of the callback, or of one of its loops, comes to: a
    result; behaviour the C++ code leaves undefined (a read outside
    [data], a negative [double] converted to [size_t]); or no result
    within the given number of loop iterations. *)
Inductive Result (A : Type) : Type :=
| Ok (a : A)
| Undefined
| OutOfFuel.
Arguments Ok {A} a.
Arguments Undefined {A}.
Arguments OutOfFuel {A}.

(** A [std::span<float>] into [data]: the index of its first sample and
    its size. *)
Record Span := mkSpan {
  spanStart : Z;
  spanLen : Z
}.

(** Modelled from the spec: the declarations of the members of [App]
    that the callback reads and writes (in [app.hpp]), the
    specification's PlaybackState: cursor, playing flag, residual, phase
    bias and a reference to the last rendered grain.  [prevGrain] is
    [None] for the empty span, to which no grain is adjacent; [randCalls]
    counts the calls of [rand()] so far; [audioPaused] is the state that
    [audio->pause] sets. *)
Record State := mkState {
  cursorSec : Q;
  isAudioPlaying : bool;
  restWav : list Q;
  bias : Q;
  prevGrain : option Span;
  randCalls : nat;
  audioPaused : bool;
  caches : Caches
}.

(** The output buffer [w[0 .. dur)] as the callback finds and leaves it,
    and every offset from the buffer start at which [w] was
    dereferenced, in order.  An access outside the buffer is recorded
    and leaves the modelled buffer as it is. *)
Record Output := mkOutput {
  stream : list Q;
  accesses : list Z
}.

Definition inStream (out : Output) (w : Z) : bool :=
  (0 <=? w)%Z && (w <? Z.of_nat (length (stream out)))%Z.

(** [*w = v] with [w] at offset [w]. *)
Definition store (w : Z) (v : Q) (out : Output) : Output :=
  mkOutput (if inStream out w then <[Z.to_nat w := v]> (stream out) else stream out)
           (accesses out ++ [w]).

(** [*w *= f]. *)
Definition scale (w : Z) (f : Q) (out : Output) : Output :=
  mkOutput (match stream out !! Z.to_nat w with
            | Some x =>
              if inStream out w then <[Z.to_nat w := x * f]> (stream out)
              else stream out
            | None => stream out
            end)
           (accesses out ++ [w]).

(** [for (; dur > 0; --dur, ++w) *w = 0;] *)
Fixpoint zeroFill (dur : nat) (w : Z) (out : Output) : Z * Output :=
  match dur with
  | O => (w, out)
  | S dur => zeroFill dur (w + 1) (store w 0 out)
  end.

(** [for (int i = 0; i < 100; ++i) { *w *= .01 * i; --w; }], over the
    values [steps] of [i]. *)
Fixpoint fadeOut (steps : list Z) (w : Z) (out : Output) : Z * Output :=
  match steps with
  | [] => (w, out)
  | i :: rest => fadeOut rest (w - 1) (scale w ((1 # 100) * inject_Z i) out)
  end.

(** The branch [if (!isAudioPlaying) { ... return; }]. *)
Definition stopped (dur : Z) (st : State) (out : Output) : State * Output :=
  let '(w, out) := zeroFill (Z.to_nat dur) 0 out in
  let '(_, out) := fadeOut (zrange 0 100) w out in
  (mkState (cursorSec st) (isAudioPlaying st) [] (bias st) (prevGrain st)
           (randCalls st) true (caches st),
   out).

(** Every sample is 0. *)
Definition silent (samples : list Q) : Prop := Forall (fun x => x == 0) samples.

Section Playback.

Variable sampleRate : Z.
Variable markers : list Marker.
Variable data : list Q.

(** The grain map, as the list of its entries in key order; its key type
    is [int], the type of the keys inserted. *)
Variable grains : list Grain.

(** [std::pow(2, x)], [std::sin(x)] and the successive results of
    [rand()]: library functions, about which nothing is assumed. *)
Variable pow2 : Q -> Q.
Variable sinq : Q -> Q.
Variable rand : nat -> Z.

(** A memoized query, run on the caches of the state. *)
Definition query {A} (m : Memo A) (st : State) : A * State :=
  let '(a, c) := m (caches st) in
  (a, mkState (cursorSec st) (isAudioPlaying st) (restWav st) (bias st)
              (prevGrain st) (randCalls st) (audioPaused st) c).

Definition withRestWav (st : State) (wav : list Q) : State :=
  mkState (cursorSec st) (isAudioPlaying st) wav (bias st) (prevGrain st)
          (randCalls st) (audioPaused st) (caches st).

Definition withPlaying (st : State) (playing : bool) : State :=
  mkState (cursorSec st) playing (restWav st) (bias st) (prevGrain st)
          (randCalls st) (audioPaused st) (caches st).

(** [grain[idx]]. *)
Definition grainSample (grain : Span) (idx : Z) : option Q :=
  readSample data (spanStart grain + idx).

(** The integral part [idxF] that [std::modf(i * rate + bias, &idxF)]
    stores, and the fractional part it returns. *)
Definition phaseIndex (rate bias : Q) (i : Z) : Z :=
  Qtrunc (inject_Z i * rate + bias).
Definition phaseFraction (rate bias : Q) (i : Z) : Q :=
  inject_Z i * rate + bias - inject_Z (phaseIndex rate bias i).

(** The counting loop of [nextGrainFirstSample], from [i] on. *)
Fixpoint countRun (fuel : nat) (rate bias : Q) (size i sz : Z) : Result Z :=
  match fuel with
  | O => OutOfFuel
  | S fuel =>
    let idx := phaseIndex rate bias i in
    if (idx <? 0)%Z then Undefined
    else if (size <=? idx)%Z then Ok sz
    else countRun fuel rate bias size (i + 1) (sz + 1)
  end.

(** [(1. - curBias) * grain[idx]
     + curBias * (idx + 1 < grain.size() ? grain[idx + 1] : nextGrainFirstSample)]. *)
Definition interpolate (grain : Span) (rate bias : Q) (i : Z) (next : Q) : option Q :=
  let idx := phaseIndex rate bias i in
  let curBias := phaseFraction rate bias i in
  match grainSample grain idx with
  | None => None
  | Some a =>
    match (if (idx + 1 <? spanLen grain)%Z then grainSample grain (idx + 1)
           else Some next) with
    | None => None
    | Some b => Some ((1 - curBias) * a + curBias * b)
    end
  end.

(** The resampling loop of the branch [diff == 0]. *)
Fixpoint renderAdjacent (fuel : nat) (grain : Span) (rate bias next : Q)
         (i : Z) (wav : list Q) (sz : Z) : Result (list Q * Z) :=
  match fuel with
  | O => OutOfFuel
  | S fuel =>
    let idx := phaseIndex rate bias i in
    if (idx <? 0)%Z then Undefined
    else if (spanLen grain <=? idx)%Z then Ok (wav, sz)
    else match interpolate grain rate bias i next with
         | None => Undefined
         | Some v => renderAdjacent fuel grain rate bias next (i + 1) (wav ++ [v]) (sz + 1)
         end
  end.

(** The resampling loop of the crossfade branch; [restWav.resize(n)] is
    the list [resize n 0], new samples being 0. *)
Fixpoint renderCrossfade (fuel : nat) (grain : Span) (rate bias next overlap : Q)
         (i : Z) (wav : list Q) (wavIdx : nat) (sz : Z) : Result (list Q * Z) :=
  match fuel with
  | O => OutOfFuel
  | S fuel =>
    let idx := phaseIndex rate bias i in
    if (idx <? 0)%Z then Undefined
    else if (spanLen grain <=? idx)%Z then Ok (wav, sz)
    else match interpolate grain rate bias i next with
         | None => Undefined
         | Some v =>
           let grow := (length wav <=? wavIdx)%nat in
           let wav := if grow then resize (wavIdx + 1) 0 wav else wav in
           let sz := if grow then (sz + 1)%Z else sz in
           let old := nth wavIdx wav 0 in
           let new :=
             if Qlt_bool (inject_Z (spanLen grain) * overlap) (inject_Z idx) then v
             else
               let k := 1 * inject_Z idx / (inject_Z (spanLen grain) * overlap) in
               sinq ((1 - k) * (31415926 # 10000000) / 2) * old
               + sinq (k * (31415926 # 10000000) / 2) * v in
           renderCrossfade fuel grain rate bias next overlap (i + 1)
                           (<[wavIdx := new]> wav) (wavIdx + 1) sz
         end
  end.

(** One pass through the body of the [while] loop once the grain is
    found: the look-ahead [nextGrainFirstSample], the adjacency test and
    the resampling.  The result is the state and the number [sz] of
    samples the residual grew by. *)
Definition renderGrain (fuel : nat) (g : Grain) (rate tmpCursor : Q) (st : State)
  : Result (State * Z) :=
  let grain := mkSpan (startSample g) (spanSize g) in
  match countRun fuel rate (bias st) (spanLen grain) 0 0 with
  | Undefined => Undefined
  | OutOfFuel => OutOfFuel
  | Ok sz =>
    let '(sample, st) :=
      query (Warp.time2Sample sampleRate markers
               (tmpCursor + 1 * inject_Z sz / inject_Z sampleRate)) st in
    match (match lower_bound grains sample with
           | None => Some 0
           | Some g' => readSample data (startSample g')
           end) with
    | None => Undefined
    | Some next =>
      let adjacent :=
        match prevGrain st with
        | None => false
        | Some prev => (spanStart grain - (spanStart prev + spanLen prev) =? 0)%Z
        end in
      let st := mkState (cursorSec st) (isAudioPlaying st) (restWav st) (bias st)
                        (Some grain) (randCalls st) (audioPaused st) (caches st) in
      if adjacent then
        match renderAdjacent fuel grain rate (bias st) next 0 (restWav st) 0 with
        | Undefined => Undefined
        | OutOfFuel => OutOfFuel
        | Ok (wav, sz) => Ok (withRestWav st wav, sz)
        end
      else
        let overlap := inject_Z (Z.rem (rand (randCalls st)) 200 + 700) / 1000 in
        let st := mkState (cursorSec st) (isAudioPlaying st) (restWav st) (bias st)
                          (prevGrain st) (S (randCalls st)) (audioPaused st)
                          (caches st) in
        let grainPart := Qtrunc (inject_Z (spanLen grain) / rate * overlap) in
        if (grainPart <? 0)%Z then Undefined
        else
          let size := Z.of_nat (length (restWav st)) in
          let wavIdx := if (grainPart <? size)%Z then (size - grainPart)%Z else 0%Z in
          match renderCrossfade fuel grain rate (bias st) next overlap 0
                                (restWav st) (Z.to_nat wavIdx) 0 with
          | Undefined => Undefined
          | OutOfFuel => OutOfFuel
          | Ok (wav, sz) => Ok (withRestWav st wav, sz)
          end
    end
  end.

(** How the playing branch leaves its [while] loop. *)
Inductive LoopExit : Type :=
| Filled
| LookupMiss.

(** The [while (restWav.size() < dur + preferredGrainSize)] loop. *)
Fixpoint fill (fuel : nat) (dur sampleOffset : Z) (tmpCursor : Q) (st : State)
  : Result (LoopExit * State) :=
  match fuel with
  | O => OutOfFuel
  | S fuel =>
    if (Z.of_nat (length (restWav st)) <? dur + preferredGrainSize)%Z then
      let '(sample, st) := query (Warp.time2Sample sampleRate markers tmpCursor) st in
      let sample := to_int (wrap64 (sample + sampleOffset)) in
      let '(pitchBend, st) :=
        query (Warp.time2PitchBend sampleRate markers (sizeOf data) tmpCursor) st in
      let rate := pow2 (pitchBend / 12) in
      match lower_bound grains sample with
      | None => Ok (LookupMiss, withPlaying st false)
      | Some g =>
        match renderGrain (S fuel) g rate tmpCursor st with
        | Undefined => Undefined
        | OutOfFuel => OutOfFuel
        | Ok (st, sz) =>
          fill fuel dur sampleOffset
               (tmpCursor + 1 * inject_Z sz / inject_Z sampleRate) st
        end
      end
    else Ok (Filled, st)
  end.

(** The copy loop [*w = restWav[i]; ++w] for the first [sz] samples. *)
Fixpoint deliver (samples : list Q) (w : Z) (out : Output) : Output :=
  match samples with
  | [] => out
  | x :: rest => deliver rest (w + 1) (store w x out)
  end.

(** Which [return] ends the callback. *)
Inductive Exit : Type :=
| ExitStopped
| ExitLookupMiss
| ExitDelivered.

(** [App::playback(w, dur)], its loops bounded by [fuel] iterations
    each. *)
Definition playback (fuel : nat) (dur : Z) (st : State) (out : Output)
  : Result (Exit * State * Output) :=
  let st :=
    if Qlt_bool (cursorSec st) 0 then withPlaying st false
    else
      let '(d, st) := query (Warp.duration sampleRate markers (sizeOf data)) st in
      if Qle_bool d (cursorSec st) then withPlaying st false else st in
  if negb (isAudioPlaying st) then
    let '(st, out) := stopped dur st out in
    Ok (ExitStopped, st, out)
  else
    let tmpCursor := cursorSec st in
    let sampleOffset := Z.of_nat (length (restWav st)) in
    match fill fuel dur sampleOffset tmpCursor st with
    | Undefined => Undefined
    | OutOfFuel => OutOfFuel
    | Ok (LookupMiss, st) => Ok (ExitLookupMiss, st, out)
    | Ok (Filled, st) =>
      match restWav st with
      | [] => Ok (ExitDelivered, st, out)
      | _ =>
        let sz := Z.to_nat (Z.min (Z.of_nat (length (restWav st))) dur) in
        let out := deliver (take sz (restWav st)) 0 out in
        Ok (ExitDelivered,
            mkState (cursorSec st + 1 * inject_Z (Z.of_nat sz) / inject_Z sampleRate)
                    (isAudioPlaying st) (drop sz (restWav st)) (bias st)
                    (prevGrain st) (randCalls st) (audioPaused st) (caches st),
            out)
      end
    end.

End Playback.
End Playback.

(** ** A worked document

    A buffer of 5461 samples at 48 kHz, all 1 except a single -1 at index
    2730, without markers; the transform finds no peak ([flat]); the audio
    device asks for 1024 samples per callback.  Without markers the pitch
    bend is 0, so [pow] is only asked for [pow(2, 0) = 1]; [sin] is stood
    in for by the identity and [rand()] by 0, which change the values of
    the crossfaded samples and nothing else that is stated below. *)

Module Demo.

Definition data : list Q := repeat 1 2730 ++ [-1] ++ repeat 1 2730.

Definition flat : list Q -> Z -> Q * Q := fun _ _ => (0, 0).

Definition estimate : Z -> option Z := Estimator.estimateGrainSize data 48000 flat.

Definition grains : list Grain := [mkGrain 0 2730 0].

(** A second buffer, of 5462 samples, with a second -1 at index 5460:
    it is segmented into two grains. *)
Definition twoCrossings : list Q := repeat 1 2730 ++ [-1] ++ repeat 1 2729 ++ [-1; 1].

Definition callback : Playback.State -> Playback.Output
                      -> Playback.Result (Playback.Exit * Playback.State * Playback.Output) :=
  Playback.playback 48000 [] data grains (fun _ => 1) (fun x => x) (fun _ => 0%Z)
                    3000 1024.

(** The output buffer as the device hands it over, holding old samples. *)
Definition buffer : Playback.Output := Playback.mkOutput (repeat 9 1024) [].

(** Playback starts at cursor 0 with an empty residual. *)
Definition start : Playback.State :=
  Playback.mkState 0 true [] 0 None 0 false invalidateCache.

End Demo.

(** ** Marker lists

    What the properties of the warp map ask of a marker list, and the
    quantities they are stated with. *)

Module Shape.
Section Shape.

Variable sampleRate : Z.

(** The sum of the markers' [dTime]. *)
Definition sumDTime (ms : list Marker) : Q :=
  fold_right (fun marker acc => dTime marker + acc) 0 ms.

(** The sum of the [dTime] of the markers at or before the sample [s]. *)
Fixpoint sumUpTo (s : Z) (ms : list Marker) : Q :=
  match ms with
  | [] => 0
  | marker :: rest =>
    (if (sample marker <=? s)%Z then dTime marker else 0) + sumUpTo s rest
  end.

(** The markers' samples ascend strictly, from [prevSample] on. *)
Fixpoint ascending (ms : list Marker) (prevSample : Z) : bool :=
  match ms with
  | [] => true
  | marker :: rest => (prevSample <? sample marker)%Z && ascending rest (sample marker)
  end.

(** Every marker segment runs forwards, in samples and in edited time:
    [prevSample < marker.sample] and
    [(marker.sample - prevSample) / sampleRate + marker.dTime > 0]. *)
Fixpoint forward (ms : list Marker) (prevSample : Z) : bool :=
  match ms with
  | [] => true
  | marker :: rest =>
    (prevSample <? sample marker)%Z
    && Qlt_bool 0 (1 * inject_Z (sample marker - prevSample) / inject_Z sampleRate
                   + dTime marker)
    && forward rest (sample marker)
  end.

(** The markers' samples do not descend, from [prevSample] on: the
    order [std::sort] leaves them in, with no sample below [prevSample]. *)
Fixpoint nondecreasing (ms : list Marker) (prevSample : Z) : bool :=
  match ms with
  | [] => true
  | marker :: rest =>
    (prevSample <=? sample marker)%Z && nondecreasing rest (sample marker)
  end.

End Shape.
End Shape.

(** ** The waveform pyramid

    [App::calcPicks] and [App::getMinMaxFromRange]: [picks[lvl]] holds,
    for each block of [2^(lvl + 1)] samples, the smallest and the largest
    sample of the block.  [picks] is declared in [app.hpp]; its uses in
    [app.cpp] make it a vector of levels, each a vector of pairs of
    [float]s.  [1 << k] is [Z.shiftl 1 k]; the [int] it is computed in
    holds it for buffers of up to [2^30] samples.  That [calcPicks] also
    clears the [waveformCache] of the display is left out. *)

Module Peaks.
Section Peaks.

Variable data : list Q.

(** [std::min(a, b)] and [std::max(a, b)]. *)
Definition fmin (a b : Q) : Q := if Qlt_bool b a then b else a.
Definition fmax (a b : Q) : Q := if Qlt_bool a b then b else a.

(** [{data[idx], data[idx]}]; [None] where the index is outside [data]. *)
Definition sampleAt (idx : Z) : option (Q * Q) :=
  match readSample data idx with
  | Some x => Some (x, x)
  | None => None
  end.

(** [level[idx]]; [None] where the index is outside the vector. *)
Definition pickAt (level : list (Q * Q)) (idx : Z) : option (Q * Q) :=
  if (idx <? 0)%Z then None else level !! Z.to_nat idx.

(** The smaller of the two [first]s with the larger of the two
    [second]s. *)
Definition merge (a b : Q * Q) : Q * Q :=
  (fmin (fst a) (fst b), fmax (snd a) (snd b)).

(** One of the two [for] loops of [App::calcPicks]: for each [i], the
    entries [i * 2] and [i * 2 + 1] of the level below, merged. *)
Fixpoint buildLevel (below : Z -> option (Q * Q)) (indices : list Z)
  : option (list (Q * Q)) :=
  match indices with
  | [] => Some []
  | i :: rest =>
    match below (i * 2)%Z, below (i * 2 + 1)%Z with
    | Some a, Some b =>
      match buildLevel below rest with
      | Some level => Some (merge a b :: level)
      | None => None
      end
    | _, _ => None
    end
  end.

(** The [for (;;)] loop of [App::calcPicks], [lvl] already incremented
    and [prev] being [picks[lvl - 1]]: the levels from [lvl] on.  [None]
    for a read outside a vector, or when the [fuel] iterations do not
    reach the [break]. *)
Fixpoint upperLevels (fuel : nat) (lvl : Z) (prev : list (Q * Q))
  : option (list (list (Q * Q))) :=
  match fuel with
  | O => None
  | S fuel =>
    if (sizeOf data <=? Z.shiftl 1 (lvl + 1))%Z then Some []
    else
      match buildLevel (pickAt prev)
                       (zrange 0 (sizeOf data ÷ Z.shiftl 1 (lvl + 1))) with
      | None => None
      | Some level =>
        match upperLevels fuel (lvl + 1) level with
        | None => None
        | Some levels => Some (level :: levels)
        end
      end
  end.

(** [App::calcPicks]: the new [picks]. *)
Definition calcPicks (fuel : nat) : option (list (list (Q * Q))) :=
  if (sizeOf data <=? Z.shiftl 1 (0 + 1))%Z then Some []
  else
    match buildLevel sampleAt (zrange 0 (sizeOf data ÷ Z.shiftl 1 (0 + 1))) with
    | None => None
    | Some level =>
      match upperLevels fuel 1 level with
      | None => None
      | Some levels => Some (level :: levels)
      end
    end.

Variable picks : list (list (Q * Q)).

(** The lambda of [App::getMinMaxFromRange] that reads
    [picks[lvl - 1][lvlStart]]; [lvl - 1] is a [size_t]. *)
Definition levelEntry (lvl lvlStart : Z) : option (Q * Q) :=
  if (Z.of_nat (length picks) <=? wrap64 (lvl - 1))%Z then Some (0, 0)
  else
    match picks !! Z.to_nat (wrap64 (lvl - 1)) with
    | None => None
    | Some level =>
      if (to_int (wrap64 (Z.of_nat (length level))) <=? lvlStart)%Z then Some (0, 0)
      else pickAt level lvlStart
    end.

(** [App::getMinMaxFromRange(start, end)], at most [fuel] calls deep;
    [lvl] is the integral part of [std::log2(end - start)].  [None] for
    a read outside a vector, or when the [fuel] is used up. *)
Fixpoint getMinMaxFromRange (fuel : nat) (start end_ : Z) : option (Q * Q) :=
  match fuel with
  | O => None
  | S fuel =>
    let size := to_int (wrap64 (sizeOf data)) in
    if (end_ <=? start)%Z then
      if (0 <=? start)%Z && (start <? size)%Z then sampleAt start else Some (0, 0)
    else if (start <? 0)%Z || (end_ <? 0)%Z then Some (0, 0)
    else if (size <=? start)%Z || (size <=? end_)%Z then Some (0, 0)
    else if (end_ - start =? 1)%Z then sampleAt start
    else
      let lvl := Z.log2 (end_ - start) in
      let lvlStart := (start ÷ Z.shiftl 1 lvl)%Z in
      match levelEntry lvl lvlStart with
      | None => None
      | Some minMax =>
        let leftEnd := (lvlStart * Z.shiftl 1 lvl)%Z in
        match (if (start <=? leftEnd)%Z then
                 match getMinMaxFromRange fuel start leftEnd with
                 | None => None
                 | Some leftMinMax => Some (merge minMax leftMinMax)
                 end
               else Some minMax) with
        | None => None
        | Some minMax =>
          let rightStart := ((lvlStart + 1) * Z.shiftl 1 lvl)%Z in
          if (rightStart <? end_)%Z then
            match getMinMaxFromRange fuel rightStart end_ with
            | None => None
            | Some rightMinMax => Some (merge minMax rightMinMax)
            end
          else Some minMax
        end
      end
  end.

(** *** What the pyramid is checked against *)

(** [p] holds the smallest and the largest of the samples
    [data[a .. b)]: it brackets every one of them and both its
    components are among them. *)
Definition isMinMaxOf (a b : Z) (p : Q * Q) : Prop :=
  (forall j, (a <= j < b)%Z ->
             exists x, readSample data j = Some x /\ fst p <= x /\ x <= snd p) /\
  (exists j, (a <= j < b)%Z /\ readSample data j = Some (fst p)) /\
  (exists j, (a <= j < b)%Z /\ readSample data j = Some (snd p)).

(** [leftEnd] of a call: the start of the block of [2^lvl] samples that
    holds [start], [lvl] being the level of the range. *)
Definition blockStart (start end_ : Z) : Z :=
  let lvl := Z.log2 (end_ - start) in
  (start ÷ Z.shiftl 1 lvl * Z.shiftl 1 lvl)%Z.

(** A level of blocks of [w] samples: one entry for each whole block of
    [data], with the smallest and the largest sample of the block. *)
Definition levelOf (w : Z) (level : list (Q * Q)) : Prop :=
  Z.of_nat (length level) = (sizeOf data / w)%Z /\
  forall i, (0 <= i < sizeOf data / w)%Z ->
            exists p, pickAt level i = Some p /\ isMinMaxOf (i * w) ((i + 1) * w) p.

(** The pyramid: level [l] exists when [2^(l + 1) < data.size()] and is
    the level of the blocks of [2^(l + 1)] samples. *)
Definition pyramid : Prop :=
  (forall l : nat, (l < length picks)%nat <-> (2 ^ (Z.of_nat l + 1) < sizeOf data)%Z) /\
  (forall (l : nat) level, picks !! l = Some level -> levelOf (2 ^ (Z.of_nat l + 1)) level).

End Peaks.
End Peaks.

(** A buffer of ten samples and its pyramid of three levels. *)
Module DemoPeaks.

Definition data : list Q := [3; -1; 4; 1; -5; 9; 2; 6; -5; 3].

Definition picks : list (list (Q * Q)) :=
  [[(-1, 3); (1, 4); (-5, 9); (2, 6); (-5, 3)]; [(-1, 4); (-5, 9)]; [(-5, 9)]].

End DemoPeaks.

(** ** The mouse handlers

    [App::mouseMotion] and [App::mouseButton]: the view, the cursor and
    the marker list under the mouse.  The texture caches of the display
    ([waveformCache], [specCache]) are left out.  Of the locking of the
    audio device the model keeps that it needs the device: [audio->lock()]
    where [audio] is not set dereferences a null pointer. *)

Module Editor.

(** Modelled from the spec: the declarations of the members of [App]
    that the handlers read and write (in [app.hpp]): the marker list,
    the iterator [selectedMarker] as the position it points to ([None]
    for [std::end(markers)]), the warp caches, the cursor and the view. *)
Record State := mkState {
  markers : list Marker;
  selectedMarker : option nat;
  caches : Caches;
  cursorSec : Q;
  startTime : Q;
  rangeTime : Q;
  startNote : Q;
  rangeNote : Q;
  followMode : bool
}.

(** [std::clamp(v, lo, hi)]. *)
Definition clamp (v lo hi : Q) : Q :=
  if Qlt_bool v lo then lo else if Qlt_bool hi v then hi else v.

(** The mouse button of a [mouseButton] event. *)
Inductive Button : Type :=
| ButtonLeft
| ButtonRight
| ButtonOther.

Section Editor.

Variable sampleRate : Z.

(** [data.size()] and whether [audio] is set. *)
Variable dataSize : Z.
Variable hasAudio : bool.

(** [io.DisplaySize.x] and [io.DisplaySize.y]. *)
Variable Width : Q.
Variable DisplayY : Q.

(** [std::sort] of the markers with the comparator
    [a.sample < b.sample], a library function. *)
Variable sort : list Marker -> list Marker.

(** [io.DisplaySize.y * .9 - 20]. *)
Definition Height : Q := DisplayY * (9 # 10) - 20.

Definition withMarkers (st : State) (ms : list Marker) (selected : option nat)
           (c : Caches) : State :=
  mkState ms selected c (cursorSec st) (startTime st) (rangeTime st)
          (startNote st) (rangeNote st) (followMode st).

Definition withCaches (st : State) (c : Caches) : State :=
  withMarkers st (markers st) (selectedMarker st) c.

Definition withCursor (st : State) (cursor : Q) (follow : bool) : State :=
  mkState (markers st) (selectedMarker st) (caches st) cursor (startTime st)
          (rangeTime st) (startNote st) (rangeNote st) follow.

Definition withTime (st : State) (start range : Q) : State :=
  mkState (markers st) (selectedMarker st) (caches st) (cursorSec st) start range
          (startNote st) (rangeNote st) false.

Definition withNote (st : State) (start range : Q) : State :=
  mkState (markers st) (selectedMarker st) (caches st) (cursorSec st) (startTime st)
          (rangeTime st) start range (followMode st).

(** [cursorSec = std::clamp(x * rangeTime / Width + startTime, 0., duration())],
    with [followMode] set to [follow]. *)
Definition scrub (x : Z) (follow : bool) (st : State) : State :=
  let '(d, c) := Warp.duration sampleRate (markers st) dataSize (caches st) in
  withCursor (withCaches st c)
             (clamp (inject_Z x * rangeTime st / Width + startTime st) 0 d) follow.

(** [selectedMarker->dTime += dX; selectedMarker->pitchBend -= dY]. *)
Definition drag (dX dY : Q) (marker : Marker) : Marker :=
  mkMarker (sample marker) (note marker) (dTime marker + dX) (pitchBend marker - dY).

(** The branch of [App::mouseMotion] for the middle button with Ctrl:
    zoom in time about the mouse. *)
Definition zoomTime (x dy : Z) (leftLimit rightLimit : Q) (st : State) : State :=
  let zoom := 1 + (1 # 100) * inject_Z dy in
  let cursorPos := 1 * inject_Z x / Width * rangeTime st + startTime st in
  let newStartTime := (startTime st - cursorPos) * zoom + cursorPos in
  let newEndTime := (startTime st + rangeTime st - cursorPos) * zoom + cursorPos in
  let start :=
    if Qle_bool leftLimit newStartTime && Qle_bool newStartTime rightLimit
    then newStartTime else startTime st in
  let range :=
    if Qle_bool leftLimit newEndTime && Qle_bool newEndTime rightLimit
    then newEndTime - start
    else if Qlt_bool newEndTime leftLimit then 10
    else if Qlt_bool rightLimit newEndTime then rightLimit - start
    else rangeTime st in
  withTime st start range.

(** The branch for the middle button with Alt: pan and zoom in pitch. *)
Definition panZoomNote (y dx dy : Z) (st : State) : State :=
  let delta := 1 * inject_Z dy * rangeNote st / Height in
  let newStartNote := startNote st + delta in
  let newStartNote :=
    if Qlt_bool newStartNote 0 then 0
    else if Qlt_bool 127 (newStartNote + rangeNote st) then 127 - rangeNote st
    else newStartNote in
  let st := withNote st newStartNote (rangeNote st) in
  let zoom := 1 - (1 # 1000) * inject_Z dx in
  let cursorPos := 1 * (Height - inject_Z y) / Height * rangeNote st + startNote st in
  let newStartNote := (startNote st - cursorPos) * zoom + cursorPos in
  let newEndNote := (startNote st + rangeNote st - cursorPos) * zoom + cursorPos in
  let start :=
    if Qle_bool 0 newStartNote && Qle_bool newStartNote 127
    then newStartNote else startNote st in
  let range :=
    if Qle_bool 0 newEndNote && Qle_bool newEndNote 127 then newEndNote - start
    else if Qlt_bool newEndNote 0 then 10
    else if Qlt_bool 127 newEndNote then 127 - start
    else rangeNote st in
  withNote st start range.

(** The branch for the middle button alone: pan in time. *)
Definition panTime (dx : Z) (leftLimit rightLimit : Q) (st : State) : State :=
  let dt := 1 * inject_Z dx * rangeTime st / Width in
  let newStartTime := startTime st - dt in
  let newStartTime := if Qlt_bool newStartTime leftLimit then leftLimit else newStartTime in
  let newStartTime :=
    if Qlt_bool rightLimit (newStartTime + rangeTime st)
    then rightLimit - rangeTime st else newStartTime in
  withTime st newStartTime (rangeTime st).

(** [App::mouseMotion(x, y, dx, dy, state)]: [middle] and [left] are
    the bits [SDL_BUTTON_MMASK] and [SDL_BUTTON_LMASK] of [state],
    [ctrl] and [alt] what [SDL_GetModState()] says of the Ctrl and the
    Alt keys. *)
Definition mouseMotion (x y dx dy : Z) (middle left ctrl alt : bool) (st : State) : State :=
  if (dataSize =? 0)%Z then st
  else
    let y := (y - 20)%Z in
    if middle then
      let leftLimit :=
        Qmax (- rangeTime st * (1 # 2))
             (- (1 # 2) * inject_Z dataSize / inject_Z sampleRate) in
      let rightLimit :=
        Qmin (inject_Z (dataSize ÷ sampleRate) + rangeTime st * (1 # 2))
             ((3 # 2) * inject_Z dataSize / inject_Z sampleRate) in
      if ctrl then zoomTime x dy leftLimit rightLimit st
      else if alt then panZoomNote y dx dy st
      else panTime dx leftLimit rightLimit st
    else if left then
      if Qlt_bool Height (inject_Z y) then
        if hasAudio then scrub x (followMode st) st else st
      else
        match selectedMarker st with
        | None => st
        | Some i =>
          let dX := inject_Z dx * rangeTime st / Width in
          let dY := inject_Z dy * rangeNote st / Height in
          withMarkers st (alter (drag dX dY) i (markers st)) (selectedMarker st)
                      invalidateCache
        end
    else st.

(** The [std::find_if] of [App::mouseButton]: the position of the first
    marker that lies within [dTime] and [dNote] of the mouse, from
    position [i] on; [sample2Time] walks all the markers [all]. *)
Fixpoint findHit (all ms : list Marker) (i : nat) (time mouseNote dTime dNote : Q)
  : Memo (option nat) :=
  match ms with
  | [] => ret None
  | m :: rest =>
    let* t := Warp.sample2Time sampleRate all (sample m) in
    if Qlt_bool (Qabs (t - time)) dTime
       && Qlt_bool (Qabs (note m - mouseNote + pitchBend m)) dNote
    then ret (Some i)
    else findHit all rest (S i) time mouseNote dTime dNote
  end.

(** The [std::find_if] for [m.sample == sample]. *)
Fixpoint findSample (ms : list Marker) (i : nat) (s : Z) : option nat :=
  match ms with
  | [] => None
  | m :: rest => if (sample m =? s)%Z then Some i else findSample rest (S i) s
  end.

(** [App::mouseButton(x, y, state, button)] from the [std::sort] of its
    third statement on, [audio] being set; [pressed] is
    [state == SDL_PRESSED]. *)
Definition handleButton (x y : Z) (pressed : bool) (button : Button) (st : State) : State :=
  let y := (y - 20)%Z in
  let st := withMarkers st (sort (markers st)) (selectedMarker st) (caches st) in
  let time := inject_Z x * rangeTime st / Width + startTime st in
  let note := (Height - inject_Z y) * rangeNote st / Height + startNote st in
  let dTime := 8 * rangeTime st / Width in
  let dNote := 8 * rangeNote st / Height in
  match button with
  | ButtonLeft =>
    if negb pressed then st
    else if (dataSize <? 2)%Z then st
    else if Qlt_bool Height (inject_Z y) then
      if hasAudio then scrub x false st else withCursor st (cursorSec st) false
    else
      let '(s, c) := Warp.time2Sample sampleRate (markers st) time (caches st) in
      let '(it, c) := findHit (markers st) (markers st) 0 time note dTime dNote c in
      match it with
      | None =>
        let '(pb, c) := Warp.time2PitchBend sampleRate (markers st) dataSize time c in
        let ms := sort (markers st ++ [mkMarker s (note - pb) 0 pb]) in
        withMarkers st ms (findSample ms 0 s) invalidateCache
      | Some i => withMarkers st (markers st) (Some i) c
      end
  | ButtonRight =>
    if negb pressed then st
    else if (dataSize <? 2)%Z then st
    else
      let '(it, c) :=
        findHit (markers st) (markers st) 0 time note dTime dNote (caches st) in
      match it with
      | None => withCaches st c
      | Some i => withMarkers st (delete i (markers st)) None invalidateCache
      end
  | ButtonOther => st
  end.

(** [App::mouseButton(x, y, state, button)].  Its [audio->lock()] comes
    before every test: [None] where [audio] is not set, the dereference of
    a null pointer, whatever the button. *)
Definition mouseButton (x y : Z) (pressed : bool) (button : Button) (st : State)
  : option State :=
  if hasAudio then Some (handleButton x y pressed button st) else None.

End Editor.

End Editor.

(** ** File names

    [App::openFile] and the file name handling of [App::saveMelonixFile].
    A [std::string] is the list of its characters. *)

Module Files.

(** [std::string::npos]. *)
Definition npos : Z := (2 ^ 64 - 1)%Z.

(** The scan behind [s.find_last_of(c)] for a one-character [c]: the
    index of the last [c] met, from index [i] on; [found] where there is
    none. *)
Fixpoint find_last_of_from (s : list ascii) (c : ascii) (i found : Z) : Z :=
  match s with
  | [] => found
  | x :: rest => find_last_of_from rest c (i + 1) (if Ascii.eqb x c then i else found)
  end.

(** [s.find_last_of(".")]. *)
Definition find_last_of (s : list ascii) (c : ascii) : Z :=
  find_last_of_from s c 0 npos.

(** [s.substr(pos)]: [None] where it throws [std::out_of_range]. *)
Definition substr (s : list ascii) (pos : Z) : option (list ascii) :=
  if (pos <=? Z.of_nat (length s))%Z then Some (drop (Z.to_nat pos) s) else None.

Definition melonix : list ascii := list_ascii_of_string "melonix".
Definition dotMelonix : list ascii := list_ascii_of_string ".melonix".

(** [a != b] on strings. *)
Definition differs (a b : list ascii) : bool :=
  negb (String.eqb (string_of_list_ascii a) (string_of_list_ascii b)).

(** What [App::openFile] goes on with. *)
Inductive Opened : Type :=
| ExportFile (fileName : list ascii)
| LoadMelonixFile (fileName : list ascii).

(** [App::openFile]; the sum [find_last_of(".") + 1] is a [size_t]. *)
Definition openFile (fileName : list ascii) : option Opened :=
  match substr fileName (wrap64 (find_last_of fileName "." + 1)) with
  | None => None
  | Some extension =>
    Some (if differs extension melonix then ExportFile fileName
          else LoadMelonixFile fileName)
  end.

Section Save.

(** [std::filesystem::path(fileName).extension().string()], a library
    function. *)
Variable extension : list ascii -> list ascii.

(** The name [App::saveMelonixFile] writes to and keeps as [saveName]. *)
Definition saveMelonixFile (fileName : list ascii) : list ascii :=
  if differs (extension fileName) melonix then fileName ++ dotMelonix else fileName.

End Save.

(** What the C++ standard says of [path::extension()]: the result is
    empty or begins with the period of the file name. *)
Definition dotted (extension : list ascii -> list ascii) : Prop :=
  forall fileName,
    extension fileName = [] \/ exists rest, extension fileName = "."%char :: rest.

End Files.

(** * Verification *)

(** ** Arithmetic helpers *)

Lemma Qlt_bool_iff (x y : Q) : Qlt_bool x y = true <-> x < y.
Proof.
  unfold Qlt_bool. rewrite negb_true_iff.
  destruct (Qle_bool y x) eqn:E.
  - apply Qle_bool_iff in E. split; [discriminate | intros; lra].
  - split; [intros _ | reflexivity].
    apply Qnot_le_lt. intros H. apply Qle_bool_iff in H. congruence.
Qed.

Lemma Qlt_bool_false (x y : Q) : Qlt_bool x y = false <-> y <= x.
Proof.
  unfold Qlt_bool. rewrite negb_false_iff. apply Qle_bool_iff.
Qed.

Lemma Qle_bool_false (x y : Q) : Qle_bool x y = false <-> y < x.
Proof.
  rewrite <- Qlt_bool_iff. unfold Qlt_bool.
  destruct (Qle_bool x y); simpl; split; congruence.
Qed.

(** Settle a comparison of the code, [holds] for a test that comes out
    true and [fails] for one that comes out false, from the facts at
    hand. *)
Ltac holds b :=
  replace b with true
    by (symmetry;
        first [ apply Z.ltb_lt; lia | apply Z.leb_le; lia
              | apply Qlt_bool_iff; first [assumption | lra]
              | apply Qle_bool_iff; first [assumption | lra] ]).

Ltac fails b :=
  replace b with false
    by (symmetry;
        first [ apply Z.ltb_ge; lia | apply Z.leb_gt; lia | apply Z.eqb_neq; lia
              | apply Qlt_bool_false; first [assumption | lra]
              | apply Qle_bool_false; first [assumption | lra] ]).

Lemma Qtrunc_comp (x y : Q) : x == y -> Qtrunc x = Qtrunc y.
Proof.
  intros E. unfold Qtrunc. rewrite E.
  destruct (Qle_bool 0 y); [apply Qfloor_comp | apply Qceiling_comp]; exact E.
Qed.

Lemma Qtrunc_Z (z : Z) : Qtrunc (inject_Z z) = z.
Proof.
  unfold Qtrunc. destruct (Qle_bool 0 (inject_Z z)); [apply Qfloor_Z | apply Qceiling_Z].
Qed.

Lemma inject_Z_sub (x y : Z) : inject_Z (x - y) == inject_Z x - inject_Z y.
Proof.
  unfold Z.sub. rewrite inject_Z_plus, inject_Z_opp. reflexivity.
Qed.

Lemma inject_Z_pos (x : Z) : (0 < x)%Z -> 0 < inject_Z x.
Proof. intros H. change 0 with (inject_Z 0). rewrite <- Zlt_Qlt. exact H. Qed.

Lemma inject_Z_nonneg (x : Z) : (0 <= x)%Z -> 0 <= inject_Z x.
Proof. intros H. change 0 with (inject_Z 0). rewrite <- Zle_Qle. exact H. Qed.

Lemma inject_Z_le (x y : Z) : (x <= y)%Z -> inject_Z x <= inject_Z y.
Proof. intros H. rewrite <- Zle_Qle. exact H. Qed.

Lemma Qdiv_le_mono (a b c : Q) : 0 < c -> a <= b -> a / c <= b / c.
Proof.
  intros Hc Hab. apply Qmult_le_compat_r; [exact Hab |].
  apply Qlt_le_weak, Qinv_lt_0_compat, Hc.
Qed.

Lemma Qdiv_nonneg (a c : Q) : 0 < c -> 0 <= a -> 0 <= a / c.
Proof.
  intros Hc Ha. unfold Qdiv. apply Qmult_le_0_compat; [exact Ha |].
  apply Qlt_le_weak, Qinv_lt_0_compat, Hc.
Qed.

(** [to_int] and [wrap64] leave an [int]-sized value alone. *)
Lemma to_int_wrap64 (z : Z) :
  (- 2 ^ 31 <= z < 2 ^ 31)%Z -> to_int (wrap64 z) = z.
Proof.
  intros H. unfold to_int, wrap64.
  assert (E : (z mod 2 ^ 64 = z \/ z mod 2 ^ 64 = z + 2 ^ 64)%Z).
  { destruct (Z_lt_le_dec z 0).
    - right. symmetry. apply Z.mod_unique with (q := (-1)%Z); lia.
    - left. apply Z.mod_small. lia. }
  destruct E as [-> | ->].
  - rewrite Z.mod_small by lia. lia.
  - replace (z + 2 ^ 64 + 2 ^ 31)%Z with (z + 2 ^ 31 + 2 ^ 32 * 2 ^ 32)%Z by lia.
    rewrite Z_mod_plus_full. rewrite Z.mod_small by lia. lia.
Qed.

Lemma in_zrange (lo hi x : Z) : In x (zrange lo hi) <-> (lo <= x < hi)%Z.
Proof.
  unfold zrange. rewrite in_map_iff. split.
  - intros (k & <- & Hk). apply in_seq in Hk. lia.
  - intros H. exists (Z.to_nat (x - lo)). split; [lia |]. apply in_seq. lia.
Qed.

(** ** The warp map *)

Section WarpFacts.

Variable sampleRate : Z.
Variable markers : list Marker.
Variable dataSize : Z.

Local Abbreviation sample2Time := (Warp.sample2Time sampleRate markers).
Local Abbreviation time2Sample := (Warp.time2Sample sampleRate markers).
Local Abbreviation duration := (Warp.duration sampleRate markers dataSize).
Local Abbreviation time2PitchBend := (Warp.time2PitchBend sampleRate markers dataSize).
Local Abbreviation sample2Time_uncached := (Warp.sample2Time_uncached sampleRate markers).
Local Abbreviation time2Sample_uncached := (Warp.time2Sample_uncached sampleRate markers).
Local Abbreviation duration_uncached := (Warp.duration_uncached sampleRate markers dataSize).
Local Abbreviation time2PitchBend_uncached :=
  (Warp.time2PitchBend_uncached sampleRate markers dataSize).
Local Abbreviation timeKey := (Warp.timeKey sampleRate).
Local Abbreviation history := (Warp.history sampleRate markers dataSize).
Local Abbreviation ask := (Warp.ask sampleRate markers dataSize).
Local Abbreviation coherent := (Warp.coherent sampleRate markers dataSize).

Lemma coherent_invalidate : coherent invalidateCache.
Proof. split; simpl; intros k v H; rewrite lookup_empty in H; discriminate. Qed.

Lemma sample2Time_value c val :
  coherent c -> value (sample2Time val) c = sample2Time_uncached val.
Proof.
  intros [H _ _]. unfold value, Warp.sample2Time, Warp.sample2Time_uncached.
  destruct (val <=? 0)%Z eqn:E; [reflexivity |].
  destruct (sample2TimeCache c !! val) as [v |] eqn:L; simpl; [| reflexivity].
  rewrite (H _ _ L). unfold Warp.sample2Time_uncached. rewrite E. reflexivity.
Qed.

Lemma sample2Time_coherent c val :
  coherent c -> coherent (after (sample2Time val) c).
Proof.
  intros [H1 H2 H3]. unfold after, Warp.sample2Time.
  destruct (val <=? 0)%Z eqn:E; [split; assumption |].
  destruct (sample2TimeCache c !! val) as [v |] eqn:L; simpl; [split; assumption |].
  split; simpl; [| assumption | assumption].
  intros k v. destruct (decide (val = k)) as [<- | Hne].
  - rewrite lookup_insert_eq. intros [= <-].
    unfold Warp.sample2Time_uncached. rewrite E. reflexivity.
  - rewrite lookup_insert_ne by exact Hne. apply H1.
Qed.

Lemma time2Sample_coherent c val :
  coherent c -> coherent (after (time2Sample val) c).
Proof.
  intros [H1 H2 H3]. unfold after, Warp.time2Sample.
  destruct (Qle_bool val 0) eqn:E; [split; assumption |].
  destruct (time2SampleCache c !! timeKey val) as [v |] eqn:L; simpl;
    [split; assumption |].
  split; simpl; [assumption | | assumption].
  intros k v. destruct (decide (timeKey val = k)) as [<- | Hne].
  - rewrite lookup_insert_eq. intros [= <-]. exists val. split; [reflexivity |].
    unfold Warp.time2Sample_uncached. rewrite E. reflexivity.
  - rewrite lookup_insert_ne by exact Hne. apply H2.
Qed.

Lemma duration_value c : coherent c -> value duration c = duration_uncached.
Proof. apply sample2Time_value. Qed.

Lemma duration_coherent c : coherent c -> coherent (after duration c).
Proof. apply sample2Time_coherent. Qed.

Lemma storePitchBend_coherent c val r :
  coherent c -> r = time2PitchBend_uncached val ->
  coherent (snd (Warp.storePitchBend (timeKey val) r c)).
Proof.
  intros [H1 H2 H3] Hr. split; simpl; [assumption | assumption |].
  intros k v. destruct (decide (timeKey val = k)) as [<- | Hne].
  - rewrite lookup_insert_eq. intros [= <-]. exists val. split; [reflexivity | exact Hr].
  - rewrite lookup_insert_ne by exact Hne. apply H3.
Qed.

(** A call of [time2PitchBend] whose key is not cached yet returns the
    uncached value and keeps the caches coherent. *)
Lemma time2PitchBend_miss c val :
  coherent c -> Qle_bool val 0 = false ->
  time2PitchBendCache c !! timeKey val = None ->
  value (time2PitchBend val) c = time2PitchBend_uncached val /\
  coherent (after (time2PitchBend val) c).
Proof.
  intros Hc E L. unfold value, after, Warp.time2PitchBend, Warp.time2PitchBend_uncached.
  rewrite E, L.
  destruct (Warp.time2PitchBend_loop sampleRate markers val 0 0 0)
    as [r | [prevTime prevPitchBend]] eqn:W.
  - split; [reflexivity |]. apply storePitchBend_coherent; [exact Hc |].
    unfold Warp.time2PitchBend_uncached. rewrite E, W. reflexivity.
  - unfold bind.
    pose proof (duration_value c Hc) as D1.
    pose proof (duration_coherent c Hc) as C1.
    unfold value in D1. unfold after in C1.
    destruct (duration c) as [d1 c1]. simpl in D1, C1. subst d1.
    destruct (Qlt_bool duration_uncached val) eqn:B.
    + split; [reflexivity | exact C1].
    + pose proof (duration_value c1 C1) as D2.
      pose proof (duration_coherent c1 C1) as C2.
      unfold value in D2. unfold after in C2.
      destruct (duration c1) as [d2 c2]. simpl in D2, C2. subst d2.
      split; [reflexivity |]. apply storePitchBend_coherent; [exact C2 |].
      unfold Warp.time2PitchBend_uncached. rewrite E, W, B. reflexivity.
Qed.

Lemma time2PitchBend_coherent c val :
  coherent c -> coherent (after (time2PitchBend val) c).
Proof.
  intros Hc.
  destruct (Qle_bool val 0) eqn:E.
  { unfold after, Warp.time2PitchBend. rewrite E. exact Hc. }
  destruct (time2PitchBendCache c !! timeKey val) as [v |] eqn:L.
  { unfold after, Warp.time2PitchBend. rewrite E, L. exact Hc. }
  apply time2PitchBend_miss; assumption.
Qed.

Lemma ask_coherent c q : coherent c -> coherent (after (ask q) c).
Proof.
  intros Hc. destruct q as [val | val | val |]; unfold after, Warp.ask, bind.
  - pose proof (sample2Time_coherent c val Hc) as H. unfold after in H.
    destruct (sample2Time val c); exact H.
  - pose proof (time2Sample_coherent c val Hc) as H. unfold after in H.
    destruct (time2Sample val c); exact H.
  - pose proof (time2PitchBend_coherent c val Hc) as H. unfold after in H.
    destruct (time2PitchBend val c); exact H.
  - pose proof (duration_coherent c Hc) as H. unfold after in H.
    destruct (duration c); exact H.
Qed.

Lemma history_coherent qs c : coherent c -> coherent (history qs c).
Proof.
  revert c. induction qs as [| q qs IH]; intros c Hc; simpl; [exact Hc |].
  apply IH, ask_coherent, Hc.
Qed.

Lemma value_bind {A B} (m : Memo A) (k : A -> Memo B) c :
  value (bind m k) c = value (k (value m c)) (after m c).
Proof. unfold value, after, bind. destruct (m c). reflexivity. Qed.

(** *** Monotonicity of the sample-to-time walk *)

Hypothesis sampleRate_pos : (0 < sampleRate)%Z.

Let sr_pos : 0 < inject_Z sampleRate := inject_Z_pos _ sampleRate_pos.

Lemma interp_le_right (a D S : Q) : 0 < S -> a <= S -> 0 <= D -> a * D / S <= D.
Proof.
  intros HS Ha HD. apply Qle_trans with (S * D / S).
  - apply Qdiv_le_mono; [exact HS | nra].
  - apply Qle_lteq. right. field. lra.
Qed.

Lemma segment_length prevSample prevTime marker :
  Warp.rightTimeOf sampleRate prevSample prevTime marker - prevTime
  == 1 * inject_Z (sample marker - prevSample) / inject_Z sampleRate + dTime marker.
Proof. unfold Warp.rightTimeOf. ring. Qed.

Lemma sample2Time_loop_ge ms val prevSample prevTime :
  Warp.no_reversal sampleRate ms prevSample = true -> (prevSample < val)%Z ->
  prevTime <= Warp.sample2Time_loop sampleRate ms val prevSample prevTime.
Proof.
  revert prevSample prevTime.
  induction ms as [| marker rest IH]; intros prevSample prevTime Hrev Hlt; simpl.
  - assert (0 <= 1 * inject_Z (val - prevSample) / inject_Z sampleRate).
    { apply Qdiv_nonneg; [exact sr_pos |].
      assert (0 <= inject_Z (val - prevSample)) by (apply inject_Z_nonneg; lia). lra. }
    lra.
  - simpl in Hrev. apply andb_true_iff in Hrev as [Hseg Hrev].
    apply Qle_bool_iff in Hseg. rewrite <- segment_length with (prevTime := prevTime) in Hseg.
    destruct ((prevSample <? val)%Z && (val <=? sample marker)%Z) eqn:E.
    + apply andb_true_iff in E as [_ E]. apply Z.leb_le in E.
      assert (0 <= inject_Z (val - prevSample)
                   * (Warp.rightTimeOf sampleRate prevSample prevTime marker - prevTime)
                   / inject_Z (sample marker - prevSample)).
      { apply Qdiv_nonneg; [apply inject_Z_pos; lia |].
        apply Qmult_le_0_compat; [apply inject_Z_nonneg; lia | exact Hseg]. }
      lra.
    + apply andb_false_iff in E as [E | E];
        [apply Z.ltb_ge in E; lia | apply Z.leb_gt in E].
      apply Qle_trans with (Warp.rightTimeOf sampleRate prevSample prevTime marker);
        [lra |].
      apply IH; assumption.
Qed.

Lemma sample2Time_loop_mono ms v1 v2 prevSample prevTime :
  Warp.no_reversal sampleRate ms prevSample = true ->
  (prevSample < v1)%Z -> (v1 <= v2)%Z ->
  Warp.sample2Time_loop sampleRate ms v1 prevSample prevTime
  <= Warp.sample2Time_loop sampleRate ms v2 prevSample prevTime.
Proof.
  revert prevSample prevTime.
  induction ms as [| marker rest IH]; intros prevSample prevTime Hrev Hlt Hle; simpl.
  - assert (1 * inject_Z (v1 - prevSample) / inject_Z sampleRate
            <= 1 * inject_Z (v2 - prevSample) / inject_Z sampleRate).
    { apply Qdiv_le_mono; [exact sr_pos |].
      assert (inject_Z (v1 - prevSample) <= inject_Z (v2 - prevSample))
        by (apply inject_Z_le; lia). lra. }
    lra.
  - pose proof Hrev as Hrev0.
    simpl in Hrev. apply andb_true_iff in Hrev as [Hseg Hrev].
    apply Qle_bool_iff in Hseg. rewrite <- segment_length with (prevTime := prevTime) in Hseg.
    set (rightTime := Warp.rightTimeOf sampleRate prevSample prevTime marker) in *.
    holds (prevSample <? v1)%Z.
    holds (prevSample <? v2)%Z.
    simpl.
    destruct (v2 <=? sample marker)%Z eqn:E2.
    + apply Z.leb_le in E2.
      holds (v1 <=? sample marker)%Z.
      assert (inject_Z (v1 - prevSample) * (rightTime - prevTime)
                / inject_Z (sample marker - prevSample)
              <= inject_Z (v2 - prevSample) * (rightTime - prevTime)
                / inject_Z (sample marker - prevSample)).
      { apply Qdiv_le_mono; [apply inject_Z_pos; lia |].
        assert (inject_Z (v1 - prevSample) <= inject_Z (v2 - prevSample))
          by (apply inject_Z_le; lia).
        nra. }
      lra.
    + apply Z.leb_gt in E2.
      destruct (v1 <=? sample marker)%Z eqn:E1.
      * apply Z.leb_le in E1.
        apply Qle_trans with rightTime.
        -- assert (inject_Z (v1 - prevSample) * (rightTime - prevTime)
                     / inject_Z (sample marker - prevSample)
                   <= rightTime - prevTime).
           { apply interp_le_right;
               [apply inject_Z_pos; lia | apply inject_Z_le; lia | exact Hseg]. }
           lra.
        -- apply sample2Time_loop_ge; [exact Hrev | lia].
      * apply Z.leb_gt in E1. apply IH; [exact Hrev | lia | lia].
Qed.

Lemma sample2Time_uncached_mono s1 s2 :
  Warp.no_reversal sampleRate markers 0 = true -> (s1 <= s2)%Z ->
  sample2Time_uncached s1 <= sample2Time_uncached s2.
Proof.
  intros Hrev Hle. unfold Warp.sample2Time_uncached.
  destruct (s2 <=? 0)%Z eqn:E2.
  - apply Z.leb_le in E2.
    holds (s1 <=? 0)%Z.
    apply Qdiv_le_mono; [exact sr_pos |].
    assert (inject_Z s1 <= inject_Z s2) by (apply inject_Z_le; lia). lra.
  - apply Z.leb_gt in E2.
    destruct (s1 <=? 0)%Z eqn:E1.
    + apply Z.leb_le in E1.
      apply Qle_trans with 0.
      * assert (1 * inject_Z (- s1) / inject_Z sampleRate >= 0).
        { apply Qdiv_nonneg; [exact sr_pos |].
          assert (0 <= inject_Z (- s1)) by (apply inject_Z_nonneg; lia). lra. }
        rewrite inject_Z_opp in H.
        assert (1 * - inject_Z s1 / inject_Z sampleRate
                == - (1 * inject_Z s1 / inject_Z sampleRate)) as E by (field; lra).
        rewrite E in H. lra.
      * apply sample2Time_loop_ge; [exact Hrev | lia].
    + apply Z.leb_gt in E1. apply sample2Time_loop_mono; [exact Hrev | lia | lia].
Qed.

End WarpFacts.

Arguments coherent_invalidate {sampleRate markers dataSize}.

(** Every call sees coherent caches: they were cleared by
    [invalidateCache] and filled by queries only. *)
Lemma coherent_history sampleRate markers dataSize qs :
  Warp.coherent sampleRate markers dataSize
    (Warp.history sampleRate markers dataSize qs invalidateCache).
Proof. apply history_coherent, coherent_invalidate. Qed.

(** *** C3: sampleToTime before the first marker *)

(** C3, refuted as stated: with a first marker at sample 48000 whose
    [dTime] is 1/2 at 48 kHz, [sample2Time 24000] is 3/4 s, not the
    identity-scaled 24000/48000 s, although 24000 lies before the marker. *)
Lemma sample2Time_first_segment_not_identity :
  let marker := mkMarker 48000 0 (1 # 2) 0 in
  (24000 <= sample marker)%Z /\
  value (Warp.sample2Time 48000 [marker] 24000) invalidateCache == 3 # 4 /\
  ~ value (Warp.sample2Time 48000 [marker] 24000) invalidateCache
    == inject_Z 24000 / inject_Z 48000.
Proof.
  split; [simpl; lia |]. split; [vm_compute; reflexivity |].
  vm_compute. discriminate.
Qed.

(** C3 (amended): for a sample index [s] at or before the first marker's
    sample, [sample2Time s] is [s / sampleRate] when [s <= 0], and for
    [0 < s] it is [s / sampleRate + (s / marker.sample) * marker.dTime]:
    the first segment is stretched by the first marker's [dTime], and the
    scaling is the identity exactly when that [dTime] contributes
    nothing.  This holds whatever was queried since the last
    invalidation. *)
Theorem sample2Time_before_first_marker
    (sampleRate : Z) (marker : Marker) (rest : list Marker) (dataSize : Z)
    (qs : list Warp.Query) (s : Z) :
  (0 < sampleRate)%Z ->
  (s <= sample marker)%Z ->
  value (Warp.sample2Time sampleRate (marker :: rest) s)
        (Warp.history sampleRate (marker :: rest) dataSize qs invalidateCache)
  == if (s <=? 0)%Z then inject_Z s / inject_Z sampleRate
     else inject_Z s / inject_Z sampleRate
          + inject_Z s / inject_Z (sample marker) * dTime marker.
Proof.
  intros Hsr Hs.
  rewrite (sample2Time_value _ _ dataSize) by apply coherent_history.
  unfold Warp.sample2Time_uncached.
  pose proof (inject_Z_pos _ Hsr) as Hq.
  destruct (s <=? 0)%Z eqn:E.
  - field. lra.
  - apply Z.leb_gt in E. simpl.
    holds (0 <? s)%Z.
    holds (s <=? sample marker)%Z.
    simpl. unfold Warp.rightTimeOf. rewrite !Z.sub_0_r.
    assert (0 < inject_Z (sample marker)) by (apply inject_Z_pos; lia).
    field. split; lra.
Qed.

Lemma sample2Time_before_first_marker_witness :
  value (Warp.sample2Time 48000 [mkMarker 48000 0 (1 # 2) 0] 24000)
        (Warp.history 48000 [mkMarker 48000 0 (1 # 2) 0] 96000
           [Warp.AskDuration] invalidateCache)
  == inject_Z 24000 / inject_Z 48000
     + inject_Z 24000 / inject_Z 48000 * (1 # 2).
Proof.
  apply (sample2Time_before_first_marker 48000 (mkMarker 48000 0 (1 # 2) 0) []
           96000 [Warp.AskDuration] 24000); simpl; lia.
Defined.

(** *** C4: monotonicity of sampleToTime *)

(** C4, refuted as stated: one marker (a sorted list) at sample 48000 with
    [dTime = -2] at 48 kHz maps sample 0 to 0 s and sample 48000 to -1 s. *)
Lemma sample2Time_not_monotone :
  let markers := [mkMarker 48000 0 (-2) 0] in
  Warp.sortedBySample markers = true /\
  (0 <= 48000)%Z /\
  ~ value (Warp.sample2Time 48000 markers 0) invalidateCache
    <= value (Warp.sample2Time 48000 markers 48000) invalidateCache.
Proof.
  split; [reflexivity |]. split; [lia |].
  vm_compute. intros H. apply H. reflexivity.
Qed.

(** C4 (amended): when no marker segment runs backwards, that is
    [(marker.sample - prevSample) / sampleRate + marker.dTime >= 0] for
    every marker of the walk from sample 0, [sample2Time] is monotone
    non-decreasing, whatever was queried since the last invalidation. *)
Theorem sample2Time_monotone
    (sampleRate : Z) (markers : list Marker) (dataSize : Z)
    (qs1 qs2 : list Warp.Query) (s1 s2 : Z) :
  (0 < sampleRate)%Z ->
  Warp.no_reversal sampleRate markers 0 = true ->
  (s1 <= s2)%Z ->
  value (Warp.sample2Time sampleRate markers s1)
        (Warp.history sampleRate markers dataSize qs1 invalidateCache)
  <= value (Warp.sample2Time sampleRate markers s2)
           (Warp.history sampleRate markers dataSize qs2 invalidateCache).
Proof.
  intros Hsr Hrev Hle.
  rewrite !(sample2Time_value _ _ dataSize) by apply coherent_history.
  apply sample2Time_uncached_mono; assumption.
Qed.

Lemma sample2Time_monotone_witness :
  let markers := [mkMarker 24000 0 (-1 # 4) 0; mkMarker 48000 0 (1 # 2) 0] in
  value (Warp.sample2Time 48000 markers 1000)
        (Warp.history 48000 markers 96000 [] invalidateCache)
  <= value (Warp.sample2Time 48000 markers 30000)
           (Warp.history 48000 markers 96000 [Warp.AskSample2Time 7] invalidateCache).
Proof.
  apply (sample2Time_monotone 48000
           [mkMarker 24000 0 (-1 # 4) 0; mkMarker 48000 0 (1 # 2) 0] 96000
           [] [Warp.AskSample2Time 7] 1000 30000);
    [lia | vm_compute; reflexivity | lia].
Defined.

(** *** Rounding to binary64 *)

Section Binary64Facts.

Import Binary64.

(** The nearest integer is at most one half away. *)
Lemma nearestEven_near (y : Q) : Qabs (inject_Z (nearestEven y) - y) <= 1 # 2.
Proof.
  pose proof (Qfloor_le y) as Hlo. pose proof (Qlt_floor y) as Hhi.
  rewrite inject_Z_plus in Hhi. change (inject_Z 1) with 1 in Hhi.
  apply Qabs_Qle_condition. unfold nearestEven.
  destruct (Qlt_bool (y - inject_Z (Qfloor y)) (1 # 2)) eqn:A.
  - apply Qlt_bool_iff in A. split; lra.
  - apply Qlt_bool_false in A.
    destruct (Qlt_bool (1 # 2) (y - inject_Z (Qfloor y))) eqn:B.
    + rewrite inject_Z_plus. change (inject_Z 1) with 1. split; lra.
    + apply Qlt_bool_false in B.
      destruct (Z.even (Qfloor y));
        [| rewrite inject_Z_plus; change (inject_Z 1) with 1]; split; lra.
Qed.

Lemma pow2_pos (k : Z) : 0 < 2 ^ k.
Proof. apply Qpower_0_lt. reflexivity. Qed.

(** The significand [x / 2^e] is at least [2^52]. *)
Lemma ulpExponent_low (x : Q) : ~ x == 0 -> 2 ^ (ulpExponent x + 52) <= Qabs x.
Proof.
  intros Hx. unfold ulpExponent.
  set (a := Z.log2 (Z.abs (Qnum x))). set (b := Z.log2 (Z.pos (Qden x))).
  destruct (Qlt_bool (Qabs x) (2 ^ (a - b - 52 + 52))) eqn:T;
    [| apply Qlt_bool_false in T; exact T].
  clear T.
  assert (Hn : (0 < Z.abs (Qnum x))%Z).
  { destruct x as [n d]. unfold Qeq in Hx. simpl in *. lia. }
  destruct (Z.log2_spec _ Hn) as [Ha _]. fold a in Ha.
  destruct (Z.log2_spec (Z.pos (Qden x)) eq_refl) as [_ Hb]. fold b in Hb.
  assert (Ha0 : (0 <= a)%Z) by apply Z.log2_nonneg.
  assert (Hb0 : (0 <= b)%Z) by apply Z.log2_nonneg.
  replace (a - b - 52 - 1 + 52)%Z with (a - (b + 1))%Z by lia.
  rewrite Qpower_minus by discriminate.
  assert (Ea : 2 ^ a == inject_Z (2 ^ a)) by (rewrite Zpower_Qpower by lia; reflexivity).
  assert (Eb : 2 ^ (b + 1) == inject_Z (2 ^ (b + 1)))
    by (rewrite Zpower_Qpower by lia; reflexivity).
  rewrite Ea, Eb. rewrite Z.add_1_r.
  assert (Hp : (0 < 2 ^ Z.succ b)%Z) by (apply Z.pow_pos_nonneg; lia).
  assert (Hq : (0 < 2 ^ a)%Z) by (apply Z.pow_pos_nonneg; lia).
  destruct x as [n d]. simpl in *.
  unfold Qabs, Qle, Qdiv, Qmult, Qinv, inject_Z. simpl.
  destruct (2 ^ Z.succ b)%Z as [| q | q] eqn:Eq; try lia. simpl.
  nia.
Qed.

(** ... and below [2^53]: it has 53 bits. *)
Lemma ulpExponent_high (x : Q) : ~ x == 0 -> Qabs x < 2 ^ (ulpExponent x + 53).
Proof.
  intros Hx. unfold ulpExponent.
  set (a := Z.log2 (Z.abs (Qnum x))). set (b := Z.log2 (Z.pos (Qden x))).
  destruct (Qlt_bool (Qabs x) (2 ^ (a - b - 52 + 52))) eqn:T.
  { apply Qlt_bool_iff in T.
    replace (a - b - 52 - 1 + 53)%Z with (a - b - 52 + 52)%Z by lia. exact T. }
  clear T.
  assert (Hn : (0 < Z.abs (Qnum x))%Z).
  { destruct x as [n d]. unfold Qeq in Hx. simpl in *. lia. }
  destruct (Z.log2_spec _ Hn) as [_ Ha]. fold a in Ha.
  destruct (Z.log2_spec (Z.pos (Qden x)) eq_refl) as [Hb _]. fold b in Hb.
  assert (Ha0 : (0 <= a)%Z) by apply Z.log2_nonneg.
  assert (Hb0 : (0 <= b)%Z) by apply Z.log2_nonneg.
  replace (a - b - 52 + 53)%Z with (a + 1 - b)%Z by lia.
  rewrite Qpower_minus by discriminate.
  assert (Ea : 2 ^ (a + 1) == inject_Z (2 ^ (a + 1)))
    by (rewrite Zpower_Qpower by lia; reflexivity).
  assert (Eb : 2 ^ b == inject_Z (2 ^ b)) by (rewrite Zpower_Qpower by lia; reflexivity).
  rewrite Ea, Eb. rewrite Z.add_1_r.
  assert (Hp : (0 < 2 ^ b)%Z) by (apply Z.pow_pos_nonneg; lia).
  destruct x as [n d]. simpl in *.
  unfold Qabs, Qlt, Qdiv, Qmult, Qinv, inject_Z. simpl.
  destruct (2 ^ b)%Z as [| q | q] eqn:Eq; try lia. simpl.
  nia.
Qed.

(** The relative error of a rounding is at most the unit roundoff. *)
Lemma round_error (x : Q) : Qabs (round x - x) <= Qabs x * unitRoundoff.
Proof.
  unfold round. destruct (Qeq_bool x 0) eqn:Z0.
  - apply Qeq_bool_iff in Z0. rewrite Z0. vm_compute. discriminate.
  - assert (Hx : ~ x == 0) by (intros H; apply Qeq_bool_iff in H; congruence).
    cbv zeta. set (e := ulpExponent x).
    pose proof (pow2_pos e) as He.
    pose proof (ulpExponent_low x Hx) as Hlow. fold e in Hlow.
    rewrite Qpower_plus in Hlow by discriminate.
    pose proof (nearestEven_near (x / 2 ^ e)) as Hn.
    set (m := inject_Z (nearestEven (x / 2 ^ e))) in *.
    assert (E : m * 2 ^ e - x == (m - x / 2 ^ e) * 2 ^ e) by (field; lra).
    rewrite E, Qabs_Qmult, (Qabs_pos (2 ^ e)) by lra.
    change (2 ^ 52) with 4503599627370496 in Hlow.
    unfold unitRoundoff.
    assert (Qabs (m - x / 2 ^ e) * 2 ^ e <= (1 # 2) * 2 ^ e)
      by (apply Qmult_le_compat_r; [exact Hn | lra]).
    lra.
Qed.

End Binary64Facts.


(** *** The warp map in rounded arithmetic *)

(** With the identity for the rounding, the rounded functions are those
    of [Warp]. *)
Lemma exact_sample2Time sampleRate markers val c :
  Rounded.sample2Time (fun x => x) sampleRate markers val c
  = Warp.sample2Time sampleRate markers val c.
Proof.
  unfold Rounded.sample2Time, Warp.sample2Time.
  assert (L : forall ms prevSample prevTime,
            Rounded.sample2Time_loop (fun x => x) sampleRate ms val prevSample prevTime
            = Warp.sample2Time_loop sampleRate ms val prevSample prevTime).
  { induction ms as [| marker rest IH]; intros prevSample prevTime; simpl; [reflexivity |].
    rewrite IH. reflexivity. }
  rewrite L. reflexivity.
Qed.

Lemma exact_time2Sample sampleRate markers val c :
  Rounded.time2Sample (fun x => x) sampleRate markers val c
  = Warp.time2Sample sampleRate markers val c.
Proof.
  unfold Rounded.time2Sample, Warp.time2Sample, Rounded.timeKey, Warp.timeKey.
  assert (L : forall ms prevSample prevTime,
            Rounded.time2Sample_loop (fun x => x) sampleRate ms val prevSample prevTime
            = Warp.time2Sample_loop sampleRate ms val prevSample prevTime).
  { induction ms as [| marker rest IH]; intros prevSample prevTime; simpl; [reflexivity |].
    rewrite IH. reflexivity. }
  rewrite L. reflexivity.
Qed.

Lemma Qtrunc_abs_le (x : Q) : Qabs (inject_Z (Qtrunc x)) <= Qabs x.
Proof.
  unfold Qtrunc. destruct (Qle_bool 0 x) eqn:E.
  - apply Qle_bool_iff in E. pose proof (Qfloor_le x) as H.
    assert (0 <= inject_Z (Qfloor x)).
    { change 0 with (inject_Z 0). rewrite <- Zle_Qle.
      rewrite <- (Qfloor_Z 0). apply Qfloor_resp_le, E. }
    rewrite !Qabs_pos by lra. exact H.
  - apply Qle_bool_false in E. pose proof (Qle_ceiling x) as H.
    assert (inject_Z (Qceiling x) <= 0).
    { change 0 with (inject_Z 0). rewrite <- Zle_Qle.
      rewrite <- (Qceiling_Z 0). apply Qceiling_resp_le.
      change (inject_Z 0) with 0. lra. }
    rewrite !Qabs_neg by lra. lra.
Qed.

Section RoundedFacts.

Variable rnd : Q -> Q.
Hypothesis rnd_accurate : Rounded.accurate rnd.

Variable sampleRate : Z.

Local Abbreviation u := Binary64.unitRoundoff.

Lemma same_close (a y : Q) : y == a -> Qabs (y - a) <= 0 * Qabs a.
Proof.
  intros E. rewrite E.
  setoid_replace (a - a) with 0 using relation Qeq by ring.
  change (Qabs 0) with 0. lra.
Qed.

(** One more rounding adds at most two unit roundoffs to a relative
    error of at most 1. *)
Lemma rnd_close (a y eps : Q) :
  0 <= eps <= 1 -> Qabs (y - a) <= eps * Qabs a ->
  Qabs (rnd y - a) <= (eps + 2 * u) * Qabs a.
Proof.
  intros [He0 He1] Hy.
  pose proof (rnd_accurate y) as Hr.
  pose proof (Qabs_triangle_reverse y a) as Ht.
  pose proof (Qabs_triangle (rnd y - y) (y - a)) as Hs.
  assert (E : rnd y - y + (y - a) == rnd y - a) by ring.
  rewrite E in Hs.
  pose proof (Qabs_nonneg a) as Ha.
  assert (Hp : eps * Qabs a <= 1 * Qabs a) by (apply Qmult_le_compat_r; assumption).
  unfold Binary64.unitRoundoff in *. lra.
Qed.

Lemma scaled_close (a y c eps : Q) :
  Qabs (y - a) <= eps * Qabs a -> Qabs (y * c - a * c) <= eps * Qabs (a * c).
Proof.
  intros Hy.
  assert (E : y * c - a * c == (y - a) * c) by ring.
  rewrite E, !Qabs_Qmult.
  pose proof (Qabs_nonneg c).
  assert (Qabs (y - a) * Qabs c <= eps * Qabs a * Qabs c)
    by (apply Qmult_le_compat_r; assumption).
  lra.
Qed.

(** Without markers [sample2Time], when it is not answered from the
    cache, is [val / sampleRate] up to three roundings. *)
Lemma sample2Time_rounded (val : Z) (c : Caches) :
  sample2TimeCache c !! val = None ->
  Qabs (value (Rounded.sample2Time rnd sampleRate [] val) c
        - inject_Z val / inject_Z sampleRate)
  <= 6 * u * Qabs (inject_Z val / inject_Z sampleRate).
Proof.
  intros Hc. unfold value, Rounded.sample2Time.
  assert (H1 : Qabs (rnd (1 * inject_Z val) - inject_Z val) <= (0 + 2 * u) * Qabs (inject_Z val)).
  { apply rnd_close; [lra |].
    apply same_close. ring. }
  assert (H2 : Qabs (rnd (rnd (1 * inject_Z val) / inject_Z sampleRate)
                     - inject_Z val / inject_Z sampleRate)
               <= (0 + 2 * u + 2 * u) * Qabs (inject_Z val / inject_Z sampleRate)).
  { apply rnd_close; [unfold Binary64.unitRoundoff; lra |].
    apply scaled_close. exact H1. }
  pose proof (Qabs_nonneg (inject_Z val / inject_Z sampleRate)) as Ha.
  destruct (val <=? 0)%Z; cbn [fst].
  - unfold Binary64.unitRoundoff in *. lra.
  - rewrite Hc. cbn [fst Rounded.sample2Time_loop]. rewrite Z.sub_0_r.
    assert (H3 : Qabs (rnd (0 + rnd (rnd (1 * inject_Z val) / inject_Z sampleRate))
                       - inject_Z val / inject_Z sampleRate)
                 <= (0 + 2 * u + 2 * u + 2 * u) * Qabs (inject_Z val / inject_Z sampleRate)).
    { apply rnd_close; [unfold Binary64.unitRoundoff; lra |].
      setoid_replace (0 + rnd (rnd (1 * inject_Z val) / inject_Z sampleRate)
                      - inject_Z val / inject_Z sampleRate)
        with (rnd (rnd (1 * inject_Z val) / inject_Z sampleRate)
              - inject_Z val / inject_Z sampleRate)
        using relation Qeq by ring.
      exact H2. }
    unfold Binary64.unitRoundoff in *. lra.
Qed.

(** Without markers [time2Sample], when it is not answered from the
    cache, truncates [val * sampleRate] up to three roundings. *)
Lemma time2Sample_rounded (val : Q) (c : Caches) :
  time2SampleCache c = ∅ ->
  exists p : Q,
    value (Rounded.time2Sample rnd sampleRate [] val) c = Qtrunc p /\
    Qabs (p - val * inject_Z sampleRate) <= 6 * u * Qabs (val * inject_Z sampleRate).
Proof.
  intros Hc. unfold value, Rounded.time2Sample.
  pose proof (Qabs_nonneg (val * inject_Z sampleRate)) as Ha.
  destruct (Qle_bool val 0); cbn [fst].
  - eexists. split; [reflexivity |].
    assert (H1 : Qabs (rnd (val * inject_Z sampleRate) - val * inject_Z sampleRate)
                 <= (0 + 2 * u) * Qabs (val * inject_Z sampleRate)).
    { apply rnd_close; [lra |].
      apply same_close. reflexivity. }
    unfold Binary64.unitRoundoff in *. lra.
  - rewrite Hc, lookup_empty. cbn [fst Rounded.time2Sample_loop].
    eexists. split; [reflexivity |].
    assert (H1 : Qabs (rnd (val - 0) - val) <= (0 + 2 * u) * Qabs val).
    { apply rnd_close; [lra |].
      apply same_close. ring. }
    assert (H2 : Qabs (rnd (rnd (val - 0) * inject_Z sampleRate) - val * inject_Z sampleRate)
                 <= (0 + 2 * u + 2 * u) * Qabs (val * inject_Z sampleRate)).
    { apply rnd_close; [unfold Binary64.unitRoundoff; lra |].
      apply scaled_close. exact H1. }
    assert (H3 : Qabs (rnd (inject_Z 0 + rnd (rnd (val - 0) * inject_Z sampleRate))
                       - val * inject_Z sampleRate)
                 <= (0 + 2 * u + 2 * u + 2 * u) * Qabs (val * inject_Z sampleRate)).
    { apply rnd_close; [unfold Binary64.unitRoundoff; lra |].
      setoid_replace (inject_Z 0 + rnd (rnd (val - 0) * inject_Z sampleRate)
                      - val * inject_Z sampleRate)
        with (rnd (rnd (val - 0) * inject_Z sampleRate) - val * inject_Z sampleRate)
        using relation Qeq by (change (inject_Z 0) with 0; ring).
      exact H2. }
    unfold Binary64.unitRoundoff in *. lra.
Qed.

End RoundedFacts.

Lemma sample2Time_keeps_time2Sample rnd sampleRate markers val c :
  time2SampleCache (after (Rounded.sample2Time rnd sampleRate markers val) c)
  = time2SampleCache c.
Proof.
  unfold after, Rounded.sample2Time.
  destruct (val <=? 0)%Z; [reflexivity |].
  destruct (sample2TimeCache c !! val); reflexivity.
Qed.

Lemma time2Sample_keeps_sample2Time rnd sampleRate markers val c :
  sample2TimeCache (after (Rounded.time2Sample rnd sampleRate markers val) c)
  = sample2TimeCache c.
Proof.
  unfold after, Rounded.time2Sample.
  destruct (Qle_bool val 0); [reflexivity |].
  destruct (time2SampleCache c !! _); reflexivity.
Qed.

(** A [double] less than 1 away from a positive integer [s] converts to
    [s] or to [s - 1]. *)
Lemma Qtrunc_within_one (p : Q) (s : Z) :
  (0 <= s)%Z -> Qabs (p - inject_Z s) < 1 -> Qtrunc p = s \/ Qtrunc p = (s - 1)%Z.
Proof.
  intros Hs Hp. apply Qabs_Qlt_condition in Hp as [Hlo Hhi].
  pose proof (inject_Z_nonneg s Hs) as Hq.
  unfold Qtrunc. destruct (Qle_bool 0 p) eqn:E.
  - pose proof (Qfloor_le p) as H1. pose proof (Qlt_floor p) as H2.
    assert (A : inject_Z (Qfloor p) < inject_Z (s + 1))
      by (rewrite inject_Z_plus; change (inject_Z 1) with 1; lra).
    assert (B : inject_Z (s - 1) < inject_Z (Qfloor p + 1)).
    { rewrite inject_Z_sub. change (inject_Z 1) with 1. lra. }
    rewrite <- Zlt_Qlt in A, B. lia.
  - apply Qle_bool_false in E.
    pose proof (Qle_ceiling p) as H1. pose proof (Qceiling_lt p) as H2.
    assert (A : inject_Z (Qceiling p - 1) < inject_Z 0)
      by (change (inject_Z 0) with 0; lra).
    assert (B : inject_Z (s - 1) < inject_Z (Qceiling p)).
    { rewrite inject_Z_sub. change (inject_Z 1) with 1. lra. }
    rewrite <- Zlt_Qlt in A, B. lia.
Qed.

Lemma Qtrunc_near (x : Q) : x - 1 < inject_Z (Qtrunc x) /\ inject_Z (Qtrunc x) < x + 1.
Proof.
  unfold Qtrunc. destruct (Qle_bool 0 x) eqn:E.
  - pose proof (Qfloor_le x) as H1. pose proof (Qlt_floor x) as H2.
    rewrite inject_Z_plus in H2. change (inject_Z 1) with 1 in H2. split; lra.
  - pose proof (Qle_ceiling x) as H1. pose proof (Qceiling_lt x) as H2.
    rewrite inject_Z_sub in H2. change (inject_Z 1) with 1 in H2. split; lra.
Qed.


(** *** C5: round trips without markers *)

(** C5, refuted as stated, in binary64 arithmetic at 48 kHz without
    markers.  Sample 27 maps to the time [27 / 48000], rounded, and back
    to sample 26: the product [26.999999999999996] is truncated.  The
    edited time nearest to [1 / 96000] maps to sample 0 and back to 0 s:
    half a sample tick is lost, no rounding error. *)
Lemma round_trip_not_identity :
  value (let* t := Rounded.sample2Time Binary64.round 48000 [] 27 in
         Rounded.time2Sample Binary64.round 48000 [] t) invalidateCache = 26%Z /\
  let t := Binary64.round (1 # 96000) in
  value (let* s := Rounded.time2Sample Binary64.round 48000 [] t in
         Rounded.sample2Time Binary64.round 48000 [] s) invalidateCache == 0 /\
  1 # 100000 < t.
Proof.
  split; [vm_compute; reflexivity |].
  split; vm_compute; reflexivity.
Qed.

(** C5 (amended): without markers, on freshly invalidated caches and
    with every operation on [double]s rounded with a relative error of at
    most [2^-53], [time2Sample (sample2Time s)] is [s] or [s - 1] for
    every sample index [0 <= s < 2^31], and [sample2Time (time2Sample t)]
    is [t] truncated to the sample grid: it lies less than one sample
    tick [1 / sampleRate], and a rounding error of at most [18 * 2^-53]
    of [t], from [t]. *)
Theorem round_trip_no_markers (rnd : Q -> Q) (sampleRate : Z) :
  Rounded.accurate rnd -> (0 < sampleRate)%Z ->
  (forall s : Z,
     (0 <= s < 2 ^ 31)%Z ->
     let r := value (let* t := Rounded.sample2Time rnd sampleRate [] s in
                     Rounded.time2Sample rnd sampleRate [] t) invalidateCache in
     r = s \/ r = (s - 1)%Z) /\
  (forall t : Q,
     let r := value (let* s := Rounded.time2Sample rnd sampleRate [] t in
                     Rounded.sample2Time rnd sampleRate [] s) invalidateCache in
     Qabs (r - t) < 1 / inject_Z sampleRate + Qabs t * (18 # 9007199254740992)).
Proof.
  intros Hacc Hsr. pose proof (inject_Z_pos _ Hsr) as Hq.
  split.
  - intros s Hs r. subst r. rewrite value_bind.
    set (t := value (Rounded.sample2Time rnd sampleRate [] s) invalidateCache).
    pose proof (sample2Time_rounded rnd Hacc sampleRate s invalidateCache
                  (lookup_empty _)) as Ht.
    fold t in Ht.
    destruct (time2Sample_rounded rnd Hacc sampleRate t
                (after (Rounded.sample2Time rnd sampleRate [] s) invalidateCache))
      as (p & -> & Hp).
    { rewrite sample2Time_keeps_time2Sample. reflexivity. }
    apply Qtrunc_within_one; [lia |].
    apply (scaled_close _ _ (inject_Z sampleRate)) in Ht.
    assert (E : inject_Z s / inject_Z sampleRate * inject_Z sampleRate == inject_Z s)
      by (field; lra).
    rewrite E in Ht.
    assert (Hs0 : 0 <= inject_Z s) by (apply inject_Z_nonneg; lia).
    assert (Hs1 : inject_Z s <= 2147483647).
    { change 2147483647 with (inject_Z 2147483647). apply inject_Z_le. lia. }
    rewrite (Qabs_pos (inject_Z s)) in Ht by exact Hs0.
    pose proof (Qabs_triangle_reverse (t * inject_Z sampleRate) (inject_Z s)) as T1.
    pose proof (Qabs_triangle (p - t * inject_Z sampleRate)
                              (t * inject_Z sampleRate - inject_Z s)) as T2.
    assert (E2 : p - t * inject_Z sampleRate + (t * inject_Z sampleRate - inject_Z s)
                 == p - inject_Z s) by ring.
    rewrite E2 in T2.
    rewrite (Qabs_pos (inject_Z s)) in T1 by exact Hs0.
    unfold Binary64.unitRoundoff in *. lra.
  - intros t r. subst r. rewrite value_bind.
    destruct (time2Sample_rounded rnd Hacc sampleRate t invalidateCache eq_refl)
      as (p & Ek & Hp).
    set (k := value (Rounded.time2Sample rnd sampleRate [] t) invalidateCache) in *.
    pose proof (sample2Time_rounded rnd Hacc sampleRate k
                  (after (Rounded.time2Sample rnd sampleRate [] t) invalidateCache)) as Hr.
    rewrite time2Sample_keeps_sample2Time in Hr. specialize (Hr (lookup_empty _)).
    set (r := value (Rounded.sample2Time rnd sampleRate [] k)
                    (after (Rounded.time2Sample rnd sampleRate [] t) invalidateCache)) in *.
    set (S := inject_Z sampleRate) in *.
    assert (HS : Qabs S == S) by (apply Qabs_pos; lra).
    assert (HiS : 0 < / S) by (apply Qinv_lt_0_compat; exact Hq).
    (* in ticks *)
    pose proof (Qtrunc_near p) as [N1 N2]. rewrite <- Ek in N1, N2.
    pose proof (Qtrunc_abs_le p) as N3. rewrite <- Ek in N3.
    rewrite Qabs_Qmult, HS in Hp.
    unfold Qdiv in Hr. rewrite Qabs_Qmult, (Qabs_pos (/ S)) in Hr by lra.
    pose proof (Qabs_triangle_reverse p (t * S)) as T1.
    rewrite Qabs_Qmult, HS in T1.
    set (K := Qabs (inject_Z k)) in *. set (T := Qabs t) in *. set (P := Qabs p) in *.
    assert (HT : 0 <= T) by apply Qabs_nonneg.
    (* the three distances *)
    assert (D1 : Qabs (r - inject_Z k * / S) <= 12 * Binary64.unitRoundoff * T).
    { assert (K * / S <= (T * S + 6 * Binary64.unitRoundoff * (T * S)) * / S).
      { apply Qmult_le_compat_r; [| lra]. unfold Binary64.unitRoundoff in *. lra. }
      assert (E : (T * S + 6 * Binary64.unitRoundoff * (T * S)) * / S
                  == T + 6 * Binary64.unitRoundoff * T) by (field; lra).
      rewrite E in H.
      assert (0 <= K * / S).
      { apply Qmult_le_0_compat; [apply Qabs_nonneg | lra]. }
      unfold Binary64.unitRoundoff in *. lra. }
    assert (D2 : Qabs (inject_Z k * / S - p * / S) < 1 * / S).
    { assert (E : inject_Z k * / S - p * / S == (inject_Z k - p) * / S) by ring.
      rewrite E, Qabs_Qmult, (Qabs_pos (/ S)) by lra.
      apply Qmult_lt_compat_r; [exact HiS |].
      apply Qabs_Qlt_condition. split; lra. }
    assert (D3 : Qabs (p * / S - t) <= 6 * Binary64.unitRoundoff * T).
    { assert (E : p * / S - t == (p - t * S) * / S) by (field; lra).
      rewrite E, Qabs_Qmult, (Qabs_pos (/ S)) by lra.
      assert (Qabs (p - t * S) * / S <= 6 * Binary64.unitRoundoff * (T * S) * / S)
        by (apply Qmult_le_compat_r; [exact Hp | lra]).
      assert (E3 : 6 * Binary64.unitRoundoff * (T * S) * / S
                   == 6 * Binary64.unitRoundoff * T) by (field; lra).
      rewrite E3 in H. exact H. }
    pose proof (Qabs_triangle (r - inject_Z k * / S) (inject_Z k * / S - p * / S)) as A1.
    pose proof (Qabs_triangle (r - inject_Z k * / S + (inject_Z k * / S - p * / S))
                              (p * / S - t)) as A2.
    assert (E4 : r - inject_Z k * / S + (inject_Z k * / S - p * / S) + (p * / S - t)
                 == r - t) by ring.
    rewrite E4 in A2.
    unfold Qdiv. unfold Binary64.unitRoundoff in *. lra.
Qed.

Lemma round_trip_no_markers_witness :
  (forall s : Z,
     (0 <= s < 2 ^ 31)%Z ->
     let r := value (let* t := Rounded.sample2Time Binary64.round 48000 [] s in
                     Rounded.time2Sample Binary64.round 48000 [] t) invalidateCache in
     r = s \/ r = (s - 1)%Z) /\
  (forall t : Q,
     let r := value (let* s := Rounded.time2Sample Binary64.round 48000 [] t in
                     Rounded.sample2Time Binary64.round 48000 [] s) invalidateCache in
     Qabs (r - t) < 1 / inject_Z 48000 + Qabs t * (18 # 9007199254740992)).
Proof.
  apply (round_trip_no_markers Binary64.round 48000); [exact round_error | lia].
Defined.

(** *** C6: one marker lengthens the duration by its dTime *)

(** Without markers, and in exact arithmetic, [sample2Time] is the
    identity scaling. *)
Lemma sample2Time_no_markers sampleRate dataSize c s :
  Warp.coherent sampleRate [] dataSize c ->
  value (Warp.sample2Time sampleRate [] s) c
  == inject_Z s / inject_Z sampleRate.
Proof.
  intros Hc. rewrite (sample2Time_value _ _ dataSize) by exact Hc.
  unfold Warp.sample2Time_uncached.
  destruct (s <=? 0)%Z; simpl; rewrite ?Z.sub_0_r; unfold Qdiv; ring.
Qed.

(** C6: a single marker at sample 24000 with [dTime = 1/2] and
    [pitchBend = 0] in a buffer of more than 24000 samples makes
    [duration()] exactly 1/2 s longer than without markers. *)
Theorem duration_single_marker
    (sampleRate dataSize : Z) (note0 : Q) (qs qs' : list Warp.Query) :
  (0 < sampleRate)%Z ->
  (24000 < dataSize <= 2 ^ 31)%Z ->
  let markers := [mkMarker 24000 note0 (1 # 2) 0] in
  value (Warp.duration sampleRate markers dataSize)
        (Warp.history sampleRate markers dataSize qs invalidateCache)
  == value (Warp.duration sampleRate [] dataSize)
           (Warp.history sampleRate [] dataSize qs' invalidateCache)
     + (1 # 2).
Proof.
  intros Hsr Hn markers.
  pose proof (inject_Z_pos _ Hsr) as Hq.
  unfold Warp.duration.
  rewrite (sample2Time_no_markers sampleRate dataSize) by apply coherent_history.
  rewrite (sample2Time_value _ _ dataSize) by apply coherent_history.
  rewrite to_int_wrap64 by lia.
  unfold Warp.sample2Time_uncached.
  fails (dataSize - 1 <=? 0)%Z.
  subst markers. simpl.
  holds (0 <? dataSize - 1)%Z.
  unfold Warp.rightTimeOf. simpl sample. simpl dTime.
  destruct (dataSize - 1 <=? 24000)%Z eqn:E; simpl.
  - apply Z.leb_le in E. assert (dataSize - 1 = 24000)%Z as -> by lia.
    vm_compute (24000 - 0)%Z. field. lra.
  - rewrite !inject_Z_sub. vm_compute (24000 - 0)%Z. field. lra.
Qed.

Lemma duration_single_marker_witness :
  value (Warp.duration 48000 [mkMarker 24000 60 (1 # 2) 0] 48000)
        (Warp.history 48000 [mkMarker 24000 60 (1 # 2) 0] 48000 [] invalidateCache)
  == value (Warp.duration 48000 [] 48000)
           (Warp.history 48000 [] 48000 [] invalidateCache)
     + (1 # 2).
Proof.
  apply (duration_single_marker 48000 48000 60 [] []); lia.
Defined.

(** *** C2: the pitch-bend curve *)

(** The marker loop of [time2PitchBend] followed by the decay branch is the
    curve through the marker knots. *)
Lemma time2PitchBend_loop_curve sampleRate ms val prevSample prevTime prevPitchBend endTime :
  match Warp.time2PitchBend_loop sampleRate ms val prevSample prevTime prevPitchBend with
  | inl r => r
  | inr (t, p) =>
    if Qlt_bool endTime val then 0 else p + (val - t) * (0 - p) / (endTime - t)
  end
  = Warp.curveThrough (Warp.markerKnots sampleRate ms prevSample prevTime)
      (prevTime, prevPitchBend) endTime val.
Proof.
  revert prevSample prevTime prevPitchBend.
  induction ms as [| marker rest IH]; intros prevSample prevTime prevPitchBend; simpl.
  - reflexivity.
  - destruct (Qlt_bool prevTime val
              && Qle_bool val (Warp.rightTimeOf sampleRate prevSample prevTime marker));
      [reflexivity | apply IH].
Qed.

Lemma time2PitchBend_uncached_curve sampleRate markers dataSize val :
  Warp.time2PitchBend_uncached sampleRate markers dataSize val
  = Warp.pitchBendCurve sampleRate markers dataSize val.
Proof.
  unfold Warp.time2PitchBend_uncached, Warp.pitchBendCurve.
  destruct (Qle_bool val 0); [reflexivity |].
  rewrite <- time2PitchBend_loop_curve.
  destruct (Warp.time2PitchBend_loop sampleRate markers val 0 0 0) as [r | [t p]];
    reflexivity.
Qed.

(** C2, refuted as stated: with one marker at sample 48000 ([dTime = 0],
    [pitchBend = 2]) at 48 kHz the first marker's edited time is 1 s, and
    at the earlier edited time 1/2 s the pitch bend is 1, not 0. *)
Lemma time2PitchBend_not_zero_before_first_marker :
  let markers := [mkMarker 48000 0 0 2] in
  value (Warp.sample2Time 48000 markers 48000) invalidateCache == 1 /\
  (1 # 2) < value (Warp.sample2Time 48000 markers 48000) invalidateCache /\
  value (Warp.time2PitchBend 48000 markers 96001 (1 # 2)) invalidateCache == 1 /\
  ~ value (Warp.time2PitchBend 48000 markers 96001 (1 # 2)) invalidateCache == 0.
Proof.
  repeat split; try (vm_compute; reflexivity). vm_compute. discriminate.
Qed.

(** C2 (amended): on freshly invalidated caches [time2PitchBend] is the
    piecewise-linear curve through [(0, 0)], the markers' accumulated
    edited times with their [pitchBend], and [(duration(), 0)]: 0 for times
    up to 0, the line of the first marker interval that holds the time,
    past the markers the line from the last marker's [pitchBend] down to 0
    at [duration()], and 0 beyond [duration()].  Before the first marker
    (at positive times) it is therefore the ramp
    [val * pitchBend / rightTime] from 0 towards the first marker's
    [pitchBend], not 0. *)
Theorem time2PitchBend_curve
    (sampleRate : Z) (markers : list Marker) (dataSize : Z) (val : Q) :
  value (Warp.time2PitchBend sampleRate markers dataSize val) invalidateCache
  = Warp.pitchBendCurve sampleRate markers dataSize val
  /\
  (forall marker rest,
     markers = marker :: rest ->
     0 < val -> val <= Warp.rightTimeOf sampleRate 0 0 marker ->
     value (Warp.time2PitchBend sampleRate markers dataSize val) invalidateCache
     == val * pitchBend marker / Warp.rightTimeOf sampleRate 0 0 marker).
Proof.
  assert (V : value (Warp.time2PitchBend sampleRate markers dataSize val) invalidateCache
              = Warp.time2PitchBend_uncached sampleRate markers dataSize val).
  { destruct (Qle_bool val 0) eqn:E.
    - unfold value, Warp.time2PitchBend, Warp.time2PitchBend_uncached.
      rewrite E. reflexivity.
    - apply time2PitchBend_miss;
        [apply coherent_invalidate | exact E | apply lookup_empty]. }
  split.
  - rewrite V. apply time2PitchBend_uncached_curve.
  - intros marker rest -> Hpos Hle. rewrite V.
    unfold Warp.time2PitchBend_uncached.
    fails (Qle_bool val 0).
    simpl.
    holds (Qlt_bool 0 val).
    holds (Qle_bool val (Warp.rightTimeOf sampleRate 0 0 marker)).
    simpl. field. lra.
Qed.

Lemma time2PitchBend_curve_witness :
  value (Warp.time2PitchBend 48000 [mkMarker 48000 0 0 2] 96001 (1 # 2)) invalidateCache
  == (1 # 2) * 2 / Warp.rightTimeOf 48000 0 0 (mkMarker 48000 0 0 2).
Proof.
  apply (proj2 (time2PitchBend_curve 48000 [mkMarker 48000 0 0 2] 96001 (1 # 2))
           (mkMarker 48000 0 0 2) []);
    [reflexivity | reflexivity | vm_compute; discriminate].
Defined.

(** *** C8: the memoized queries against the uncached ones *)

(** C8, refuted as stated.  Pitch bend: with one marker at sample 48000
    ([pitchBend = 12]) at 48 kHz, the times 1/4 s and 1/4 s + 1/65536 s
    share the key 12000; after a query at the first, the query at the
    second returns the first's answer 3 instead of 3 + 3/16384.  Sample:
    with the marker's [dTime = -1/2] the same two times map to samples
    24000 and 24001, and the second query returns 24000. *)
Lemma memoized_query_differs_from_uncached :
  let t1 := 1 # 4 in
  let t2 := 16385 # 65536 in
  let bend := [mkMarker 48000 0 0 12] in
  let squeeze := [mkMarker 48000 0 (-1 # 2) 0] in
  ~ t1 == t2 /\
  Warp.timeKey 48000 t1 = Warp.timeKey 48000 t2 /\
  value (Warp.time2PitchBend 48000 bend 96000 t2)
        (Warp.history 48000 bend 96000 [Warp.AskTime2PitchBend t1] invalidateCache)
  == 3 /\
  Warp.time2PitchBend_uncached 48000 bend 96000 t2 == 49155 # 16384 /\
  value (Warp.time2Sample 48000 squeeze t2)
        (Warp.history 48000 squeeze 96000 [Warp.AskTime2Sample t1] invalidateCache)
  = 24000%Z /\
  Warp.time2Sample_uncached 48000 squeeze t2 = 24001%Z.
Proof.
  repeat split; try (vm_compute; reflexivity). vm_compute. discriminate.
Qed.

(** C8 (amended): for a fixed marker list and any queries answered since
    the last invalidation, the memoized [sample2Time] returns the value of
    the uncached function at its argument; the memoized [time2Sample] and
    [time2PitchBend] return the value of the uncached function at some time
    with the same quantized key [static_cast<int>(val * sampleRate)] as the
    argument, and at the argument itself when that key is not cached
    yet. *)
Theorem memoized_queries
    (sampleRate : Z) (markers : list Marker) (dataSize : Z) (qs : list Warp.Query) :
  let c := Warp.history sampleRate markers dataSize qs invalidateCache in
  (forall s : Z,
     value (Warp.sample2Time sampleRate markers s) c
     = Warp.sample2Time_uncached sampleRate markers s) /\
  (forall t : Q,
     (exists t', Warp.timeKey sampleRate t' = Warp.timeKey sampleRate t /\
                 value (Warp.time2Sample sampleRate markers t) c
                 = Warp.time2Sample_uncached sampleRate markers t') /\
     (time2SampleCache c !! Warp.timeKey sampleRate t = None ->
      value (Warp.time2Sample sampleRate markers t) c
      = Warp.time2Sample_uncached sampleRate markers t)) /\
  (forall t : Q,
     (exists t', Warp.timeKey sampleRate t' = Warp.timeKey sampleRate t /\
                 value (Warp.time2PitchBend sampleRate markers dataSize t) c
                 = Warp.time2PitchBend_uncached sampleRate markers dataSize t') /\
     (time2PitchBendCache c !! Warp.timeKey sampleRate t = None ->
      value (Warp.time2PitchBend sampleRate markers dataSize t) c
      = Warp.time2PitchBend_uncached sampleRate markers dataSize t)).
Proof.
  intros c.
  assert (Hc : Warp.coherent sampleRate markers dataSize c) by apply coherent_history.
  split; [| split].
  - intros s. apply (sample2Time_value _ _ dataSize), Hc.
  - intros t.
    assert (M : time2SampleCache c !! Warp.timeKey sampleRate t = None ->
                value (Warp.time2Sample sampleRate markers t) c
                = Warp.time2Sample_uncached sampleRate markers t).
    { intros L. unfold value, Warp.time2Sample, Warp.time2Sample_uncached.
      destruct (Qle_bool t 0); [reflexivity |]. rewrite L. reflexivity. }
    split; [| exact M].
    destruct (time2SampleCache c !! Warp.timeKey sampleRate t) as [v |] eqn:L.
    + destruct (Qle_bool t 0) eqn:E.
      * exists t. split; [reflexivity |].
        unfold value, Warp.time2Sample, Warp.time2Sample_uncached. rewrite E. reflexivity.
      * destruct (Warp.coh_time2Sample _ _ _ _ Hc _ _ L) as (t' & Hk & ->).
        exists t'. split; [exact Hk |].
        unfold value, Warp.time2Sample. rewrite E, L. reflexivity.
    + exists t. split; [reflexivity | apply M; reflexivity].
  - intros t.
    assert (M : time2PitchBendCache c !! Warp.timeKey sampleRate t = None ->
                value (Warp.time2PitchBend sampleRate markers dataSize t) c
                = Warp.time2PitchBend_uncached sampleRate markers dataSize t).
    { intros L. destruct (Qle_bool t 0) eqn:E.
      - unfold value, Warp.time2PitchBend, Warp.time2PitchBend_uncached.
        rewrite E. reflexivity.
      - apply time2PitchBend_miss; assumption. }
    split; [| exact M].
    destruct (time2PitchBendCache c !! Warp.timeKey sampleRate t) as [v |] eqn:L.
    + destruct (Qle_bool t 0) eqn:E.
      * exists t. split; [reflexivity |].
        unfold value, Warp.time2PitchBend, Warp.time2PitchBend_uncached.
        rewrite E. reflexivity.
      * destruct (Warp.coh_time2PitchBend _ _ _ _ Hc _ _ L) as (t' & Hk & ->).
        exists t'. split; [exact Hk |].
        unfold value, Warp.time2PitchBend. rewrite E, L. reflexivity.
    + exists t. split; [reflexivity | apply M; reflexivity].
Qed.

Lemma memoized_queries_witness :
  value (Warp.time2PitchBend 48000 [mkMarker 48000 0 0 12] 96000 (1 # 4))
        (Warp.history 48000 [mkMarker 48000 0 0 12] 96000
           [Warp.AskTime2PitchBend (3 # 4)] invalidateCache)
  = Warp.time2PitchBend_uncached 48000 [mkMarker 48000 0 0 12] 96000 (1 # 4).
Proof.
  apply (proj2 (proj2 (proj2 (memoized_queries 48000 [mkMarker 48000 0 0 12] 96000
                                [Warp.AskTime2PitchBend (3 # 4)])) (1 # 4))).
  vm_compute. reflexivity.
Defined.

(** ** Grain size estimation *)

Lemma readSample_in_range data idx :
  (0 <= idx < sizeOf data)%Z -> exists x, readSample data idx = Some x.
Proof.
  intros H. unfold readSample, sizeOf in *.
  fails (idx <? 0)%Z.
  destruct (nth_error data (Z.to_nat idx)) as [x |] eqn:E; [exists x; reflexivity |].
  apply nth_error_None in E. lia.
Qed.

Lemma readWindow_in_range data indices start :
  data <> [] -> (sizeOf data <= 2 ^ 31)%Z ->
  (forall i, In i indices -> 0 <= start + i)%Z ->
  exists input, Estimator.readWindow data indices start = Some input.
Proof.
  intros Hne Hsize.
  assert (0 < sizeOf data)%Z by (unfold sizeOf; destruct data; [congruence | simpl; lia]).
  induction indices as [| i rest IH]; intros Hin; simpl.
  - exists []. reflexivity.
  - rewrite to_int_wrap64 by lia.
    destruct (readSample_in_range data (Z.min (start + i) (sizeOf data - 1))) as [x ->].
    { specialize (Hin i (or_introl eq_refl)). lia. }
    destruct IH as [xs ->]; [intros j Hj; apply Hin; right; exact Hj |].
    exists (x :: xs). reflexivity.
Qed.

Lemma Qtrunc_ge (z : Z) (x : Q) : inject_Z z <= x -> (0 <= z)%Z -> (z <= Qtrunc x)%Z.
Proof.
  intros Hx Hz. unfold Qtrunc.
  assert (0 <= x) by (pose proof (inject_Z_nonneg z Hz); lra).
  holds (Qle_bool 0 x).
  rewrite <- (Qfloor_Z z). apply Qfloor_resp_le, Hx.
Qed.

(** Where the window can be read, the estimate is the last line's
    formula at the peak bin of the transform. *)
Lemma estimateGrainSize_readable data sampleRate fft start :
  data <> [] -> (sizeOf data <= 2 ^ 31)%Z -> (0 <= start)%Z ->
  exists input,
    Estimator.estimateGrainSize data sampleRate fft start
    = Some (Estimator.grainSizeOf sampleRate (Estimator.peakBin sampleRate (fft input))).
Proof.
  intros Hne Hsize Hstart.
  destruct (readWindow_in_range data (zrange 0 GrainSpectrSize) start Hne Hsize)
    as [input Hin].
  { intros i Hi. apply in_zrange in Hi. lia. }
  exists input. unfold Estimator.estimateGrainSize. rewrite Hin. reflexivity.
Qed.

(** The estimate lies between the preferred size and the preferred size
    plus one second of samples, whatever the peak bin. *)
Lemma grainSizeOf_bounds (sampleRate maxIndex : Z) :
  (0 < sampleRate)%Z ->
  (1500 <= Estimator.grainSizeOf sampleRate maxIndex <= 1500 + sampleRate)%Z.
Proof.
  intros Hsr. pose proof (inject_Z_pos _ Hsr) as Hq.
  unfold Estimator.grainSizeOf.
  set (maxFreq := Estimator.maxFreqOf sampleRate maxIndex).
  assert (Hm : 1 <= maxFreq) by apply Q.le_max_l.
  change (inject_Z preferredGrainSize) with 1500.
  set (x := 1 * 1500 * maxFreq / inject_Z sampleRate).
  assert (Ex : x * inject_Z sampleRate / maxFreq == 1500) by (unfold x; field; lra).
  pose proof (Qle_ceiling x) as Hlo.
  pose proof (Qceiling_lt x) as Hhi.
  rewrite inject_Z_sub in Hhi. change (inject_Z 1) with 1 in Hhi.
  set (k := inject_Z (Qceiling x)) in *.
  assert (Hy1 : 1500 <= k * inject_Z sampleRate / maxFreq).
  { rewrite <- Ex. apply Qdiv_le_mono; [lra |]. apply Qmult_le_compat_r; lra. }
  assert (Hy2 : k * inject_Z sampleRate / maxFreq < 1500 + inject_Z sampleRate).
  { apply Qlt_le_trans with ((x + 1) * inject_Z sampleRate / maxFreq).
    - apply Qmult_lt_compat_r; [apply Qinv_lt_0_compat; lra |].
      apply Qmult_lt_compat_r; lra.
    - assert (E : (x + 1) * inject_Z sampleRate / maxFreq
                  == 1500 + inject_Z sampleRate / maxFreq) by (unfold x; field; lra).
      rewrite E. apply Qplus_le_r. apply Qle_shift_div_r; [lra | nra]. }
  split.
  - apply Qtrunc_ge; [exact Hy1 | lia].
  - assert (Ht : inject_Z (Qtrunc (k * inject_Z sampleRate / maxFreq))
                 <= k * inject_Z sampleRate / maxFreq).
    { unfold Qtrunc.
      holds (Qle_bool 0 (k * inject_Z sampleRate / maxFreq)).
      apply Qfloor_le. }
    assert (Hlt : inject_Z (Qtrunc (k * inject_Z sampleRate / maxFreq))
                  < inject_Z (1500 + sampleRate)).
    { rewrite inject_Z_plus. change (inject_Z 1500) with 1500. lra. }
    rewrite <- Zlt_Qlt in Hlt. lia.
Qed.

(** *** C7: the estimate as a formula of the peak bin *)

Lemma zrange_nil (lo hi : Z) : (hi <= lo)%Z -> zrange lo hi = [].
Proof. intros H. unfold zrange. replace (Z.to_nat (hi - lo)) with 0%nat by lia. reflexivity. Qed.

Lemma zrange_cons (lo hi : Z) : (lo < hi)%Z -> zrange lo hi = lo :: zrange (lo + 1) hi.
Proof.
  intros H. unfold zrange.
  replace (Z.to_nat (hi - lo)) with (S (Z.to_nat (hi - (lo + 1)))) by lia.
  simpl. rewrite Z.add_0_r. f_equal.
  rewrite <- seq_shift, map_map. apply map_ext. intros k. lia.
Qed.

(** What the window holds. *)
Lemma readWindow_samples data indices start input :
  Estimator.readWindow data indices start = Some input ->
  map Some input
  = map (fun i => readSample data (Z.min (start + i) (to_int (wrap64 (sizeOf data - 1)))))
        indices.
Proof.
  revert input. induction indices as [| i rest IH]; intros input; simpl.
  - intros [= <-]. reflexivity.
  - destruct (readSample data _) as [x |] eqn:E; [| discriminate].
    destruct (Estimator.readWindow data rest start) as [xs |]; [| discriminate].
    intros [= <-]. simpl. rewrite (IH xs eq_refl). reflexivity.
Qed.

(** The scanning loop, started on the range [lo .. hi - 1] with
    [max = 0] and [maxIndex = lo], ends in the bin [scanPeak] describes. *)
Lemma scanMax_scanPeak (output : Z -> Q * Q) (lo hi : Z) :
  Estimator.scanPeak output lo hi (Estimator.scanMax output (zrange lo hi) 0 lo).
Proof.
  destruct (Z.le_gt_cases hi lo) as [Hempty | Hlt].
  { rewrite zrange_nil by exact Hempty. left. split; [reflexivity |]. intros j Hj. lia. }
  assert (G : forall n l m r,
            Z.to_nat (hi - l) = n -> (lo <= l <= hi)%Z ->
            (m = 0 /\ r = lo /\
             (forall j, (lo <= j < l)%Z -> Estimator.magnitude output j <= 0)) \/
            ((lo <= r < l)%Z /\ m = Estimator.magnitude output r /\
             0 < Estimator.magnitude output r /\
             (forall j, (lo <= j < r)%Z ->
                        Estimator.magnitude output j < Estimator.magnitude output r) /\
             (forall j, (r <= j < l)%Z ->
                        Estimator.magnitude output j <= Estimator.magnitude output r)) ->
            Estimator.scanPeak output lo hi (Estimator.scanMax output (zrange l hi) m r)).
  { induction n as [| n IH]; intros l m r Hn Hl Inv.
    - assert (l = hi) by lia. subst l. rewrite zrange_nil by lia. simpl.
      destruct Inv as [(_ & -> & H0) | (Hr & _ & Hpos & Hbefore & Hafter)].
      + left. split; [reflexivity | exact H0].
      + right. repeat split; try assumption; lia.
    - rewrite zrange_cons by lia. simpl.
      destruct (Qlt_bool m (Estimator.magnitude output l)) eqn:C.
      + apply Qlt_bool_iff in C. apply IH; [lia | lia |]. right.
        split; [lia |]. split; [reflexivity |].
        destruct Inv as [(-> & -> & H0) | (Hr & -> & Hpos & Hbefore & Hafter)].
        * split; [exact C |]. split.
          -- intros j Hj. specialize (H0 j Hj). lra.
          -- intros j Hj. assert (j = l) by lia. subst j. lra.
        * split; [lra |]. split.
          -- intros j Hj. destruct (Z.lt_ge_cases j r) as [Hjr | Hjr].
             ++ specialize (Hbefore j ltac:(lia)). lra.
             ++ specialize (Hafter j ltac:(lia)). lra.
          -- intros j Hj. assert (j = l) by lia. subst j. lra.
      + apply Qlt_bool_false in C. apply IH; [lia | lia |].
        destruct Inv as [(-> & -> & H0) | (Hr & -> & Hpos & Hbefore & Hafter)].
        * left. repeat split. intros j Hj.
          destruct (Z.eq_dec j l) as [-> | Hne]; [exact C | apply H0; lia].
        * right. split; [lia |]. split; [reflexivity |]. split; [exact Hpos |].
          split; [exact Hbefore |]. intros j Hj.
          destruct (Z.eq_dec j l) as [-> | Hne]; [exact C | apply Hafter; lia]. }
  apply (G (Z.to_nat (hi - lo)) lo 0 lo eq_refl); [lia |].
  left. repeat split. intros j Hj. lia.
Qed.

(** A scan ends in one bin only. *)
Lemma scanPeak_unique (output : Z -> Q * Q) (lo hi bin bin' : Z) :
  Estimator.scanPeak output lo hi bin -> Estimator.scanPeak output lo hi bin' ->
  bin = bin'.
Proof.
  unfold Estimator.scanPeak. cbv zeta.
  intros [(-> & H0) | (Hr & Hpos & Hb & Ha)] [(-> & H0') | (Hr' & Hpos' & Hb' & Ha')].
  - reflexivity.
  - specialize (H0 bin' Hr'). lra.
  - specialize (H0' bin Hr). lra.
  - destruct (Z.lt_trichotomy bin bin') as [L | [E | L]]; [| exact E |].
    + specialize (Hb' bin ltac:(lia)). specialize (Ha bin' ltac:(lia)). lra.
    + specialize (Hb bin' ltac:(lia)). specialize (Ha' bin ltac:(lia)). lra.
Qed.

(** C7: for a non-empty buffer and a start index in it,
    [estimateGrainSize] returns
    [ceil(1500 * maxFreq / sampleRate) * sampleRate / maxFreq], truncated
    to an [int], with [maxFreq = max(1, binIndex * sampleRate / 8192 / 4)],
    where [binIndex] is the bin the two scans of the transform of the
    window at [start] end in: the first, over the bins from
    [20 * 8192 / sampleRate] to 1023, in [coarseBin], the second, over the
    bins from [coarseBin * 4 - coarseBin / 4] to 4095, in [binIndex].  The
    result is a whole number [k >= 1] of periods [sampleRate / maxFreq],
    truncated, and at least 1500. *)
Theorem estimateGrainSize_formula
    (data : list Q) (sampleRate : Z) (fft : list Q -> Z -> Q * Q) (start : Z) :
  (0 < sampleRate)%Z ->
  data <> [] -> (sizeOf data <= 2 ^ 31)%Z -> (0 <= start)%Z ->
  exists (input : list Q) (coarseBin binIndex size : Z),
    Estimator.windowAt data start input /\
    Estimator.scanPeak (fft input) (20 * 8192 ÷ sampleRate) 1024 coarseBin /\
    Estimator.scanPeak (fft input) (coarseBin * 4 - coarseBin ÷ 4) 4096 binIndex /\
    Estimator.estimateGrainSize data sampleRate fft start = Some size /\
    let maxFreq := Qmax 1 (inject_Z binIndex * inject_Z sampleRate / 8192 / 4) in
    size = Qtrunc (inject_Z (Qceiling (1500 * maxFreq / inject_Z sampleRate))
                   * inject_Z sampleRate / maxFreq) /\
    (exists k : Z, (1 <= k)%Z /\
                   size = Qtrunc (inject_Z k * (inject_Z sampleRate / maxFreq))) /\
    (1500 <= size)%Z.
Proof.
  intros Hsr Hne Hsize Hstart.
  pose proof (inject_Z_pos _ Hsr) as Hq.
  destruct (readWindow_in_range data (zrange 0 GrainSpectrSize) start Hne Hsize)
    as [input Hin].
  { intros i Hi. apply in_zrange in Hi. lia. }
  set (coarseBin := Estimator.scanMax (fft input) (zrange (20 * 8192 ÷ sampleRate) 1024) 0
                                      (20 * 8192 ÷ sampleRate)).
  set (binIndex := Estimator.scanMax (fft input)
                     (zrange (coarseBin * 4 - coarseBin ÷ 4) 4096) 0
                     (coarseBin * 4 - coarseBin ÷ 4)).
  assert (Hbin : Estimator.peakBin sampleRate (fft input) = binIndex) by reflexivity.
  exists input, coarseBin, binIndex, (Estimator.grainSizeOf sampleRate binIndex).
  split.
  { unfold Estimator.windowAt. rewrite (readWindow_samples _ _ _ _ Hin).
    assert (0 < sizeOf data)%Z by (unfold sizeOf; destruct data; [congruence | simpl; lia]).
    rewrite to_int_wrap64 by lia. reflexivity. }
  split; [apply scanMax_scanPeak |]. split; [apply scanMax_scanPeak |].
  split; [unfold Estimator.estimateGrainSize; rewrite Hin, Hbin; reflexivity |].
  cbv zeta.
  set (maxFreq := Qmax 1 (inject_Z binIndex * inject_Z sampleRate / 8192 / 4)).
  assert (Em : Estimator.maxFreqOf sampleRate binIndex == maxFreq).
  { unfold Estimator.maxFreqOf, maxFreq.
    apply Q.max_compat; [reflexivity |].
    change (inject_Z GrainSpectrSize) with 8192. field. }
  assert (Hm : 1 <= maxFreq) by apply Q.le_max_l.
  set (k := Qceiling (1500 * maxFreq / inject_Z sampleRate)).
  assert (Ek : Qceiling (1 * inject_Z preferredGrainSize
                         * Estimator.maxFreqOf sampleRate binIndex / inject_Z sampleRate)
               = k).
  { apply Qceiling_comp. rewrite Em. change (inject_Z preferredGrainSize) with 1500.
    field. lra. }
  assert (Es : Estimator.grainSizeOf sampleRate binIndex
               = Qtrunc (inject_Z k * inject_Z sampleRate / maxFreq)).
  { unfold Estimator.grainSizeOf. rewrite Ek. apply Qtrunc_comp. rewrite Em. reflexivity. }
  assert (Hx : 1500 * maxFreq / inject_Z sampleRate <= inject_Z k) by apply Qle_ceiling.
  assert (Hpos : 0 < 1500 * maxFreq / inject_Z sampleRate).
  { apply Qlt_shift_div_l; lra. }
  assert (Hk : (1 <= k)%Z).
  { assert (0 < inject_Z k) as H0 by lra.
    change 0 with (inject_Z 0) in H0. rewrite <- Zlt_Qlt in H0. lia. }
  split; [exact Es |]. split.
  - exists k. split; [exact Hk |]. rewrite Es. apply Qtrunc_comp. field. lra.
  - apply grainSizeOf_bounds, Hsr.
Qed.

(** A spectrum with a peak of 5 at bin 500 and one of [3 + 4] at bin
    2000: the first scan ends in bin 500, the second, from bin 1875 on,
    in bin 2000, and the estimate at 48 kHz is 1507 samples. *)
Lemma estimate_at_peak :
  let fft := fun (_ : list Q) (i : Z) =>
               if (i =? 500)%Z then (5, 0) else if (i =? 2000)%Z then (3, -4) else (0, 0) in
  Estimator.peakBin 48000 (fft []) = 2000%Z /\
  Estimator.estimateGrainSize [1; -1; 1] 48000 fft 1 = Some 1507%Z.
Proof.
  split; vm_compute; reflexivity.
Qed.

Lemma estimateGrainSize_formula_witness :
  let fft := fun (_ : list Q) (i : Z) =>
               if (i =? 500)%Z then (5, 0) else if (i =? 2000)%Z then (3, -4) else (0, 0) in
  exists (input : list Q) (coarseBin binIndex size : Z),
    Estimator.windowAt [1; -1; 1] 1 input /\
    Estimator.scanPeak (fft input) (20 * 8192 ÷ 48000) 1024 coarseBin /\
    Estimator.scanPeak (fft input) (coarseBin * 4 - coarseBin ÷ 4) 4096 binIndex /\
    Estimator.estimateGrainSize [1; -1; 1] 48000 fft 1 = Some size /\
    let maxFreq := Qmax 1 (inject_Z binIndex * inject_Z 48000 / 8192 / 4) in
    size = Qtrunc (inject_Z (Qceiling (1500 * maxFreq / inject_Z 48000))
                   * inject_Z 48000 / maxFreq) /\
    (exists k : Z, (1 <= k)%Z /\
                   size = Qtrunc (inject_Z k * (inject_Z 48000 / maxFreq))) /\
    (1500 <= size)%Z.
Proof.
  intros fft.
  apply (estimateGrainSize_formula [1; -1; 1] 48000 fft 1);
    [lia | discriminate | vm_compute; discriminate | lia].
Defined.

(** ** Segmentation *)

Section SegmenterFacts.

Variable data : list Q.
Variable estimateGrainSize : Z -> option Z.

Local Abbreviation isZeroCrossing := (Segmenter.isZeroCrossing data).
Local Abbreviation crossingAt := (Segmenter.crossingAt data).
Local Abbreviation segment := (Segmenter.segment data estimateGrainSize).
Local Abbreviation chain := Segmenter.chain.
Local Abbreviation tiled := (Segmenter.tiled data).

Lemma isZeroCrossing_true idx : isZeroCrossing idx = Some true <-> crossingAt idx.
Proof.
  unfold Segmenter.isZeroCrossing, Segmenter.crossingAt. split.
  - destruct (readSample data idx) as [a |]; [| discriminate].
    destruct (Qlt_bool a 0) eqn:Ea; [| discriminate].
    destruct (readSample data (idx + 1)) as [b |]; [| discriminate].
    intros [= Eb]. exists a, b. repeat split.
    + apply Qlt_bool_iff, Ea.
    + apply Qle_bool_iff, Eb.
  - intros (a & b & -> & -> & Ha & Hb).
    apply Qlt_bool_iff in Ha. apply Qle_bool_iff in Hb. rewrite Ha, Hb. reflexivity.
Qed.

Lemma firstCrossing_found candidates idx :
  Segmenter.firstCrossing data candidates = Segmenter.Found idx ->
  In idx candidates /\ crossingAt idx.
Proof.
  induction candidates as [| c rest IH]; simpl; [discriminate |].
  destruct (isZeroCrossing c) as [[|] |] eqn:E.
  - intros [= <-]. split; [left; reflexivity | apply isZeroCrossing_true, E].
  - intros H. destruct (IH H). split; [right |]; assumption.
  - discriminate.
Qed.

(** Both searches look strictly to the right of [start]. *)
Lemma nearCandidates_after start grainSize idx :
  In idx (Segmenter.nearCandidates start grainSize) -> (start < idx)%Z.
Proof.
  unfold Segmenter.nearCandidates. rewrite in_map_iff.
  intros (i & <- & Hi). apply in_zrange in Hi. unfold Segmenter.nearIndex.
  destruct (Z.rem i 2 =? 0)%Z.
  - pose proof (Z.quot_pos i 2). lia.
  - rewrite Z.quot_opp_l by lia.
    assert (i ÷ 2 <= i)%Z by (apply Z.quot_le_upper_bound; lia).
    assert (2 * (i ÷ 2) <= i)%Z by (apply Z.mul_quot_le; lia).
    lia.
Qed.

Lemma farCandidates_after start grainSize idx :
  (0 < grainSize)%Z ->
  In idx (Segmenter.farCandidates data start grainSize) -> (start < idx)%Z.
Proof.
  intros Hg Hi. apply in_zrange in Hi.
  pose proof (Z.quot_pos grainSize 2). lia.
Qed.

Lemma chain_keys from grains to :
  chain from grains to ->
  (from <= to)%Z /\ Forall (fun g => (from <= startSample g < to)%Z) grains.
Proof.
  revert from. induction grains as [| g rest IH]; intros from; simpl.
  - intros ->. split; [lia | constructor].
  - intros (Hs & Hn & Hc). destruct (IH _ Hc) as [Hle Hall]. unfold endOf in *.
    split; [lia |]. constructor; [lia |].
    eapply Forall_impl; [exact Hall |]. simpl. intros h Hh. lia.
Qed.

Lemma chain_snoc from grains to g :
  chain from grains to -> startSample g = to -> (0 < spanSize g)%Z ->
  chain from (grains ++ [g]) (endOf g).
Proof.
  revert from. induction grains as [| h rest IH]; intros from; simpl.
  - intros -> Hs Hn. repeat split; assumption.
  - intros (Hs & Hn & Hc) Hg Hp. repeat split; try assumption. apply IH; assumption.
Qed.

Lemma chain_contiguous from grains to :
  chain from grains to -> Segmenter.contiguousFrom from grains.
Proof.
  revert from. induction grains as [| g rest IH]; intros from; simpl; [trivial |].
  intros (Hs & _ & Hc). split; [exact Hs | apply IH, Hc].
Qed.

Lemma insertGrain_last g grains :
  Forall (fun h => (startSample h < startSample g)%Z) grains ->
  insertGrain g grains = grains ++ [g].
Proof.
  induction 1 as [| h rest Hh _ IH]; simpl; [reflexivity |].
  fails (startSample g <? startSample h)%Z.
  fails (startSample g =? startSample h)%Z.
  rewrite IH. reflexivity.
Qed.

Hypothesis estimate_pos :
  forall start grainSize, estimateGrainSize start = Some grainSize -> (0 < grainSize)%Z.

Lemma tiled_insert grains start grainSize idx :
  tiled grains start -> (start < idx)%Z -> crossingAt idx ->
  tiled (insertGrain (mkGrain start (idx - start) (idx - start - grainSize)) grains) idx.
Proof.
  intros [Hc Hz] Hlt Hx.
  set (g := mkGrain start (idx - start) (idx - start - grainSize)).
  assert (He : endOf g = idx) by (unfold endOf, g; simpl; lia).
  rewrite insertGrain_last.
  - split.
    + rewrite <- He.
      apply chain_snoc with (to := start); [exact Hc | reflexivity | simpl; lia].
    + apply Forall_app. split; [exact Hz |]. constructor; [| constructor].
      rewrite He. exact Hx.
  - destruct (chain_keys _ _ _ Hc) as [_ Hk].
    eapply Forall_impl; [exact Hk |]. simpl. intros h Hh. lia.
Qed.

Lemma segment_tiled fuel start grainSize nextEstimation grains :
  (0 < grainSize)%Z -> tiled grains start ->
  exists last,
    tiled (Segmenter.grainsOf (segment fuel start grainSize nextEstimation grains)) last.
Proof.
  revert start grainSize nextEstimation grains.
  induction fuel as [| fuel IH]; intros start grainSize nextEstimation grains Hg Ht; simpl.
  - exists start. exact Ht.
  - destruct (start <? _)%Z; [| exists start; exact Ht].
    assert (F : forall idx, (start < idx)%Z -> crossingAt idx ->
              exists last,
                tiled (Segmenter.grainsOf
                  (let grains0 :=
                     insertGrain (mkGrain start (idx - start) (idx - start - grainSize))
                                 grains in
                   if (nextEstimation <? idx)%Z
                   then match estimateGrainSize idx with
                        | Some grainSize0 =>
                          segment fuel idx grainSize0
                                  (nextEstimation + GrainSpectrSize) grains0
                        | None => Segmenter.OutOfBounds grains0
                        end
                   else segment fuel idx grainSize nextEstimation grains0)) last).
    { intros idx Hlt Hx. simpl.
      pose proof (tiled_insert grains start grainSize idx Ht Hlt Hx) as Ht'.
      destruct (nextEstimation <? idx)%Z.
      - destruct (estimateGrainSize idx) as [g' |] eqn:E.
        + apply IH; [eapply estimate_pos, E | exact Ht'].
        + exists idx. exact Ht'.
      - apply IH; assumption. }
    destruct (Segmenter.firstCrossing data (Segmenter.nearCandidates start grainSize))
      as [idx | |] eqn:N.
    + apply firstCrossing_found in N as [Hin Hx].
      apply F; [eapply nearCandidates_after, Hin | exact Hx].
    + destruct (Segmenter.firstCrossing data (Segmenter.farCandidates data start grainSize))
        as [idx | |] eqn:R.
      * apply firstCrossing_found in R as [Hin Hx].
        apply F; [eapply farCandidates_after; [exact Hg | exact Hin] | exact Hx].
      * exists start. exact Ht.
      * exists start. exact Ht.
    + exists start. exact Ht.
Qed.

Lemma chain_spans from grains to :
  chain from grains to -> Forall (fun g => (0 < spanSize g)%Z) grains.
Proof.
  revert from. induction grains as [| g rest IH]; intros from; simpl; [constructor |].
  intros (_ & Hn & Hc). constructor; [exact Hn | eapply IH, Hc].
Qed.

(** In a chain every grain but the first starts where a grain ends. *)
Lemma chain_starts from g rest to :
  chain from (g :: rest) to ->
  Forall (fun h => crossingAt (endOf h)) (g :: rest) ->
  Forall (fun h => crossingAt (startSample h)) rest.
Proof.
  revert from g. induction rest as [| h rest IH]; intros from g Hc Hz; [constructor |].
  destruct Hc as (_ & _ & Hc). pose proof Hc as (Hs & _ & _).
  inversion Hz as [| ? ? Hg Hz']; subst. constructor.
  - rewrite Hs. exact Hg.
  - eapply IH; [exact Hc | exact Hz'].
Qed.

(** With [int]-sized buffer and grain sizes the loop stops within
    [data.size()] iterations. *)
Lemma segment_fuel fuel start grainSize nextEstimation grains :
  (sizeOf data < 2 ^ 31)%Z ->
  (forall s g, estimateGrainSize s = Some g -> (g < 2 ^ 31)%Z) ->
  (0 < grainSize < 2 ^ 31)%Z ->
  (Z.max 0 (sizeOf data - start) < Z.of_nat fuel)%Z ->
  forall rest, segment fuel start grainSize nextEstimation grains
               <> Segmenter.OutOfFuel rest.
Proof.
  intros Hsize Hest. revert start grainSize nextEstimation grains.
  induction fuel as [| fuel IH]; intros start grainSize nextEstimation grains Hg Hf rest;
    [lia |].
  simpl. rewrite to_int_wrap64 by (unfold sizeOf in *; lia).
  destruct (start <? sizeOf data - grainSize - 1)%Z eqn:C; [| discriminate].
  apply Z.ltb_lt in C.
  assert (F : forall idx, (start < idx)%Z ->
            (let grains0 :=
               insertGrain (mkGrain start (idx - start) (idx - start - grainSize))
                           grains in
             if (nextEstimation <? idx)%Z
             then match estimateGrainSize idx with
                  | Some grainSize0 =>
                    segment fuel idx grainSize0
                            (nextEstimation + GrainSpectrSize) grains0
                  | None => Segmenter.OutOfBounds grains0
                  end
             else segment fuel idx grainSize nextEstimation grains0)
            <> Segmenter.OutOfFuel rest).
  { intros idx Hlt. simpl. destruct (nextEstimation <? idx)%Z.
    - destruct (estimateGrainSize idx) as [g' |] eqn:E; [| discriminate].
      apply IH; [split; [eapply estimate_pos, E | eapply Hest, E] | lia].
    - apply IH; [exact Hg | lia]. }
  destruct (Segmenter.firstCrossing data (Segmenter.nearCandidates start grainSize))
    as [idx | |] eqn:N.
  - apply firstCrossing_found in N as [Hin _].
    apply F. eapply nearCandidates_after, Hin.
  - destruct (Segmenter.firstCrossing data (Segmenter.farCandidates data start grainSize))
      as [idx | |] eqn:R; [| discriminate | discriminate].
    apply firstCrossing_found in R as [Hin _].
    apply F. eapply farCandidates_after; [apply Hg | exact Hin].
  - discriminate.
Qed.

End SegmenterFacts.

(** *** C1: the grains of one segmentation pass *)

(** A pass with positive grain-size estimates, whatever the estimator. *)
Lemma segment_pass_grains
    (data : list Q) (estimateGrainSize : Z -> option Z) (fuel : nat) :
  (forall start g, estimateGrainSize start = Some g -> (0 < g)%Z) ->
  let grains := Segmenter.grainsOf (Segmenter.preproc data estimateGrainSize fuel) in
  Segmenter.contiguousFrom 0 grains /\
  Forall (fun g => (0 < spanSize g)%Z /\ Segmenter.crossingAt data (endOf g)) grains /\
  match grains with
  | [] => True
  | first :: rest =>
    startSample first = 0%Z /\
    Forall (fun g => Segmenter.crossingAt data (startSample g)) rest
  end.
Proof.
  intros Hpos grains.
  assert (T : exists last, Segmenter.tiled data grains last).
  { subst grains. unfold Segmenter.preproc.
    destruct (estimateGrainSize 0%Z) as [g0 |] eqn:E.
    - apply segment_tiled; [exact Hpos | eapply Hpos, E |].
      split; [reflexivity | constructor].
    - exists 0%Z. split; [reflexivity | constructor]. }
  destruct T as (last & Hc & Hz).
  split; [eapply chain_contiguous, Hc |]. split.
  - apply Forall_forall. intros g Hin. split.
    + pose proof (chain_spans _ _ _ Hc) as Hs.
      rewrite Forall_forall in Hs. exact (Hs g Hin).
    + rewrite Forall_forall in Hz. exact (Hz g Hin).
  - destruct grains as [| first rest] eqn:G; [trivial |]. split.
    + destruct Hc as (Hs & _). exact Hs.
    + eapply chain_starts; [exact Hc | exact Hz].
Qed.

Lemma estimateGrainSize_bounds data sampleRate fft start g :
  (0 < sampleRate)%Z ->
  Estimator.estimateGrainSize data sampleRate fft start = Some g ->
  (1500 <= g <= 1500 + sampleRate)%Z.
Proof.
  intros Hsr. unfold Estimator.estimateGrainSize.
  destruct (Estimator.readWindow data (zrange 0 GrainSpectrSize) start); [| discriminate].
  intros [= <-]. apply grainSizeOf_bounds, Hsr.
Qed.

(** Without a peak the scans end in bin 12, and the estimate at 48 kHz is
    2730 samples. *)
Lemma demo_estimate (start : Z) :
  (0 <= start)%Z -> Demo.estimate start = Some 2730%Z.
Proof.
  intros Hstart. unfold Demo.estimate.
  destruct (estimateGrainSize_readable Demo.data 48000 Demo.flat start) as [input ->];
    [vm_compute; discriminate | vm_compute; discriminate | exact Hstart |].
  vm_compute. reflexivity.
Qed.

(** C1, refuted as stated: the worked document is segmented into the one
    grain [0, 2730); it ends at a true zero-crossing but starts at sample
    0, where the sample is 1, not negative.  Whatever the transform
    returns, a first grain of this document starts at sample 0. *)
Lemma first_grain_start_not_crossing :
  Segmenter.preproc Demo.data Demo.estimate 100 = Segmenter.Finished [mkGrain 0 2730 0] /\
  Segmenter.isZeroCrossing Demo.data 2730 = Some true /\
  Segmenter.isZeroCrossing Demo.data 0 = Some false /\
  ~ Segmenter.crossingAt Demo.data 0 /\
  (forall fft fuel first rest,
     Segmenter.grainsOf
       (Segmenter.preproc Demo.data (Estimator.estimateGrainSize Demo.data 48000 fft) fuel)
     = first :: rest ->
     startSample first = 0%Z).
Proof.
  split.
  { unfold Segmenter.preproc. rewrite demo_estimate by lia. vm_compute. reflexivity. }
  split; [vm_compute; reflexivity |].
  split; [vm_compute; reflexivity |].
  split.
  - intros (a & b & Ha & _ & Hneg & _).
    vm_compute in Ha. injection Ha as <-. vm_compute in Hneg. discriminate.
  - intros fft fuel first rest E.
    destruct (segment_pass_grains Demo.data
                (Estimator.estimateGrainSize Demo.data 48000 fft) fuel) as (H & _).
    + intros start g Hg.
      pose proof (estimateGrainSize_bounds Demo.data 48000 fft start g eq_refl Hg). lia.
    + rewrite E in H. destruct H as [H _]. exact H.
Qed.

(** Without a peak the estimate at 48 kHz is 2730 samples on any
    buffer. *)
Lemma flat_estimate (data : list Q) (start : Z) :
  data <> [] -> (sizeOf data <= 2 ^ 31)%Z -> (0 <= start)%Z ->
  Estimator.estimateGrainSize data 48000 Demo.flat start = Some 2730%Z.
Proof.
  intros Hne Hsize Hstart.
  destruct (estimateGrainSize_readable data 48000 Demo.flat start Hne Hsize Hstart)
    as [input ->].
  vm_compute. reflexivity.
Qed.

(** A pass that leaves the buffer: on 4000 samples without a
    zero-crossing the first search, around index 2730, comes to index
    4000, one past the last sample, and reads it. *)
Lemma near_search_reads_past_end :
  In 4000%Z (Segmenter.nearCandidates 0 2730) /\
  readSample (repeat 1 4000) 4000 = None /\
  Segmenter.preproc (repeat 1 4000)
    (Estimator.estimateGrainSize (repeat 1 4000) 48000 Demo.flat) 100
  = Segmenter.OutOfBounds [].
Proof.
  split; [| split].
  - apply in_map_iff. exists 2540%Z. split; [reflexivity | apply in_zrange; lia].
  - vm_compute. reflexivity.
  - unfold Segmenter.preproc.
    rewrite flat_estimate by (first [lia | vm_compute; discriminate]).
    vm_compute. reflexivity.
Qed.

(** C1 (amended): in a segmentation pass that reads no sample outside the
    buffer (positive sample rate, any transform) the grains are contiguous
    from sample 0 (each starts where the previous one ends), every grain
    has a non-empty span that ends at a true zero-crossing, and every
    grain but the first starts at a true zero-crossing; the first grain
    starts at sample 0, whatever the samples there.  In a pass that does
    read outside the buffer this holds of the grains inserted before that
    read; the grains after it are not spoken of.  With [int]-sized buffer
    and sample rate the pass ends within [data.size()] iterations of its
    loop. *)
Theorem preproc_grains
    (data : list Q) (sampleRate : Z) (fft : list Q -> Z -> Q * Q) (fuel : nat) :
  (0 < sampleRate)%Z ->
  let pass :=
    Segmenter.preproc data (Estimator.estimateGrainSize data sampleRate fft) fuel in
  (forall grains, pass = Segmenter.Finished grains -> Segmenter.aligned data grains) /\
  (forall grains, pass = Segmenter.OutOfBounds grains -> Segmenter.aligned data grains) /\
  ((sizeOf data < 2 ^ 31)%Z -> (sampleRate < 2 ^ 30)%Z -> (length data < fuel)%nat ->
   forall rest, pass <> Segmenter.OutOfFuel rest).
Proof.
  intros Hsr pass.
  assert (Hpos : forall start g,
            Estimator.estimateGrainSize data sampleRate fft start = Some g -> (0 < g)%Z).
  { intros start g E. pose proof (estimateGrainSize_bounds _ _ _ _ _ Hsr E). lia. }
  pose proof (segment_pass_grains data _ fuel Hpos) as H. cbv zeta in H. fold pass in H.
  split; [| split].
  - intros grains E. rewrite E in H. exact H.
  - intros grains E. rewrite E in H. exact H.
  - intros Hsize Hrate Hfuel rest. unfold pass, Segmenter.preproc.
    assert (Hest : forall start g,
              Estimator.estimateGrainSize data sampleRate fft start = Some g ->
              (g < 2 ^ 31)%Z).
    { intros start g E. pose proof (estimateGrainSize_bounds _ _ _ _ _ Hsr E). lia. }
    destruct (Estimator.estimateGrainSize data sampleRate fft 0%Z) as [g0 |] eqn:E;
      [| discriminate].
    apply segment_fuel;
      [exact Hpos | exact Hsize | exact Hest
       | split; [eapply Hpos, E | eapply Hest, E] | unfold sizeOf; lia].
Qed.

Lemma preproc_grains_witness :
  let grains := [mkGrain 0 2730 0; mkGrain 2730 2730 0] in
  Segmenter.preproc Demo.twoCrossings
    (Estimator.estimateGrainSize Demo.twoCrossings 48000 Demo.flat) 100
  = Segmenter.Finished grains /\
  Segmenter.aligned Demo.twoCrossings grains.
Proof.
  assert (E : Segmenter.preproc Demo.twoCrossings
                (Estimator.estimateGrainSize Demo.twoCrossings 48000 Demo.flat) 100
              = Segmenter.Finished [mkGrain 0 2730 0; mkGrain 2730 2730 0]).
  { unfold Segmenter.preproc.
    rewrite flat_estimate by (first [lia | vm_compute; discriminate]).
    vm_compute. reflexivity. }
  split; [exact E |].
  exact (proj1 (preproc_grains Demo.twoCrossings 48000 Demo.flat 100 eq_refl) _ E).
Defined.

(** ** The playback callback *)

Section StoppedFacts.

Import Playback.

Lemma zeroFill_accesses dur w out :
  accesses (snd (zeroFill dur w out))
  = accesses out ++ map (fun k => (w + Z.of_nat k)%Z) (seq 0 dur).
Proof.
  revert w out. induction dur as [| dur IH]; intros w out; simpl.
  - rewrite app_nil_r. reflexivity.
  - rewrite IH. simpl. rewrite <- app_assoc. simpl. rewrite Z.add_0_r.
    do 2 f_equal. rewrite <- seq_shift, map_map.
    apply map_ext. intros k. lia.
Qed.

Lemma zeroFill_pointer dur w out :
  fst (zeroFill dur w out) = (w + Z.of_nat dur)%Z.
Proof.
  revert w out. induction dur as [| dur IH]; intros w out; simpl; [lia |].
  rewrite IH. lia.
Qed.

Lemma fadeOut_accesses steps w out :
  accesses (snd (fadeOut steps w out))
  = accesses out ++ map (fun k => (w - Z.of_nat k)%Z) (seq 0 (length steps)).
Proof.
  revert w out. induction steps as [| i rest IH]; intros w out; simpl.
  - rewrite app_nil_r. reflexivity.
  - rewrite IH. simpl. rewrite <- app_assoc. simpl. rewrite Z.sub_0_r.
    do 2 f_equal. rewrite <- seq_shift, map_map.
    apply map_ext. intros k. lia.
Qed.

(** Every offset the Stopped branch dereferences: the zero-fill runs up
    through the buffer, the fade-out runs down from the offset [dur]. *)
Lemma stopped_accesses dur st out :
  (0 <= dur)%Z ->
  accesses (snd (stopped dur st out))
  = accesses out ++ zrange 0 dur ++ map (fun i => (dur - i)%Z) (zrange 0 100).
Proof.
  intros Hdur. unfold stopped.
  remember (zrange 0 100) as steps eqn:Hsteps.
  pose proof (zeroFill_accesses (Z.to_nat dur) 0 out) as A1.
  pose proof (zeroFill_pointer (Z.to_nat dur) 0 out) as P1.
  destruct (zeroFill (Z.to_nat dur) 0 out) as [w out1]. cbn [fst snd] in A1, P1.
  pose proof (fadeOut_accesses steps w out1) as A2.
  destruct (fadeOut steps w out1) as [w2 out2]. cbn [fst snd] in A2 |- *.
  rewrite A2, A1, <- app_assoc. f_equal. f_equal.
  - unfold zrange. rewrite Z.sub_0_r. reflexivity.
  - subst w steps. unfold zrange. rewrite length_map, length_seq, map_map.
    apply map_ext. intros k. lia.
Qed.

Lemma store_zero_silent w out :
  silent (take (Z.to_nat w) (stream out)) -> (0 <= w)%Z ->
  silent (take (Z.to_nat (w + 1)) (stream (store w 0 out)))
  /\ length (stream (store w 0 out)) = length (stream out).
Proof.
  intros Hs Hw. unfold store, inStream. simpl.
  destruct ((0 <=? w)%Z && (w <? Z.of_nat (length (stream out)))%Z) eqn:E.
  - apply andb_true_iff in E as [_ E]. apply Z.ltb_lt in E.
    split; [| apply length_insert].
    replace (Z.to_nat (w + 1)) with (S (Z.to_nat w)) by lia.
    rewrite (take_S_r _ _ 0) by (apply list_lookup_insert_eq; lia).
    rewrite take_insert_ge by lia.
    apply Forall_app. split; [exact Hs | constructor; [reflexivity | constructor]].
  - split; [| reflexivity].
    apply andb_false_iff in E as [E | E]; [apply Z.leb_gt in E; lia |].
    apply Z.ltb_ge in E.
    rewrite take_ge in Hs by lia. rewrite take_ge by lia. exact Hs.
Qed.

Lemma zeroFill_silent dur w out :
  (0 <= w)%Z -> silent (take (Z.to_nat w) (stream out)) ->
  (length (stream out) <= Z.to_nat w + dur)%nat ->
  silent (stream (snd (zeroFill dur w out)))
  /\ length (stream (snd (zeroFill dur w out))) = length (stream out).
Proof.
  revert w out. induction dur as [| dur IH]; intros w out Hw Hs Hlen; simpl.
  - split; [| reflexivity]. rewrite take_ge in Hs by lia. exact Hs.
  - destruct (store_zero_silent w out Hs Hw) as [Hs' Hl'].
    destruct (IH (w + 1)%Z (store w 0 out)) as [H1 H2]; [lia | exact Hs' | lia |].
    split; [exact H1 | lia].
Qed.

Lemma scale_silent w f out :
  silent (stream out) ->
  silent (stream (scale w f out)) /\ length (stream (scale w f out)) = length (stream out).
Proof.
  intros Hs. unfold scale. simpl.
  destruct (stream out !! Z.to_nat w) as [x |] eqn:L; [| split; [exact Hs | reflexivity]].
  destruct (inStream out w); [| split; [exact Hs | reflexivity]].
  split; [| apply length_insert].
  apply Forall_insert; [exact Hs |].
  unfold silent in Hs. rewrite Forall_lookup in Hs. specialize (Hs _ _ L).
  simpl in Hs. rewrite Hs. ring.
Qed.

Lemma fadeOut_silent steps w out :
  silent (stream out) ->
  silent (stream (snd (fadeOut steps w out)))
  /\ length (stream (snd (fadeOut steps w out))) = length (stream out).
Proof.
  revert w out. induction steps as [| i rest IH]; intros w out Hs; simpl.
  - split; [exact Hs | reflexivity].
  - destruct (scale_silent w ((1 # 100) * inject_Z i) out Hs) as [Hs' Hl'].
    destruct (IH (w - 1)%Z _ Hs') as [H1 H2]. split; [exact H1 | lia].
Qed.

(** The Stopped branch leaves a [dur]-sample buffer silent and the
    residual empty. *)
Lemma stopped_silent dur st out :
  (length (stream out) <= Z.to_nat dur)%nat ->
  let '(st', out') := stopped dur st out in
  restWav st' = [] /\ isAudioPlaying st' = isAudioPlaying st /\
  cursorSec st' = cursorSec st /\
  silent (stream out') /\ length (stream out') = length (stream out).
Proof.
  intros Hlen. unfold stopped.
  destruct (zeroFill_silent (Z.to_nat dur) 0 out) as [Z1 Z2];
    [lia | constructor | simpl; lia |].
  destruct (zeroFill (Z.to_nat dur) 0 out) as [w out1]. simpl in Z1, Z2.
  destruct (fadeOut_silent (zrange 0 100) w out1 Z1) as [F1 F2].
  destruct (fadeOut (zrange 0 100) w out1) as [w2 out2]. cbn [fst snd] in F1, F2.
  cbn [restWav isAudioPlaying cursorSec]. repeat split; [exact F1 | lia].
Qed.

End StoppedFacts.

Section PlaybackFacts.

Import Playback.

Variable sampleRate : Z.
Variable markers : list Marker.
Variable data : list Q.
Variable grains : list Grain.
Variable pow2 sinq : Q -> Q.
Variable rand : nat -> Z.

Local Abbreviation renderGrain :=
  (Playback.renderGrain sampleRate markers data grains sinq rand).
Local Abbreviation fill := (Playback.fill sampleRate markers data grains pow2 sinq rand).
Local Abbreviation playback :=
  (Playback.playback sampleRate markers data grains pow2 sinq rand).

(** A query touches the caches only. *)
Lemma query_keeps {A} (m : Memo A) st :
  cursorSec (snd (query m st)) = cursorSec st /\
  isAudioPlaying (snd (query m st)) = isAudioPlaying st /\
  restWav (snd (query m st)) = restWav st.
Proof. unfold query. destruct (m (caches st)). simpl. repeat split. Qed.

Lemma renderAdjacent_length fuel grain rate bias0 next i wav sz wav' sz' :
  renderAdjacent data fuel grain rate bias0 next i wav sz = Ok (wav', sz') ->
  (length wav <= length wav')%nat.
Proof.
  revert i wav sz. induction fuel as [| fuel IH]; intros i wav sz; simpl; [discriminate |].
  destruct (phaseIndex rate bias0 i <? 0)%Z; [discriminate |].
  destruct (spanLen grain <=? phaseIndex rate bias0 i)%Z.
  - intros [= <- _]. lia.
  - destruct (interpolate data grain rate bias0 i next) as [v |]; [| discriminate].
    intros H. apply IH in H. rewrite length_app in H. simpl in H. lia.
Qed.

Lemma renderCrossfade_length fuel grain rate bias0 next overlap i wav wavIdx sz wav' sz' :
  renderCrossfade data sinq fuel grain rate bias0 next overlap i wav wavIdx sz
  = Ok (wav', sz') ->
  (length wav <= length wav')%nat.
Proof.
  revert i wav wavIdx sz.
  induction fuel as [| fuel IH]; intros i wav wavIdx sz; simpl; [discriminate |].
  destruct (phaseIndex rate bias0 i <? 0)%Z; [discriminate |].
  destruct (spanLen grain <=? phaseIndex rate bias0 i)%Z.
  - intros [= <- _]. lia.
  - destruct (interpolate data grain rate bias0 i next) as [v |]; [| discriminate].
    intros H. apply IH in H. rewrite length_insert in H.
    destruct (length wav <=? wavIdx)%nat eqn:E; [| exact H].
    apply Nat.leb_le in E. rewrite length_resize in H. lia.
Qed.

(** Rendering a grain leaves the cursor and the playing flag alone and
    removes nothing from the residual. *)
Lemma renderGrain_keeps fuel g rate tmpCursor st st' sz :
  renderGrain fuel g rate tmpCursor st = Ok (st', sz) ->
  cursorSec st' = cursorSec st /\ isAudioPlaying st' = isAudioPlaying st /\
  (length (restWav st) <= length (restWav st'))%nat.
Proof.
  unfold Playback.renderGrain.
  destruct (countRun _ _ _ _ _ _) as [n | |]; [| discriminate | discriminate].
  match goal with |- context [query ?m st] =>
    pose proof (query_keeps m st) as (K1 & K2 & K3); destruct (query m st) as [smp st1]
  end.
  simpl in K1, K2, K3.
  destruct (match lower_bound grains smp with
            | Some g' => readSample data (startSample g')
            | None => Some 0
            end) as [next |]; [| discriminate].
  cbn [cursorSec isAudioPlaying restWav bias prevGrain randCalls audioPaused caches].
  match goal with |- context [if ?b then _ else _] => destruct b end.
  - destruct (renderAdjacent _ _ _ _ _ _ _ _ _) as [[wav n'] | |] eqn:R;
      [| discriminate | discriminate].
    intros [= <- _]. simpl. apply renderAdjacent_length in R.
    rewrite <- K1, <- K2, <- K3. repeat split; [exact R].
  - destruct (Qtrunc _ <? 0)%Z; [discriminate |].
    destruct (renderCrossfade _ _ _ _ _ _ _ _ _ _ _ _) as [[wav n'] | |] eqn:R;
      [| discriminate | discriminate].
    intros [= <- _]. simpl. apply renderCrossfade_length in R.
    rewrite <- K1, <- K2, <- K3. repeat split; [exact R].
Qed.

(** The [while] loop leaves the cursor alone and removes nothing from the
    residual; leaving by a lookup miss clears the playing flag. *)
Lemma fill_keeps fuel dur sampleOffset tmpCursor st e st' :
  fill fuel dur sampleOffset tmpCursor st = Ok (e, st') ->
  cursorSec st' = cursorSec st /\
  (length (restWav st) <= length (restWav st'))%nat /\
  (e = LookupMiss -> isAudioPlaying st' = false).
Proof.
  revert tmpCursor st.
  induction fuel as [| fuel IH]; intros tmpCursor st; [discriminate |].
  cbn [Playback.fill].
  destruct (Z.of_nat (length (restWav st)) <? dur + preferredGrainSize)%Z.
  2: { intros [= <- <-]. repeat split; [lia | discriminate]. }
  match goal with |- context [query ?m st] =>
    pose proof (query_keeps m st) as (A1 & A2 & A3); destruct (query m st) as [smp st1]
  end.
  cbn [fst snd] in A1, A2, A3.
  match goal with |- context [query ?m st1] =>
    pose proof (query_keeps m st1) as (B1 & B2 & B3); destruct (query m st1) as [pb st2]
  end.
  cbn [fst snd] in B1, B2, B3.
  destruct (lower_bound grains _) as [g |].
  - destruct (Playback.renderGrain _ _ _ _ _ _ _ _ _ _ st2) as [[st3 n] | |] eqn:R;
      [| discriminate | discriminate].
    apply renderGrain_keeps in R as (R1 & R2 & R3).
    intros H. apply IH in H as (H1 & H2 & H3).
    repeat split; [congruence | rewrite <- A3, <- B3; lia | exact H3].
  - intros [= <- <-]. simpl. repeat split; [congruence | rewrite <- A3, <- B3; lia].
Qed.

(** A lookup that misses before any grain is rendered leaves the
    residual as it is. *)
Lemma fill_miss_at_once fuel dur sampleOffset tmpCursor st st' :
  fill fuel dur sampleOffset tmpCursor st = Ok (LookupMiss, st') ->
  lower_bound grains
    (to_int (wrap64 (value (Warp.time2Sample sampleRate markers tmpCursor) (caches st)
                     + sampleOffset))) = None ->
  restWav st' = restWav st.
Proof.
  destruct fuel as [| fuel]; [discriminate |]. cbn [Playback.fill].
  destruct (Z.of_nat (length (restWav st)) <? dur + preferredGrainSize)%Z;
    [| discriminate].
  unfold value.
  match goal with |- context [query ?m st] =>
    pose proof (query_keeps m st) as (A1 & A2 & A3); unfold query at 1
  end.
  unfold query in A3 at 1.
  destruct (Warp.time2Sample sampleRate markers tmpCursor (caches st)) as [smp c1].
  cbn [fst snd] in *.
  match goal with |- context [query ?m ?s] =>
    pose proof (query_keeps m s) as (B1 & B2 & B3); destruct (query m s) as [pb st2]
  end.
  cbn [fst snd] in B3.
  intros H L. rewrite L in H. injection H as <-. simpl. congruence.
Qed.

(** A callback entered with the playing flag cleared takes the Stopped
    branch, whatever the fuel. *)
Lemma playback_stopped fuel dur st out :
  isAudioPlaying st = false ->
  exists st0,
    cursorSec st0 = cursorSec st /\ isAudioPlaying st0 = false /\
    playback fuel dur st out
    = Ok (ExitStopped, fst (stopped dur st0 out), snd (stopped dur st0 out)).
Proof.
  intros Hp. unfold Playback.playback.
  set (st0 := if Qlt_bool (cursorSec st) 0 then _ else _).
  assert (H0 : cursorSec st0 = cursorSec st /\ isAudioPlaying st0 = false).
  { subst st0. destruct (Qlt_bool (cursorSec st) 0); [split; reflexivity |].
    match goal with |- context [query ?m st] =>
      pose proof (query_keeps m st) as (A1 & A2 & A3); destruct (query m st) as [d st1]
    end.
    cbn [fst snd] in A1, A2, A3.
    destruct (Qle_bool d (cursorSec st1)); simpl; split; congruence. }
  destruct H0 as [H1 H2]. exists st0. repeat split; [exact H1 | exact H2 |].
  rewrite H2. simpl. destruct (stopped dur st0 out). reflexivity.
Qed.

End PlaybackFacts.

(** *** C9: a grain lookup miss *)

(** The worked document, played from cursor 0: the first callback renders
    the grain [0, 2730) and delivers 1024 samples, 1706 stay in the
    residual, the first of them not 0; the second callback misses the
    lookup and returns with the output buffer as it found it and the
    residual unchanged; the third, Stopped, writes silence and clears the
    residual.  The 1706 samples reach no output. *)
Lemma residual_discarded_after_lookup_miss :
  match Demo.callback Demo.start Demo.buffer with
  | Playback.Ok (Playback.ExitDelivered, st1, _) =>
    length (Playback.restWav st1) = 1706%nat /\
    ~ hd 0 (Playback.restWav st1) == 0 /\
    match Demo.callback st1 Demo.buffer with
    | Playback.Ok (Playback.ExitLookupMiss, st2, out2) =>
      out2 = Demo.buffer /\
      Playback.restWav st2 = Playback.restWav st1 /\
      Playback.isAudioPlaying st2 = false /\
      match Demo.callback st2 Demo.buffer with
      | Playback.Ok (Playback.ExitStopped, st3, out3) =>
        Playback.restWav st3 = [] /\
        forallb (Qeq_bool 0) (Playback.stream out3) = true
      | _ => False
      end
    | _ => False
    end
  | _ => False
  end.
Proof.
  vm_compute. repeat split. discriminate.
Qed.

(** C9, at the failing input and at every other: a callback whose grain
    lookup finds no grain returns at once.  It leaves the output buffer
    as it found it, so nothing of the residual is delivered and no
    silence is written; it clears [isAudioPlaying], keeps the cursor and
    removes no sample from the residual, which is untouched when the
    lookup misses before a grain is rendered.  The next callback,
    whatever its fuel, takes the Stopped branch, leaves its [dur]-sample
    output buffer silent and the residual empty: the samples that were
    queued reach no output. *)
Theorem lookup_miss_stops
    (sampleRate : Z) (markers : list Marker) (data : list Q) (grains : list Grain)
    (pow2 sinq : Q -> Q) (rand : nat -> Z)
    (fuel : nat) (dur : Z) (st st' : Playback.State) (out out' : Playback.Output) :
  Playback.playback sampleRate markers data grains pow2 sinq rand fuel dur st out
  = Playback.Ok (Playback.ExitLookupMiss, st', out') ->
  out' = out /\
  Playback.isAudioPlaying st' = false /\
  Playback.cursorSec st' = Playback.cursorSec st /\
  (length (Playback.restWav st) <= length (Playback.restWav st'))%nat /\
  (lower_bound grains
     (to_int (wrap64
        (value (Warp.time2Sample sampleRate markers (Playback.cursorSec st))
               (after (Warp.duration sampleRate markers (sizeOf data)) (Playback.caches st))
         + Z.of_nat (length (Playback.restWav st))))) = None ->
   Playback.restWav st' = Playback.restWav st) /\
  forall (fuel2 : nat) (dur2 : Z) (out2 : Playback.Output),
    length (Playback.stream out2) = Z.to_nat dur2 ->
    exists st'' out'',
      Playback.playback sampleRate markers data grains pow2 sinq rand fuel2 dur2 st' out2
      = Playback.Ok (Playback.ExitStopped, st'', out'') /\
      Playback.isAudioPlaying st'' = false /\
      Playback.restWav st'' = [] /\
      Playback.silent (Playback.stream out'') /\
      length (Playback.stream out'') = Z.to_nat dur2.
Proof.
  intros H.
  assert (M : out' = out /\
              Playback.isAudioPlaying st' = false /\
              Playback.cursorSec st' = Playback.cursorSec st /\
              (length (Playback.restWav st) <= length (Playback.restWav st'))%nat /\
              (lower_bound grains
                 (to_int (wrap64
                    (value (Warp.time2Sample sampleRate markers (Playback.cursorSec st))
                           (after (Warp.duration sampleRate markers (sizeOf data))
                                  (Playback.caches st))
                     + Z.of_nat (length (Playback.restWav st))))) = None ->
               Playback.restWav st' = Playback.restWav st)).
  { unfold Playback.playback in H.
    set (st0 := if Qlt_bool (Playback.cursorSec st) 0 then _ else _) in H.
    assert (H0 : Playback.cursorSec st0 = Playback.cursorSec st /\
                 Playback.restWav st0 = Playback.restWav st /\
                 (Playback.isAudioPlaying st0 = true ->
                  Playback.caches st0
                  = after (Warp.duration sampleRate markers (sizeOf data))
                          (Playback.caches st))).
    { subst st0. destruct (Qlt_bool (Playback.cursorSec st) 0);
        [repeat split; discriminate |].
      unfold Playback.query, after.
      destruct (Warp.duration sampleRate markers (sizeOf data) (Playback.caches st))
        as [d c0].
      cbn [Playback.cursorSec snd].
      destruct (Qle_bool d (Playback.cursorSec st)); repeat split; discriminate. }
    destruct H0 as (C0 & R0 & K0). clearbody st0.
    destruct (Playback.isAudioPlaying st0) eqn:Pl; cbn [negb] in H.
    2: { destruct (Playback.stopped dur st0 out). discriminate. }
    specialize (K0 eq_refl).
    destruct (Playback.fill _ _ _ _ _ _ _ _ _ _ _ st0) as [[[|] st1] | |] eqn:F;
      try discriminate.
    + destruct (Playback.restWav st1); discriminate.
    + injection H as <- <-.
      pose proof (fill_keeps _ _ _ _ _ _ _ _ _ _ _ _ _ _ F) as (F1 & F2 & F3).
      split; [reflexivity |].
      split; [apply F3; reflexivity |]. split; [congruence |].
      split; [rewrite <- R0; exact F2 |].
      intros L. rewrite <- R0.
      eapply fill_miss_at_once; [exact F |].
      rewrite K0, C0, R0. exact L. }
  destruct M as (M0 & M1 & M2 & M3 & M4).
  split; [exact M0 |]. split; [exact M1 |]. split; [exact M2 |].
  split; [exact M3 |]. split; [exact M4 |].
  intros fuel2 dur2 out2 Hlen.
  destruct (playback_stopped sampleRate markers data grains pow2 sinq rand
              fuel2 dur2 st' out2 M1) as (st0 & C0 & P0 & E).
  pose proof (stopped_silent dur2 st0 out2) as S.
  destruct (Playback.stopped dur2 st0 out2) as [st'' out''].
  destruct S as (S1 & S2 & S3 & S4 & S5); [lia |].
  exists st'', out''. repeat split; [exact E | congruence | exact S1 | exact S4 | lia].
Qed.

Lemma lookup_miss_stops_witness :
  let st := Playback.mkState (100 # 48000) true [1 # 2; 1 # 4] 0 None 0 false
                             invalidateCache in
  let out := Playback.mkOutput [9; 9; 9; 9] [] in
  match Playback.playback 48000 [] (repeat 1 200) [mkGrain 0 4 0]
                          (fun _ => 1) (fun x => x) (fun _ => 0%Z) 10 4 st out with
  | Playback.Ok (Playback.ExitLookupMiss, st', out') =>
    out' = out /\
    Playback.isAudioPlaying st' = false /\
    Playback.cursorSec st' = Playback.cursorSec st /\
    Playback.restWav st' = [1 # 2; 1 # 4]
  | _ => False
  end.
Proof.
  intros st out.
  destruct (Playback.playback 48000 [] (repeat 1 200) [mkGrain 0 4 0]
              (fun _ => 1) (fun x => x) (fun _ => 0%Z) 10 4 st out)
    as [[[[| |] st'] out'] | |] eqn:E; try (vm_compute in E; discriminate).
  destruct (lookup_miss_stops _ _ _ _ _ _ _ _ _ _ _ _ _ E) as (H0 & H1 & H2 & _ & H4 & _).
  split; [exact H0 |]. split; [exact H1 |]. split; [exact H2 |].
  apply H4. vm_compute. reflexivity.
Defined.

(** *** C10: the accesses of the Stopped branch *)

(** C10, at the failing input: a Stopped callback for [dur] samples
    dereferences [w] at the offsets [0 .. dur - 1] (zero-fill) and then at
    [dur, dur - 1, ..., dur - 99] (fade-out).  The first access of the
    fade-out is at offset [dur], one past the end of the buffer; for the
    1024-sample request of the device the offset 1024 is read and
    written. *)
Theorem stopped_accesses_past_end
    (sampleRate : Z) (markers : list Marker) (data : list Q) (grains : list Grain)
    (pow2 sinq : Q -> Q) (rand : nat -> Z)
    (fuel : nat) (dur : Z) (st : Playback.State) (buffer : list Q) :
  Playback.isAudioPlaying st = false ->
  (0 <= dur)%Z ->
  exists st' out',
    Playback.playback sampleRate markers data grains pow2 sinq rand fuel dur st
                      (Playback.mkOutput buffer [])
    = Playback.Ok (Playback.ExitStopped, st', out') /\
    Playback.accesses out'
    = zrange 0 dur ++ map (fun i => (dur - i)%Z) (zrange 0 100) /\
    In dur (Playback.accesses out') /\
    ~ Forall (fun w => (0 <= w < dur)%Z) (Playback.accesses out').
Proof.
  intros Hp Hdur.
  destruct (playback_stopped sampleRate markers data grains pow2 sinq rand
              fuel dur st (Playback.mkOutput buffer []) Hp) as (st0 & _ & _ & E).
  pose proof (stopped_accesses dur st0 (Playback.mkOutput buffer []) Hdur) as A.
  destruct (Playback.stopped dur st0 (Playback.mkOutput buffer [])) as [st' out'].
  cbn [fst snd Playback.accesses] in A, E. rewrite app_nil_l in A.
  assert (Hin : In dur (Playback.accesses out')).
  { rewrite A. apply in_or_app. right. apply in_map_iff.
    exists 0%Z. split; [lia | apply in_zrange; lia]. }
  exists st', out'. repeat split; [exact E | exact A | exact Hin |].
  intros Hall. rewrite Forall_forall in Hall.
  assert (Hd : (0 <= dur < dur)%Z) by (apply Hall, list_elem_of_In, Hin). lia.
Qed.

Lemma stopped_accesses_past_end_witness :
  exists st' out',
    Playback.playback 48000 [] (repeat 1 200) [mkGrain 0 4 0]
                      (fun _ => 1) (fun x => x) (fun _ => 0%Z) 10 1024
                      (Playback.mkState 0 false [1 # 2] 0 None 0 false invalidateCache)
                      (Playback.mkOutput (repeat 9 1024) [])
    = Playback.Ok (Playback.ExitStopped, st', out') /\
    Playback.accesses out'
    = zrange 0 1024 ++ map (fun i => (1024 - i)%Z) (zrange 0 100) /\
    In 1024%Z (Playback.accesses out') /\
    ~ Forall (fun w => (0 <= w < 1024)%Z) (Playback.accesses out').
Proof.
  apply (stopped_accesses_past_end 48000 [] (repeat 1 200) [mkGrain 0 4 0]
           (fun _ => 1) (fun x => x) (fun _ => 0%Z) 10 1024
           (Playback.mkState 0 false [1 # 2] 0 None 0 false invalidateCache)
           (repeat 9 1024)); [reflexivity | lia].
Defined.

(** * Further properties of the code

    Properties read off the code beyond the claims of the specification:
    of the warp map with markers, of the grains and their lookup, of the
    two branches of the playback callback, of the waveform pyramid, of
    the mouse handlers that edit the markers, and of the file names. *)

(** ** The warp map with markers *)

Section ShapeFacts.

Variable sampleRate : Z.

Local Abbreviation rightTimeOf := (Warp.rightTimeOf sampleRate).
Local Abbreviation sample2Time_loop := (Warp.sample2Time_loop sampleRate).
Local Abbreviation time2Sample_loop := (Warp.time2Sample_loop sampleRate).
Local Abbreviation time2PitchBend_loop := (Warp.time2PitchBend_loop sampleRate).
Local Abbreviation forward := (Shape.forward sampleRate).

(** Past every marker the walk has added up all the [dTime]s. *)
Lemma sample2Time_loop_past ms val prevSample prevTime :
  Forall (fun marker => (sample marker < val)%Z) ms ->
  sample2Time_loop ms val prevSample prevTime
  == prevTime + inject_Z (val - prevSample) / inject_Z sampleRate + Shape.sumDTime ms.
Proof.
  revert prevSample prevTime.
  induction ms as [| marker rest IH]; intros prevSample prevTime Hall; simpl.
  - unfold Qdiv. ring.
  - inversion Hall as [| ? ? Hm Hrest]; subst.
    fails (val <=? sample marker)%Z. rewrite andb_false_r.
    rewrite (IH _ _ Hrest). unfold Warp.rightTimeOf.
    rewrite !inject_Z_sub. unfold Qdiv. ring.
Qed.

Lemma ascending_last ms marker prevSample :
  Shape.ascending (ms ++ [marker]) prevSample = true -> (prevSample < sample marker)%Z.
Proof.
  revert prevSample. induction ms as [| m rest IH]; intros prevSample H; simpl in H;
    apply andb_true_iff in H as [H1 H2]; apply Z.ltb_lt in H1; [exact H1 |].
  specialize (IH _ H2). lia.
Qed.


(** The interpolation of a segment, at its right end. *)
Lemma interp_right_end (prevTime rightTime len : Q) :
  ~ len == 0 -> prevTime + len * (rightTime - prevTime) / len == rightTime.
Proof. intros H. field. exact H. Qed.

(** At a marker's sample the walk has added up the [dTime]s up to and
    including that marker's. *)
Lemma sample2Time_loop_at before marker rest prevSample prevTime :
  Shape.ascending (before ++ [marker]) prevSample = true ->
  sample2Time_loop (before ++ marker :: rest) (sample marker) prevSample prevTime
  == prevTime + inject_Z (sample marker - prevSample) / inject_Z sampleRate
     + Shape.sumDTime before + dTime marker.
Proof.
  revert prevSample prevTime.
  induction before as [| b before IH]; intros prevSample prevTime Hasc; simpl.
  - simpl in Hasc. apply andb_true_iff in Hasc as [H _]. apply Z.ltb_lt in H.
    holds (prevSample <? sample marker)%Z. rewrite Z.leb_refl. simpl.
    rewrite interp_right_end.
    + unfold Warp.rightTimeOf, Qdiv. ring.
    + assert (0 < inject_Z (sample marker - prevSample)) by (apply inject_Z_pos; lia). lra.
  - simpl in Hasc. apply andb_true_iff in Hasc as [H Hasc]. apply Z.ltb_lt in H.
    pose proof (ascending_last _ _ _ Hasc) as Hlt.
    fails (sample marker <=? sample b)%Z. rewrite andb_false_r.
    rewrite (IH _ _ Hasc). unfold Warp.rightTimeOf.
    rewrite !inject_Z_sub. unfold Qdiv. ring.
Qed.

Hypothesis sampleRate_pos : (0 < sampleRate)%Z.

Let sr_pos : 0 < inject_Z sampleRate := inject_Z_pos _ sampleRate_pos.

Lemma Qdiv_pos (a c : Q) : 0 < c -> 0 < a -> 0 < a / c.
Proof. intros Hc Ha. apply Qlt_shift_div_l; [exact Hc | lra]. Qed.

Lemma forward_cons marker rest prevSample prevTime :
  forward (marker :: rest) prevSample = true ->
  (prevSample < sample marker)%Z /\ prevTime < rightTimeOf prevSample prevTime marker /\
  forward rest (sample marker) = true.
Proof.
  simpl. intros H. apply andb_true_iff in H as [H H3]. apply andb_true_iff in H as [H1 H2].
  apply Z.ltb_lt in H1. apply Qlt_bool_iff in H2.
  split; [exact H1 |]. split; [| exact H3]. unfold Warp.rightTimeOf. lra.
Qed.

(** With forward segments the walk ends strictly above the time it
    started from. *)
Lemma sample2Time_loop_gt ms val prevSample prevTime :
  forward ms prevSample = true -> (prevSample < val)%Z ->
  prevTime < sample2Time_loop ms val prevSample prevTime.
Proof.
  revert prevSample prevTime.
  induction ms as [| marker rest IH]; intros prevSample prevTime Hfw Hlt.
  - simpl.
    assert (0 < 1 * inject_Z (val - prevSample) / inject_Z sampleRate).
    { apply Qdiv_pos; [exact sr_pos |].
      assert (0 < inject_Z (val - prevSample)) by (apply inject_Z_pos; lia). lra. }
    lra.
  - destruct (forward_cons _ _ _ prevTime Hfw) as (Hs & Ht & Hrest). simpl.
    holds (prevSample <? val)%Z. simpl.
    destruct (val <=? sample marker)%Z eqn:E.
    + apply Z.leb_le in E.
      assert (0 < inject_Z (val - prevSample)
                  * (rightTimeOf prevSample prevTime marker - prevTime)
                  / inject_Z (sample marker - prevSample)).
      { apply Qdiv_pos; [apply inject_Z_pos; lia |].
        assert (0 < inject_Z (val - prevSample)) by (apply inject_Z_pos; lia). nra. }
      lra.
    + apply Z.leb_gt in E.
      apply Qlt_trans with (rightTimeOf prevSample prevTime marker); [exact Ht |].
      apply IH; [exact Hrest | lia].
Qed.

(** The time-to-sample walk undoes the sample-to-time walk. *)
Lemma time2Sample_loop_inverse ms val prevSample prevTime :
  forward ms prevSample = true -> (prevSample < val)%Z ->
  time2Sample_loop ms (sample2Time_loop ms val prevSample prevTime) prevSample prevTime
  == inject_Z val.
Proof.
  revert prevSample prevTime.
  induction ms as [| marker rest IH]; intros prevSample prevTime Hfw Hlt.
  - simpl. rewrite inject_Z_sub. field. lra.
  - destruct (forward_cons _ _ _ prevTime Hfw) as (Hs & Ht & Hrest).
    cbn [Warp.sample2Time_loop Warp.time2Sample_loop] in *.
    set (rightTime := rightTimeOf prevSample prevTime marker) in *.
    holds (prevSample <? val)%Z. cbn [andb] in *.
    destruct (val <=? sample marker)%Z eqn:E.
    + apply Z.leb_le in E.
      set (t := prevTime + inject_Z (val - prevSample) * (rightTime - prevTime)
                           / inject_Z (sample marker - prevSample)) in *.
      assert (Hlen : 0 < inject_Z (sample marker - prevSample)) by (apply inject_Z_pos; lia).
      assert (Hle : t <= rightTime).
      { assert (inject_Z (val - prevSample) * (rightTime - prevTime)
                  / inject_Z (sample marker - prevSample) <= rightTime - prevTime).
        { apply interp_le_right; [exact Hlen | apply inject_Z_le; lia | lra]. }
        unfold t. lra. }
      assert (Hgt : prevTime < t).
      { assert (0 < inject_Z (val - prevSample) * (rightTime - prevTime)
                    / inject_Z (sample marker - prevSample)).
        { apply Qdiv_pos; [exact Hlen |].
          assert (0 < inject_Z (val - prevSample)) by (apply inject_Z_pos; lia). nra. }
        unfold t. lra. }
      holds (Qlt_bool prevTime t). holds (Qle_bool t rightTime). cbn [andb].
      unfold t. rewrite !inject_Z_sub in *. field. split; lra.
    + apply Z.leb_gt in E.
      pose proof (sample2Time_loop_gt rest val (sample marker) rightTime Hrest
                    ltac:(lia)) as Hgt'.
      fails (Qle_bool (sample2Time_loop rest val (sample marker) rightTime) rightTime).
      rewrite andb_false_r. apply IH; [exact Hrest | lia].
Qed.



(** Past every marker, at the time of a sample [val], the pitch-bend
    walk brackets nothing and ends below that time. *)
Lemma time2PitchBend_loop_past ms val prevSample prevTime prevPitchBend :
  forward ms prevSample = true -> (prevSample < val)%Z ->
  Forall (fun marker => (sample marker < val)%Z) ms ->
  exists t p : Q,
    (time2PitchBend_loop ms (sample2Time_loop ms val prevSample prevTime)
                         prevSample prevTime prevPitchBend = inr (t, p)) /\
    t < sample2Time_loop ms val prevSample prevTime.
Proof.
  revert prevSample prevTime prevPitchBend.
  induction ms as [| marker rest IH]; intros prevSample prevTime prevPitchBend Hfw Hlt Hall.
  - exists prevTime, prevPitchBend. split; [reflexivity |].
    apply (sample2Time_loop_gt [] val prevSample prevTime Hfw Hlt).
  - destruct (forward_cons _ _ _ prevTime Hfw) as (Hs & Ht & Hrest).
    inversion Hall as [| ? ? Hm Hall']; subst. simpl.
    fails (val <=? sample marker)%Z. rewrite andb_false_r.
    pose proof (sample2Time_loop_gt rest val (sample marker)
                  (rightTimeOf prevSample prevTime marker) Hrest Hm) as Hgt.
    fails (Qle_bool (sample2Time_loop rest val (sample marker)
                                      (rightTimeOf prevSample prevTime marker))
                    (rightTimeOf prevSample prevTime marker)).
    rewrite andb_false_r. apply IH; assumption.
Qed.

End ShapeFacts.

(** X1: [duration()] is [(data.size() - 1) / sampleRate] plus the sum of the
    [dTime] of all the markers, when every marker lies before the last
    sample: the order of the markers, their notes and their pitch bends
    do not matter.  For every query history since the last invalidation. *)
Theorem duration_sum_dTime sampleRate markers dataSize qs :
  (1 < dataSize <= 2 ^ 31)%Z ->
  Forall (fun marker => (sample marker < dataSize - 1)%Z) markers ->
  value (Warp.duration sampleRate markers dataSize)
        (Warp.history sampleRate markers dataSize qs invalidateCache)
  == inject_Z (dataSize - 1) / inject_Z sampleRate + Shape.sumDTime markers.
Proof.
  intros Hsize Hall.
  rewrite duration_value by apply coherent_history.
  unfold Warp.duration_uncached, Warp.sample2Time_uncached.
  rewrite to_int_wrap64 by lia.
  fails (dataSize - 1 <=? 0)%Z.
  rewrite sample2Time_loop_past by exact Hall.
  rewrite Z.sub_0_r. ring.
Qed.

Lemma duration_sum_dTime_witness :
  value (Warp.duration 48000 [mkMarker 24000 60 (1 # 2) 0; mkMarker 12000 62 (1 # 4) 1] 48001)
        (Warp.history 48000 [mkMarker 24000 60 (1 # 2) 0; mkMarker 12000 62 (1 # 4) 1] 48001
                      [] invalidateCache)
  == inject_Z (48001 - 1) / inject_Z 48000
     + Shape.sumDTime [mkMarker 24000 60 (1 # 2) 0; mkMarker 12000 62 (1 # 4) 1].
Proof.
  apply (duration_sum_dTime 48000 [mkMarker 24000 60 (1 # 2) 0; mkMarker 12000 62 (1 # 4) 1]
           48001 []); [lia |].
  repeat constructor.
Defined.

(** X2: with markers at strictly ascending positive samples,
    [sample2Time] at a marker's sample is [sample / sampleRate] plus the
    [dTime] of the markers up to and including it, whatever markers
    follow. *)
Theorem sample2Time_at_marker sampleRate before marker rest dataSize qs :
  Shape.ascending (before ++ [marker]) 0 = true ->
  value (Warp.sample2Time sampleRate (before ++ marker :: rest) (sample marker))
        (Warp.history sampleRate (before ++ marker :: rest) dataSize qs invalidateCache)
  == inject_Z (sample marker) / inject_Z sampleRate
     + Shape.sumDTime before + dTime marker.
Proof.
  intros Hasc.
  rewrite sample2Time_value with (dataSize := dataSize) by apply coherent_history.
  unfold Warp.sample2Time_uncached.
  pose proof (ascending_last _ _ _ Hasc) as Hpos.
  fails (sample marker <=? 0)%Z.
  rewrite sample2Time_loop_at by exact Hasc.
  rewrite Z.sub_0_r. ring.
Qed.

Lemma sample2Time_at_marker_witness :
  value (Warp.sample2Time 48000 ([mkMarker 12000 62 (1 # 4) 1] ++ mkMarker 24000 60 (1 # 2) 0 :: [])
                          (sample (mkMarker 24000 60 (1 # 2) 0)))
        (Warp.history 48000 ([mkMarker 12000 62 (1 # 4) 1] ++ mkMarker 24000 60 (1 # 2) 0 :: [])
                      48001 [] invalidateCache)
  == inject_Z (sample (mkMarker 24000 60 (1 # 2) 0)) / inject_Z 48000
     + Shape.sumDTime [mkMarker 12000 62 (1 # 4) 1] + dTime (mkMarker 24000 60 (1 # 2) 0).
Proof.
  apply (sample2Time_at_marker 48000 [mkMarker 12000 62 (1 # 4) 1]
           (mkMarker 24000 60 (1 # 2) 0) [] 48001 []).
  reflexivity.
Defined.




(** X7: when every marker segment runs forwards and all markers lie
    before the last sample, [time2PitchBend(duration())] is 0: the decay
    after the last marker ends at 0 exactly at the end of the audio. *)
Theorem time2PitchBend_at_duration sampleRate markers dataSize :
  (0 < sampleRate)%Z -> (1 < dataSize <= 2 ^ 31)%Z ->
  Shape.forward sampleRate markers 0 = true ->
  Forall (fun marker => (sample marker < dataSize - 1)%Z) markers ->
  value (let* d := Warp.duration sampleRate markers dataSize in
         Warp.time2PitchBend sampleRate markers dataSize d) invalidateCache
  == 0.
Proof.
  intros Hsr Hsize Hfw Hall.
  rewrite value_bind. unfold value, after, Warp.duration.
  rewrite to_int_wrap64 by lia.
  unfold Warp.sample2Time at 1 2.
  fails (dataSize - 1 <=? 0)%Z.
  cbn [invalidateCache sample2TimeCache]. rewrite lookup_empty. cbn [fst snd].
  destruct (time2PitchBend_loop_past sampleRate Hsr markers (dataSize - 1) 0 0 0 Hfw
              ltac:(lia) Hall) as (t & p & Ew & Hlt).
  pose proof (sample2Time_loop_gt sampleRate Hsr markers (dataSize - 1) 0 0 Hfw
                ltac:(lia)) as Hgt.
  set (d := Warp.sample2Time_loop sampleRate markers (dataSize - 1) 0 0) in *.
  unfold Warp.time2PitchBend.
  fails (Qle_bool d 0).
  cbn [time2PitchBendCache invalidateCache]. rewrite lookup_empty. rewrite Ew.
  assert (Hit : forall c, sample2TimeCache c !! (dataSize - 1)%Z = Some d ->
                          Warp.duration sampleRate markers dataSize c = (d, c)).
  { intros c L. unfold Warp.duration, Warp.sample2Time.
    rewrite to_int_wrap64 by lia.
    fails (dataSize - 1 <=? 0)%Z. rewrite L. reflexivity. }
  unfold bind. rewrite Hit by apply lookup_insert_eq.
  fails (Qlt_bool d d).
  rewrite Hit by apply lookup_insert_eq.
  cbn [Warp.storePitchBend fst]. field. lra.
Qed.

Lemma time2PitchBend_at_duration_witness :
  value (let* d := Warp.duration 48000 [mkMarker 24000 60 (1 # 2) 3] 48001 in
         Warp.time2PitchBend 48000 [mkMarker 24000 60 (1 # 2) 3] 48001 d) invalidateCache
  == 0.
Proof.
  apply (time2PitchBend_at_duration 48000 [mkMarker 24000 60 (1 # 2) 3] 48001);
    [lia | lia | reflexivity | repeat constructor].
Defined.

(** ** Monotonicity of the time-to-sample map *)

Lemma Qtrunc_le (x y : Q) : x <= y -> (Qtrunc x <= Qtrunc y)%Z.
Proof.
  intros H. unfold Qtrunc.
  destruct (Qle_bool 0 x) eqn:Ex; destruct (Qle_bool 0 y) eqn:Ey.
  - apply Qfloor_resp_le, H.
  - apply Qle_bool_iff in Ex. apply Qle_bool_false in Ey. lra.
  - apply Qle_bool_false in Ex. apply Qle_bool_iff in Ey.
    apply Z.le_trans with 0%Z.
    + rewrite <- (Qceiling_Z 0). apply Qceiling_resp_le. change (inject_Z 0) with 0. lra.
    + rewrite <- (Qfloor_Z 0). apply Qfloor_resp_le. exact Ey.
  - apply Qceiling_resp_le, H.
Qed.

Section MonotoneFacts.

Variable sampleRate : Z.
Hypothesis sampleRate_pos : (0 < sampleRate)%Z.

Let sr_pos : 0 < inject_Z sampleRate := inject_Z_pos _ sampleRate_pos.

Local Abbreviation rightTimeOf := (Warp.rightTimeOf sampleRate).
Local Abbreviation time2Sample_loop := (Warp.time2Sample_loop sampleRate).
Local Abbreviation timeKey := (Warp.timeKey sampleRate).

Lemma walk_cons marker rest prevSample prevTime :
  Shape.nondecreasing (marker :: rest) prevSample = true ->
  Warp.no_reversal sampleRate (marker :: rest) prevSample = true ->
  inject_Z prevSample <= inject_Z (sample marker) /\
  prevTime <= rightTimeOf prevSample prevTime marker /\
  Shape.nondecreasing rest (sample marker) = true /\
  Warp.no_reversal sampleRate rest (sample marker) = true.
Proof.
  simpl. intros H1 H2.
  apply andb_true_iff in H1 as [H1 H1']. apply andb_true_iff in H2 as [H2 H2'].
  apply Z.leb_le in H1. apply Qle_bool_iff in H2.
  split; [apply inject_Z_le, H1 |]. split; [unfold Warp.rightTimeOf; lra |].
  split; assumption.
Qed.

Lemma time2Sample_loop_ge ms val prevSample prevTime :
  Shape.nondecreasing ms prevSample = true ->
  Warp.no_reversal sampleRate ms prevSample = true ->
  prevTime < val ->
  inject_Z prevSample <= time2Sample_loop ms val prevSample prevTime.
Proof.
  revert prevSample prevTime.
  induction ms as [| marker rest IH]; intros prevSample prevTime Hs Hr Hlt.
  - simpl. nra.
  - destruct (walk_cons _ _ _ prevTime Hs Hr) as (H1 & H2 & Hs' & Hr'). simpl.
    holds (Qlt_bool prevTime val). simpl.
    destruct (Qle_bool val (rightTimeOf prevSample prevTime marker)) eqn:E.
    + apply Qle_bool_iff in E.
      assert (0 <= (val - prevTime) * inject_Z (sample marker - prevSample)
                   / (rightTimeOf prevSample prevTime marker - prevTime)).
      { apply Qdiv_nonneg; [lra |]. rewrite inject_Z_sub. nra. }
      lra.
    + apply Qle_bool_false in E.
      apply Qle_trans with (inject_Z (sample marker)); [exact H1 |].
      apply IH; assumption.
Qed.

Lemma time2Sample_loop_mono ms v1 v2 prevSample prevTime :
  Shape.nondecreasing ms prevSample = true ->
  Warp.no_reversal sampleRate ms prevSample = true ->
  prevTime < v1 -> v1 <= v2 ->
  time2Sample_loop ms v1 prevSample prevTime <= time2Sample_loop ms v2 prevSample prevTime.
Proof.
  revert prevSample prevTime.
  induction ms as [| marker rest IH]; intros prevSample prevTime Hs Hr Hlt Hle.
  - simpl. nra.
  - destruct (walk_cons _ _ _ prevTime Hs Hr) as (H1 & H2 & Hs' & Hr'). simpl.
    set (rightTime := rightTimeOf prevSample prevTime marker) in *.
    holds (Qlt_bool prevTime v1). holds (Qlt_bool prevTime v2). simpl.
    destruct (Qle_bool v2 rightTime) eqn:E2.
    + apply Qle_bool_iff in E2. holds (Qle_bool v1 rightTime).
      assert ((v1 - prevTime) * inject_Z (sample marker - prevSample)
                / (rightTime - prevTime)
              <= (v2 - prevTime) * inject_Z (sample marker - prevSample)
                / (rightTime - prevTime)).
      { apply Qdiv_le_mono; [lra |]. rewrite inject_Z_sub. nra. }
      lra.
    + apply Qle_bool_false in E2.
      destruct (Qle_bool v1 rightTime) eqn:E1.
      * apply Qle_bool_iff in E1.
        apply Qle_trans with (inject_Z (sample marker)).
        -- assert ((v1 - prevTime) * inject_Z (sample marker - prevSample)
                     / (rightTime - prevTime)
                   <= inject_Z (sample marker - prevSample)).
           { apply interp_le_right; [lra | lra |]. rewrite inject_Z_sub. lra. }
           rewrite inject_Z_sub in H |- *. lra.
        -- apply time2Sample_loop_ge; assumption.
      * apply Qle_bool_false in E1. apply IH; assumption.
Qed.

Variable markers : list Marker.
Variable dataSize : Z.

Hypothesis markers_sorted : Shape.nondecreasing markers 0 = true.
Hypothesis markers_forward : Warp.no_reversal sampleRate markers 0 = true.

Local Abbreviation time2Sample := (Warp.time2Sample sampleRate markers).
Local Abbreviation time2Sample_uncached := (Warp.time2Sample_uncached sampleRate markers).
Local Abbreviation coherent := (Warp.coherent sampleRate markers dataSize).

Lemma timeKey_mono v1 v2 : v1 <= v2 -> (timeKey v1 <= timeKey v2)%Z.
Proof. intros H. apply Qtrunc_le. nra. Qed.

Lemma time2Sample_uncached_mono v1 v2 :
  v1 <= v2 -> (time2Sample_uncached v1 <= time2Sample_uncached v2)%Z.
Proof.
  intros Hle. unfold Warp.time2Sample_uncached.
  destruct (Qle_bool v2 0) eqn:E2.
  - apply Qle_bool_iff in E2. holds (Qle_bool v1 0). apply Qtrunc_le. nra.
  - apply Qle_bool_false in E2.
    destruct (Qle_bool v1 0) eqn:E1.
    + apply Qle_bool_iff in E1. apply Qtrunc_le.
      apply Qle_trans with (inject_Z 0); [change (inject_Z 0) with 0; nra |].
      apply time2Sample_loop_ge; assumption.
    + apply Qle_bool_false in E1. apply Qtrunc_le.
      apply time2Sample_loop_mono; assumption.
Qed.

(** An answer for a key that is not negative is not negative. *)
Lemma time2Sample_uncached_nonneg t :
  (0 <= timeKey t)%Z -> (0 <= time2Sample_uncached t)%Z.
Proof.
  intros Hk. unfold Warp.time2Sample_uncached.
  destruct (Qle_bool t 0) eqn:E; [exact Hk |].
  apply Qle_bool_false in E.
  rewrite <- (Qtrunc_Z 0). apply Qtrunc_le.
  apply (time2Sample_loop_ge markers t 0 0); assumption.
Qed.

(** The memoized answer is the uncached one at a time with the same
    key. *)
Lemma time2Sample_value_key c val :
  coherent c ->
  exists t, timeKey t = timeKey val /\ value (time2Sample val) c = time2Sample_uncached t.
Proof.
  intros Hc. unfold value, Warp.time2Sample.
  destruct (Qle_bool val 0) eqn:E.
  - exists val. split; [reflexivity |]. unfold Warp.time2Sample_uncached. rewrite E. reflexivity.
  - destruct (time2SampleCache c !! timeKey val) as [v |] eqn:L; simpl.
    + destruct (Warp.coh_time2Sample _ _ _ _ Hc _ _ L) as (t & Ht & ->).
      exists t. split; [exact Ht | reflexivity].
    + exists val. split; [reflexivity |].
      unfold Warp.time2Sample_uncached. rewrite E. reflexivity.
Qed.

(** Two calls with the same key, one after the other, give the same
    answer when both times are positive. *)
Lemma time2Sample_same_key c v1 v2 :
  0 < v1 -> 0 < v2 -> timeKey v1 = timeKey v2 ->
  value (time2Sample v2) (after (time2Sample v1) c) = value (time2Sample v1) c.
Proof.
  intros H1 H2 Hk. unfold value, after, Warp.time2Sample.
  fails (Qle_bool v1 0). fails (Qle_bool v2 0). rewrite <- Hk.
  destruct (time2SampleCache c !! timeKey v1) as [v |] eqn:L; simpl.
  - rewrite L. reflexivity.
  - rewrite lookup_insert_eq. reflexivity.
Qed.

(** Of two calls, one after the other, the one with the smaller time
    has the smaller answer. *)
Lemma time2Sample_pair c v1 v2 :
  coherent c -> v1 <= v2 ->
  (value (time2Sample v1) c <= value (time2Sample v2) (after (time2Sample v1) c))%Z /\
  (value (time2Sample v1) (after (time2Sample v2) c) <= value (time2Sample v2) c)%Z.
Proof.
  intros Hc Hle.
  pose proof (time2Sample_coherent sampleRate markers dataSize c v1 Hc) as Hc1.
  pose proof (time2Sample_coherent sampleRate markers dataSize c v2 Hc) as Hc2.
  pose proof (timeKey_mono v1 v2 Hle) as Hk.
  assert (Far : forall t1 t2, (timeKey t1 < timeKey t2)%Z ->
                              (time2Sample_uncached t1 <= time2Sample_uncached t2)%Z).
  { intros t1 t2 Hlt. apply time2Sample_uncached_mono.
    destruct (Qlt_le_dec t2 t1) as [H | H]; [| exact H].
    pose proof (timeKey_mono t2 t1 ltac:(lra)). lia. }
  destruct (Z.eq_dec (timeKey v1) (timeKey v2)) as [Heq | Hne].
  - destruct (Qlt_le_dec 0 v1) as [P1 | N1].
    + assert (P2 : 0 < v2) by lra.
      rewrite (time2Sample_same_key c v1 v2 P1 P2 Heq).
      rewrite (time2Sample_same_key c v2 v1 P2 P1 (eq_sym Heq)). lia.
    + assert (E1 : forall c', value (time2Sample v1) c' = timeKey v1).
      { intros c'. unfold value, Warp.time2Sample. holds (Qle_bool v1 0). reflexivity. }
      assert (A1 : forall c', after (time2Sample v1) c' = c').
      { intros c'. unfold after, Warp.time2Sample. holds (Qle_bool v1 0). reflexivity. }
      rewrite !E1, A1.
      destruct (Qlt_le_dec 0 v2) as [P2 | N2].
      * assert (H0 : timeKey v1 = 0%Z).
        { assert (timeKey v1 <= 0)%Z
            by (rewrite <- (Qtrunc_Z 0); apply Qtrunc_le; change (inject_Z 0) with 0; nra).
          assert (0 <= timeKey v2)%Z
            by (rewrite <- (Qtrunc_Z 0); apply Qtrunc_le; change (inject_Z 0) with 0; nra).
          lia. }
        destruct (time2Sample_value_key c v2 Hc) as (t & Ht & ->).
        pose proof (time2Sample_uncached_nonneg t ltac:(lia)). lia.
      * assert (E2 : value (time2Sample v2) c = timeKey v2).
        { unfold value, Warp.time2Sample. holds (Qle_bool v2 0). reflexivity. }
        rewrite E2. lia.
  - destruct (time2Sample_value_key c v1 Hc) as (t1 & Ht1 & ->).
    destruct (time2Sample_value_key c v2 Hc) as (t2 & Ht2 & ->).
    destruct (time2Sample_value_key _ v2 Hc1) as (t2' & Ht2' & ->).
    destruct (time2Sample_value_key _ v1 Hc2) as (t1' & Ht1' & ->).
    split; apply Far; lia.
Qed.

End MonotoneFacts.

(** X4: with markers in ascending order of sample and no segment running
    backwards in edited time, of two calls of the memoized [time2Sample],
    one right after the other and in either order, the call with the
    smaller time returns the smaller sample, for every query history
    before them. *)
Theorem time2Sample_monotone sampleRate markers dataSize qs v1 v2 :
  (0 < sampleRate)%Z ->
  Shape.nondecreasing markers 0 = true ->
  Warp.no_reversal sampleRate markers 0 = true ->
  v1 <= v2 ->
  let c := Warp.history sampleRate markers dataSize qs invalidateCache in
  (value (Warp.time2Sample sampleRate markers v1) c
   <= value (Warp.time2Sample sampleRate markers v2)
            (after (Warp.time2Sample sampleRate markers v1) c))%Z /\
  (value (Warp.time2Sample sampleRate markers v1)
         (after (Warp.time2Sample sampleRate markers v2) c)
   <= value (Warp.time2Sample sampleRate markers v2) c)%Z.
Proof.
  intros Hsr Hs Hr Hle c.
  apply (time2Sample_pair sampleRate Hsr markers dataSize Hs Hr);
    [apply coherent_history | exact Hle].
Qed.

Lemma time2Sample_monotone_witness :
  let c := Warp.history 48000 [mkMarker 24000 60 (1 # 2) 3] 48001 [] invalidateCache in
  (value (Warp.time2Sample 48000 [mkMarker 24000 60 (1 # 2) 3] (1 # 4)) c
   <= value (Warp.time2Sample 48000 [mkMarker 24000 60 (1 # 2) 3] (1 # 2))
            (after (Warp.time2Sample 48000 [mkMarker 24000 60 (1 # 2) 3] (1 # 4)) c))%Z /\
  (value (Warp.time2Sample 48000 [mkMarker 24000 60 (1 # 2) 3] (1 # 4))
         (after (Warp.time2Sample 48000 [mkMarker 24000 60 (1 # 2) 3] (1 # 2)) c)
   <= value (Warp.time2Sample 48000 [mkMarker 24000 60 (1 # 2) 3] (1 # 2)) c)%Z.
Proof.
  apply (time2Sample_monotone 48000 [mkMarker 24000 60 (1 # 2) 3] 48001 [] (1 # 4) (1 # 2));
    [lia | reflexivity | reflexivity | discriminate].
Defined.

(** ** Repeated questions *)

Section StableFacts.

Variable sampleRate : Z.
Variable markers : list Marker.
Variable dataSize : Z.

Local Abbreviation sample2Time := (Warp.sample2Time sampleRate markers).
Local Abbreviation time2Sample := (Warp.time2Sample sampleRate markers).
Local Abbreviation duration := (Warp.duration sampleRate markers dataSize).
Local Abbreviation time2PitchBend := (Warp.time2PitchBend sampleRate markers dataSize).
Local Abbreviation ask := (Warp.ask sampleRate markers dataSize).
Local Abbreviation history := (Warp.history sampleRate markers dataSize).

Lemma sample2Time_keeps_samples val c :
  time2SampleCache (after (sample2Time val) c) = time2SampleCache c.
Proof.
  unfold after, Warp.sample2Time.
  destruct (val <=? 0)%Z; [reflexivity |].
  destruct (sample2TimeCache c !! val); reflexivity.
Qed.

Lemma time2PitchBend_keeps_samples val c :
  time2SampleCache (after (time2PitchBend val) c) = time2SampleCache c.
Proof.
  unfold after, Warp.time2PitchBend.
  destruct (Qle_bool val 0); [reflexivity |].
  destruct (time2PitchBendCache c !! Warp.timeKey sampleRate val); [reflexivity |].
  destruct (Warp.time2PitchBend_loop sampleRate markers val 0 0 0) as [r | [t p]];
    [reflexivity |].
  unfold bind.
  pose proof (sample2Time_keeps_samples (to_int (wrap64 (dataSize - 1))) c) as H1.
  unfold after in H1. fold duration in H1.
  destruct (duration c) as [d1 c1]. simpl in H1.
  destruct (Qlt_bool d1 val); [exact H1 |].
  pose proof (sample2Time_keeps_samples (to_int (wrap64 (dataSize - 1))) c1) as H2.
  unfold after in H2. fold duration in H2.
  destruct (duration c1) as [d2 c2]. simpl in H2 |- *. congruence.
Qed.

(** A query leaves every entry of the time-to-sample cache as it is. *)
Lemma ask_keeps_entry q c k v :
  time2SampleCache c !! k = Some v ->
  time2SampleCache (after (ask q) c) !! k = Some v.
Proof.
  intros L. destruct q as [val | val | val |]; unfold after, Warp.ask, bind.
  - pose proof (sample2Time_keeps_samples val c) as H. unfold after in H.
    destruct (sample2Time val c). simpl in *. rewrite H. exact L.
  - unfold Warp.time2Sample.
    destruct (Qle_bool val 0); [exact L |].
    destruct (time2SampleCache c !! Warp.timeKey sampleRate val) eqn:E; [exact L |].
    simpl. rewrite lookup_insert_ne; [exact L |]. intros Heq. rewrite Heq in E. congruence.
  - pose proof (time2PitchBend_keeps_samples val c) as H. unfold after in H.
    destruct (time2PitchBend val c). simpl in *. rewrite H. exact L.
  - pose proof (sample2Time_keeps_samples (to_int (wrap64 (dataSize - 1))) c) as H.
    unfold after in H. fold duration in H.
    destruct (duration c). simpl in *. rewrite H. exact L.
Qed.

Lemma history_keeps_entry qs c k v :
  time2SampleCache c !! k = Some v ->
  time2SampleCache (history qs c) !! k = Some v.
Proof.
  revert c. induction qs as [| q qs IH]; intros c L; simpl; [exact L |].
  apply IH, ask_keeps_entry, L.
Qed.

End StableFacts.

(** X5: within one invalidation epoch the memoized [time2Sample] gives
    a time the answer it gave before, whatever caches the first call ran
    on and whatever queries came in between. *)
Theorem time2Sample_stable sampleRate markers dataSize (c : Caches) (qs : list Warp.Query)
    (val : Q) :
  value (Warp.time2Sample sampleRate markers val)
        (Warp.history sampleRate markers dataSize qs
           (after (Warp.time2Sample sampleRate markers val) c))
  = value (Warp.time2Sample sampleRate markers val) c.
Proof.
  destruct (Qle_bool val 0) eqn:E.
  - unfold value, Warp.time2Sample. rewrite E. reflexivity.
  - assert (H : exists v,
              value (Warp.time2Sample sampleRate markers val) c = v /\
              time2SampleCache (after (Warp.time2Sample sampleRate markers val) c)
                !! Warp.timeKey sampleRate val = Some v).
    { unfold value, after, Warp.time2Sample. rewrite E.
      destruct (time2SampleCache c !! Warp.timeKey sampleRate val) as [v |] eqn:L; simpl.
      - exists v. split; [reflexivity | exact L].
      - eexists. split; [reflexivity | apply lookup_insert_eq]. }
    destruct H as (v & -> & L).
    apply (history_keeps_entry sampleRate markers dataSize qs) in L.
    unfold value. unfold Warp.time2Sample at 1. rewrite E, L. reflexivity.
Qed.

(** ** Bounds of the pitch bend *)

(** A point of the segment from [p] to [q] lies between them. *)
Lemma between_ends (p q t0 t1 val lo hi : Q) :
  t0 < val -> val <= t1 -> lo <= p <= hi -> lo <= q <= hi ->
  lo <= p + (val - t0) * (q - p) / (t1 - t0) <= hi.
Proof.
  intros H0 H1 Hp Hq.
  set (k := (val - t0) / (t1 - t0)).
  assert (Hk : 0 < k /\ k <= 1).
  { unfold k. split.
    - apply Qlt_shift_div_l; lra.
    - apply Qle_shift_div_r; lra. }
  assert (E : p + (val - t0) * (q - p) / (t1 - t0) == p + k * (q - p))
    by (unfold k; field; lra).
  rewrite E. split; nra.
Qed.

Lemma time2PitchBend_loop_between sampleRate ms val prevSample prevTime prevPitchBend lo hi :
  prevTime < val -> lo <= prevPitchBend <= hi ->
  Forall (fun marker => lo <= pitchBend marker <= hi) ms ->
  match Warp.time2PitchBend_loop sampleRate ms val prevSample prevTime prevPitchBend with
  | inl r => lo <= r <= hi
  | inr (t, p) => t < val /\ lo <= p <= hi
  end.
Proof.
  revert prevSample prevTime prevPitchBend.
  induction ms as [| marker rest IH]; intros prevSample prevTime prevPitchBend Hlt Hp Hall;
    simpl.
  - split; assumption.
  - inversion Hall as [| ? ? Hm Hrest]; subst.
    holds (Qlt_bool prevTime val). simpl.
    destruct (Qle_bool val (Warp.rightTimeOf sampleRate prevSample prevTime marker)) eqn:E.
    + apply Qle_bool_iff in E. apply between_ends; assumption.
    + apply Qle_bool_false in E. apply IH; assumption.
Qed.

Lemma time2PitchBend_uncached_between sampleRate markers dataSize val lo hi :
  lo <= 0 <= hi ->
  Forall (fun marker => lo <= pitchBend marker <= hi) markers ->
  lo <= Warp.time2PitchBend_uncached sampleRate markers dataSize val <= hi.
Proof.
  intros H0 Hall. unfold Warp.time2PitchBend_uncached.
  destruct (Qle_bool val 0) eqn:E; [exact H0 |].
  apply Qle_bool_false in E.
  pose proof (time2PitchBend_loop_between sampleRate markers val 0 0 0 lo hi E H0 Hall) as H.
  destruct (Warp.time2PitchBend_loop sampleRate markers val 0 0 0) as [r | [t p]];
    [exact H |].
  destruct H as [Ht Hp].
  destruct (Qlt_bool (Warp.duration_uncached sampleRate markers dataSize) val) eqn:D;
    [exact H0 |].
  apply Qlt_bool_false in D. apply between_ends; assumption.
Qed.

(** X8: the pitch bend never leaves the range of the markers: when every
    marker's [pitchBend] lies in [[lo, hi]] and so does 0, so does
    [time2PitchBend] at every time and for every query history, whatever
    the markers' samples and [dTime]s. *)
Theorem time2PitchBend_between sampleRate markers dataSize qs val lo hi :
  lo <= 0 <= hi ->
  Forall (fun marker => lo <= pitchBend marker <= hi) markers ->
  lo <= value (Warp.time2PitchBend sampleRate markers dataSize val)
              (Warp.history sampleRate markers dataSize qs invalidateCache) <= hi.
Proof.
  intros H0 Hall.
  pose proof (coherent_history sampleRate markers dataSize qs) as Hc.
  set (c := Warp.history sampleRate markers dataSize qs invalidateCache) in *.
  destruct (Qle_bool val 0) eqn:E.
  { unfold value, Warp.time2PitchBend. rewrite E. exact H0. }
  destruct (time2PitchBendCache c !! Warp.timeKey sampleRate val) as [v |] eqn:L.
  - unfold value, Warp.time2PitchBend. rewrite E, L. simpl.
    destruct (Warp.coh_time2PitchBend _ _ _ _ Hc _ _ L) as (t & _ & ->).
    apply time2PitchBend_uncached_between; assumption.
  - destruct (time2PitchBend_miss sampleRate markers dataSize c val Hc E L) as [-> _].
    apply time2PitchBend_uncached_between; assumption.
Qed.

Lemma time2PitchBend_between_witness :
  -1 <= value (Warp.time2PitchBend 48000 [mkMarker 24000 60 (1 # 2) 3; mkMarker 36000 62 0 (-1)]
                 48001 (7 # 10))
          (Warp.history 48000 [mkMarker 24000 60 (1 # 2) 3; mkMarker 36000 62 0 (-1)] 48001
             [] invalidateCache) <= 3.
Proof.
  apply (time2PitchBend_between 48000 [mkMarker 24000 60 (1 # 2) 3; mkMarker 36000 62 0 (-1)]
           48001 [] (7 # 10) (-1) 3).
  - split; discriminate.
  - repeat constructor; discriminate.
Defined.

(** ** The grains of a pass: lengths and lookups *)

Section GrainFacts.

Variable data : list Q.
Variable estimateGrainSize : Z -> option Z.

Local Abbreviation segment := (Segmenter.segment data estimateGrainSize).

Lemma insertGrain_Forall (P : Grain -> Prop) g grains :
  P g -> Forall P grains -> Forall P (insertGrain g grains).
Proof.
  intros Hg. induction 1 as [| h rest Hh Hrest IH]; simpl.
  - constructor; [exact Hg | constructor].
  - destruct (startSample g <? startSample h)%Z; [repeat constructor; assumption |].
    destruct (startSample g =? startSample h)%Z; constructor; assumption.
Qed.

(** The first search stays within half a grain size of [start + grainSize]. *)
Lemma nearCandidates_span start grainSize idx :
  In idx (Segmenter.nearCandidates start grainSize) ->
  (grainSize < 2 * (idx - start) < 3 * grainSize)%Z.
Proof.
  unfold Segmenter.nearCandidates. rewrite in_map_iff.
  intros (i & <- & Hi). apply in_zrange in Hi. unfold Segmenter.nearIndex.
  assert (0 <= i ÷ 2)%Z by (apply Z.quot_pos; lia).
  assert (2 * (i ÷ 2) <= i)%Z by (apply Z.mul_quot_le; lia).
  destruct (Z.rem i 2 =? 0)%Z.
  - lia.
  - rewrite Z.quot_opp_l by lia. lia.
Qed.

(** The fall-back scan starts one and a half grain sizes after [start]. *)
Lemma farCandidates_span start grainSize idx :
  (0 < grainSize)%Z ->
  In idx (Segmenter.farCandidates data start grainSize) ->
  (grainSize < 2 * (idx - start))%Z.
Proof.
  intros Hg Hi. apply in_zrange in Hi.
  pose proof (Z.quot_pos grainSize 2). lia.
Qed.

(** What holds of every grain size the loop works with holds of the
    target size [spanSize - drift] of every grain, and every grain is
    longer than half its target size. *)
Lemma segment_targets (G : Z -> Prop) fuel start grainSize nextEstimation grains :
  (forall s g, estimateGrainSize s = Some g -> (0 < g)%Z /\ G g) ->
  let P := fun g => G (spanSize g - drift g)%Z /\
                    (spanSize g - drift g < 2 * spanSize g)%Z in
  (0 < grainSize)%Z -> G grainSize -> Forall P grains ->
  Forall P (Segmenter.grainsOf (segment fuel start grainSize nextEstimation grains)).
Proof.
  intros Hest P. revert start grainSize nextEstimation grains.
  induction fuel as [| fuel IH]; intros start grainSize nextEstimation grains Hg HG Hall;
    simpl; [exact Hall |].
  destruct (start <? _)%Z; [| exact Hall].
  assert (F : forall idx, (grainSize < 2 * (idx - start))%Z ->
            Forall P (Segmenter.grainsOf
              (let grains0 :=
                 insertGrain (mkGrain start (idx - start) (idx - start - grainSize))
                             grains in
               if (nextEstimation <? idx)%Z
               then match estimateGrainSize idx with
                    | Some grainSize0 =>
                      segment fuel idx grainSize0
                              (nextEstimation + GrainSpectrSize) grains0
                    | None => Segmenter.OutOfBounds grains0
                    end
               else segment fuel idx grainSize nextEstimation grains0))).
  { intros idx Hspan. simpl.
    assert (Hall' : Forall P (insertGrain
                                (mkGrain start (idx - start) (idx - start - grainSize))
                                grains)).
    { apply insertGrain_Forall; [| exact Hall]. unfold P. simpl.
      replace (idx - start - (idx - start - grainSize))%Z with grainSize by lia.
      split; [exact HG | exact Hspan]. }
    destruct (nextEstimation <? idx)%Z.
    - destruct (estimateGrainSize idx) as [g' |] eqn:E; [| exact Hall'].
      destruct (Hest _ _ E). apply IH; assumption.
    - apply IH; assumption. }
  destruct (Segmenter.firstCrossing data (Segmenter.nearCandidates start grainSize))
    as [idx | |] eqn:N.
  - apply firstCrossing_found in N as [Hin _].
    apply F. apply nearCandidates_span in Hin. lia.
  - destruct (Segmenter.firstCrossing data (Segmenter.farCandidates data start grainSize))
      as [idx | |] eqn:R; [| exact Hall | exact Hall].
    apply firstCrossing_found in R as [Hin _].
    apply F. eapply farCandidates_span; [exact Hg | exact Hin].
  - exact Hall.
Qed.

(** In a chain of grains a key inside a grain, or at its end, finds the
    next grain. *)
Lemma lower_bound_chain from before g rest to key :
  Segmenter.chain from (before ++ g :: rest) to ->
  (startSample g < key <= endOf g)%Z ->
  lower_bound (before ++ g :: rest) key = hd_error rest.
Proof.
  revert from. induction before as [| b before IH]; intros from Hc Hkey.
  - destruct Hc as (_ & _ & Hc). simpl.
    fails (key <=? startSample g)%Z.
    destruct rest as [| h rest]; [reflexivity |].
    destruct Hc as (Hs & _). simpl.
    holds (key <=? startSample h)%Z. reflexivity.
  - destruct Hc as (Hs & Hn & Hc). simpl.
    destruct (chain_keys _ _ _ Hc) as [_ Hk].
    apply Forall_app in Hk as [_ Hk]. inversion Hk as [| ? ? Hg _]; subst.
    unfold endOf in Hg.
    fails (key <=? startSample b)%Z.
    eapply IH; [exact Hc | exact Hkey].
Qed.

(** In a chain of grains a key after the start of the last grain finds
    nothing. *)
Lemma lower_bound_chain_miss from before g to key :
  Segmenter.chain from (before ++ [g]) to -> (startSample g < key)%Z ->
  lower_bound (before ++ [g]) key = None.
Proof.
  revert from. induction before as [| b before IH]; intros from Hc Hkey.
  - simpl. fails (key <=? startSample g)%Z. reflexivity.
  - destruct Hc as (Hs & Hn & Hc). simpl.
    destruct (chain_keys _ _ _ Hc) as [_ Hk].
    apply Forall_app in Hk as [_ Hk]. inversion Hk as [| ? ? Hg _]; subst.
    unfold endOf in Hg.
    fails (key <=? startSample b)%Z.
    eapply IH; [exact Hc | exact Hkey].
Qed.

End GrainFacts.

(** X9: every grain of a segmentation pass records a target size
    [spanSize - drift] between 1500 and [1500 + sampleRate] and spans
    more than half of it, hence at least 751 samples. *)
Theorem preproc_grain_lengths
    (data : list Q) (sampleRate : Z) (fft : list Q -> Z -> Q * Q) (fuel : nat) :
  (0 < sampleRate)%Z ->
  Forall (fun g => (1500 <= spanSize g - drift g <= 1500 + sampleRate)%Z /\
                   (spanSize g - drift g < 2 * spanSize g)%Z /\
                   (751 <= spanSize g)%Z)
         (Segmenter.grainsOf
            (Segmenter.preproc data (Estimator.estimateGrainSize data sampleRate fft) fuel)).
Proof.
  intros Hsr.
  assert (Hest : forall s g,
            Estimator.estimateGrainSize data sampleRate fft s = Some g ->
            (0 < g)%Z /\ (1500 <= g <= 1500 + sampleRate)%Z).
  { intros s g E. pose proof (estimateGrainSize_bounds _ _ _ _ _ Hsr E). lia. }
  eapply Forall_impl with
    (P := fun g => (1500 <= spanSize g - drift g <= 1500 + sampleRate)%Z /\
                   (spanSize g - drift g < 2 * spanSize g)%Z).
  - unfold Segmenter.preproc.
    destruct (Estimator.estimateGrainSize data sampleRate fft 0%Z) as [g0 |] eqn:E;
      [| constructor].
    destruct (Hest _ _ E) as [H0 HG].
    apply (segment_targets data _ (fun g => (1500 <= g <= 1500 + sampleRate)%Z));
      [exact Hest | exact H0 | exact HG | constructor].
  - simpl. intros g [H1 H2]. repeat split; lia.
Qed.

Lemma preproc_grain_lengths_witness :
  Forall (fun g => (1500 <= spanSize g - drift g <= 1500 + 48000)%Z /\
                   (spanSize g - drift g < 2 * spanSize g)%Z /\
                   (751 <= spanSize g)%Z)
         (Segmenter.grainsOf
            (Segmenter.preproc Demo.data
               (Estimator.estimateGrainSize Demo.data 48000 Demo.flat) 100)).
Proof.
  apply (preproc_grain_lengths Demo.data 48000 Demo.flat 100). lia.
Defined.

(** X11: [grains.lower_bound(key)] on the grains of a segmentation pass: a
    key at or below 0 finds the first grain; a key inside a grain or at
    its end finds the grain after it, not the grain that holds it; a key
    after the start of the last grain finds nothing. *)
Theorem lookup_in_pass
    (data : list Q) (sampleRate : Z) (fft : list Q -> Z -> Q * Q) (fuel : nat) :
  (0 < sampleRate)%Z ->
  let grains :=
    Segmenter.grainsOf
      (Segmenter.preproc data (Estimator.estimateGrainSize data sampleRate fft) fuel) in
  (forall key, (key <= 0)%Z -> lower_bound grains key = hd_error grains) /\
  (forall before g rest key,
     grains = before ++ g :: rest -> (startSample g < key <= endOf g)%Z ->
     lower_bound grains key = hd_error rest) /\
  (forall before g key,
     grains = before ++ [g] -> (startSample g < key)%Z -> lower_bound grains key = None).
Proof.
  intros Hsr grains.
  assert (T : exists last, Segmenter.tiled data grains last).
  { assert (Hpos : forall start g,
              Estimator.estimateGrainSize data sampleRate fft start = Some g -> (0 < g)%Z).
    { intros start g E. pose proof (estimateGrainSize_bounds _ _ _ _ _ Hsr E). lia. }
    subst grains. unfold Segmenter.preproc.
    destruct (Estimator.estimateGrainSize data sampleRate fft 0%Z) as [g0 |] eqn:E.
    - apply segment_tiled; [exact Hpos | eapply Hpos, E |].
      split; [reflexivity | constructor].
    - exists 0%Z. split; [reflexivity | constructor]. }
  destruct T as (last & Hc & _). clearbody grains.
  split; [| split].
  - intros key Hkey. destruct grains as [| g rest]; [reflexivity |].
    destruct Hc as (Hs & _). simpl.
    holds (key <=? startSample g)%Z. reflexivity.
  - intros before g rest key -> Hkey.
    eapply lower_bound_chain; [exact Hc | exact Hkey].
  - intros before g key -> Hkey.
    eapply lower_bound_chain_miss; [exact Hc | exact Hkey].
Qed.

Lemma lookup_in_pass_witness :
  let grains :=
    Segmenter.grainsOf
      (Segmenter.preproc Demo.data
         (Estimator.estimateGrainSize Demo.data 48000 Demo.flat) 100) in
  (forall key, (key <= 0)%Z -> lower_bound grains key = hd_error grains) /\
  (forall before g rest key,
     grains = before ++ g :: rest -> (startSample g < key <= endOf g)%Z ->
     lower_bound grains key = hd_error rest) /\
  (forall before g key,
     grains = before ++ [g] -> (startSample g < key)%Z -> lower_bound grains key = None).
Proof.
  apply (lookup_in_pass Demo.data 48000 Demo.flat 100). lia.
Defined.

(** ** Short buffers *)

(** X10: a buffer of at most [preferredGrainSize + 1] samples gets no
    grains, and on the empty buffer the first estimate reads [data[-1]]. *)
Theorem preproc_short_buffer
    (data : list Q) (sampleRate : Z) (fft : list Q -> Z -> Q * Q) (fuel : nat) :
  (0 < sampleRate < 2 ^ 30)%Z -> (sizeOf data <= preferredGrainSize + 1)%Z ->
  Segmenter.grainsOf
    (Segmenter.preproc data (Estimator.estimateGrainSize data sampleRate fft) fuel) = [] /\
  (data = [] ->
   Segmenter.preproc data (Estimator.estimateGrainSize data sampleRate fft) fuel
   = Segmenter.OutOfBounds []).
Proof.
  intros Hsr Hsize. unfold preferredGrainSize in Hsize. split.
  - unfold Segmenter.preproc.
    destruct (Estimator.estimateGrainSize data sampleRate fft 0%Z) as [g |] eqn:E;
      [| reflexivity].
    pose proof (estimateGrainSize_bounds _ _ _ _ _ (proj1 Hsr) E) as Hg.
    destruct fuel as [| fuel]; [reflexivity |]. cbn [Segmenter.segment].
    assert (0 <= sizeOf data)%Z by (unfold sizeOf; lia).
    rewrite to_int_wrap64 by lia.
    fails (0 <? sizeOf data - g - 1)%Z. reflexivity.
  - intros ->. reflexivity.
Qed.

Lemma preproc_short_buffer_witness :
  Segmenter.grainsOf
    (Segmenter.preproc (repeat 1 40)
       (Estimator.estimateGrainSize (repeat 1 40) 48000 Demo.flat) 100) = [] /\
  (repeat 1 40 = [] ->
   Segmenter.preproc (repeat 1 40)
     (Estimator.estimateGrainSize (repeat 1 40) 48000 Demo.flat) 100
   = Segmenter.OutOfBounds []).
Proof.
  apply (preproc_short_buffer (repeat 1 40) 48000 Demo.flat 100);
    [lia | vm_compute; discriminate].
Defined.

(** ** The playing branch of the callback *)

Section DeliverFacts.

Import Playback.

Lemma deliver_accesses samples w out :
  accesses (deliver samples w out)
  = accesses out ++ map (fun k => (w + Z.of_nat k)%Z) (seq 0 (length samples)).
Proof.
  revert w out. induction samples as [| x rest IH]; intros w out; simpl.
  - rewrite app_nil_r. reflexivity.
  - rewrite IH. simpl. rewrite <- app_assoc. simpl. rewrite Z.add_0_r.
    do 2 f_equal. rewrite <- seq_shift, map_map.
    apply map_ext. intros k. lia.
Qed.

(** The copy loop overwrites the buffer from offset [w] on with the
    samples, where they fit. *)
Lemma deliver_stream samples w out :
  (0 <= w)%Z -> (Z.to_nat w + length samples <= length (stream out))%nat ->
  stream (deliver samples w out)
  = take (Z.to_nat w) (stream out) ++ samples
    ++ drop (Z.to_nat w + length samples) (stream out).
Proof.
  revert w out. induction samples as [| x rest IH]; intros w out Hw Hlen; simpl.
  - rewrite Nat.add_0_r, take_drop. reflexivity.
  - simpl in Hlen.
    assert (Hin : inStream out w = true).
    { unfold inStream. apply andb_true_iff. split; [apply Z.leb_le | apply Z.ltb_lt]; lia. }
    rewrite IH; [| lia | unfold store; rewrite Hin; simpl; rewrite length_insert; lia].
    unfold store. rewrite Hin. cbn [stream].
    replace (Z.to_nat (w + 1)) with (S (Z.to_nat w)) by lia.
    rewrite (take_S_r _ _ x) by (apply list_lookup_insert_eq; lia).
    rewrite take_insert_ge by lia.
    rewrite drop_insert_lt by lia.
    rewrite <- app_assoc. simpl.
    replace (Z.to_nat w + S (length rest))%nat with (S (Z.to_nat w + length rest)) by lia.
    reflexivity.
Qed.

Variable sampleRate : Z.
Variable markers : list Marker.
Variable data : list Q.
Variable grains : list Grain.
Variable pow2 sinq : Q -> Q.
Variable rand : nat -> Z.

Local Abbreviation fill := (Playback.fill sampleRate markers data grains pow2 sinq rand).

(** The [while] loop is left by its condition only with the residual at
    least [dur + preferredGrainSize] samples long, the playing flag as it
    was. *)
Lemma fill_filled fuel dur sampleOffset tmpCursor st st' :
  fill fuel dur sampleOffset tmpCursor st = Ok (Filled, st') ->
  (dur + preferredGrainSize <= Z.of_nat (length (restWav st')))%Z /\
  isAudioPlaying st' = isAudioPlaying st.
Proof.
  revert tmpCursor st.
  induction fuel as [| fuel IH]; intros tmpCursor st; [discriminate |].
  cbn [Playback.fill].
  destruct (Z.of_nat (length (restWav st)) <? dur + preferredGrainSize)%Z eqn:C.
  2: { intros [= <-]. apply Z.ltb_ge in C. split; [exact C | reflexivity]. }
  match goal with |- context [query ?m st] =>
    pose proof (query_keeps m st) as (A1 & A2 & A3); destruct (query m st) as [smp st1]
  end.
  cbn [fst snd] in A1, A2, A3.
  match goal with |- context [query ?m st1] =>
    pose proof (query_keeps m st1) as (B1 & B2 & B3); destruct (query m st1) as [pb st2]
  end.
  cbn [fst snd] in B1, B2, B3.
  destruct (lower_bound grains _) as [g |]; [| discriminate].
  destruct (Playback.renderGrain _ _ _ _ _ _ _ _ _ _ st2) as [[st3 n] | |] eqn:R;
    [| discriminate | discriminate].
  apply renderGrain_keeps in R as (R1 & R2 & R3).
  intros H. apply IH in H as (H1 & H2). split; [exact H1 | congruence].
Qed.

(** With the residual long enough the loop is left at once. *)
Lemma fill_enough fuel dur sampleOffset tmpCursor st e st' :
  fill fuel dur sampleOffset tmpCursor st = Ok (e, st') ->
  (dur + preferredGrainSize <= Z.of_nat (length (restWav st)))%Z ->
  st' = st.
Proof.
  destruct fuel as [| fuel]; [discriminate |]. cbn [Playback.fill].
  intros H Hlen.
  replace (Z.of_nat (length (restWav st)) <? dur + preferredGrainSize)%Z with false in H
    by (symmetry; apply Z.ltb_ge; exact Hlen).
  congruence.
Qed.

End DeliverFacts.

(** X12: a callback that delivers audio writes exactly [dur] samples, at
    the offsets [0 .. dur - 1]: the first [dur] samples of the residual
    as the [while] loop left it, which is the residual the callback found
    when that held [dur + preferredGrainSize] samples already.  It removes
    them from the residual, leaves at least [preferredGrainSize] samples
    in it and advances the cursor by [dur / sampleRate]. *)
Theorem playback_delivers
    (sampleRate : Z) (markers : list Marker) (data : list Q) (grains : list Grain)
    (pow2 sinq : Q -> Q) (rand : nat -> Z)
    (fuel : nat) (dur : Z) (st st' : Playback.State) (out out' : Playback.Output) :
  (0 <= dur)%Z -> length (Playback.stream out) = Z.to_nat dur ->
  Playback.playback sampleRate markers data grains pow2 sinq rand fuel dur st out
  = Playback.Ok (Playback.ExitDelivered, st', out') ->
  exists filled : Playback.State,
    Playback.fill sampleRate markers data grains pow2 sinq rand fuel dur
      (Z.of_nat (length (Playback.restWav st))) (Playback.cursorSec st)
      (snd (Playback.query (Warp.duration sampleRate markers (sizeOf data)) st))
    = Playback.Ok (Playback.Filled, filled) /\
    (dur + preferredGrainSize <= Z.of_nat (length (Playback.restWav filled)))%Z /\
    ((dur + preferredGrainSize <= Z.of_nat (length (Playback.restWav st)))%Z ->
     Playback.restWav filled = Playback.restWav st) /\
    Playback.stream out' = take (Z.to_nat dur) (Playback.restWav filled) /\
    Playback.restWav st' = drop (Z.to_nat dur) (Playback.restWav filled) /\
    Playback.accesses out' = Playback.accesses out ++ zrange 0 dur /\
    Playback.cursorSec st' == Playback.cursorSec st + inject_Z dur / inject_Z sampleRate /\
    Playback.isAudioPlaying st' = true.
Proof.
  intros Hdur Hlen H. unfold Playback.playback in H.
  set (st0 := if Qlt_bool (Playback.cursorSec st) 0 then _ else _) in H.
  assert (H0 : Playback.isAudioPlaying st0 = true ->
               st0 = snd (Playback.query (Warp.duration sampleRate markers (sizeOf data))
                                         st)).
  { subst st0. destruct (Qlt_bool (Playback.cursorSec st) 0); [discriminate |].
    destruct (Playback.query (Warp.duration sampleRate markers (sizeOf data)) st)
      as [d st1].
    destruct (Qle_bool d (Playback.cursorSec st1)); [discriminate | reflexivity]. }
  clearbody st0.
  destruct (Playback.isAudioPlaying st0) eqn:Pl; cbn [negb] in H.
  2: { destruct (Playback.stopped dur st0 out). discriminate. }
  specialize (H0 eq_refl).
  pose proof (query_keeps (Warp.duration sampleRate markers (sizeOf data)) st)
    as (C0 & _ & R0).
  rewrite <- H0 in C0, R0.
  destruct (Playback.fill _ _ _ _ _ _ _ _ _ _ _ st0) as [[[|] st1] | |] eqn:F;
    try discriminate.
  pose proof (fill_keeps _ _ _ _ _ _ _ _ _ _ _ _ _ _ F) as (K1 & K2 & _).
  pose proof (fill_filled _ _ _ _ _ _ _ _ _ _ _ _ _ F) as (F1 & F2).
  unfold preferredGrainSize in *.
  destruct (Playback.restWav st1) as [| x wav'] eqn:W; [simpl in F1; lia |].
  rewrite <- W in *. clear W x wav'.
  replace (Z.to_nat (Z.min (Z.of_nat (length (Playback.restWav st1))) dur))
    with (Z.to_nat dur) in H by lia.
  injection H as <- <-.
  exists st1. cbn [Playback.restWav Playback.cursorSec Playback.isAudioPlaying].
  assert (Ht : length (take (Z.to_nat dur) (Playback.restWav st1)) = Z.to_nat dur)
    by (rewrite length_take; lia).
  split; [rewrite <- H0, <- R0, <- C0; exact F |].
  split; [exact F1 |]. split.
  { intros Hlong. rewrite <- R0 in Hlong.
    rewrite (fill_enough _ _ _ _ _ _ _ _ _ _ _ _ _ _ F Hlong). exact R0. }
  split.
  { rewrite deliver_stream by (simpl; lia). simpl.
    rewrite drop_ge by lia. apply app_nil_r. }
  split; [reflexivity |]. split.
  { rewrite deliver_accesses, Ht. unfold zrange. rewrite Z.sub_0_r. reflexivity. }
  split; [| congruence].
  rewrite K1, C0, Z2Nat.id by lia. unfold Qdiv. ring.
Qed.

Lemma playback_delivers_witness :
  let st := Playback.mkState 0 true (repeat (1 # 2) 1504) 0 None 0 false invalidateCache in
  let out := Playback.mkOutput [9; 9; 9; 9] [] in
  match Playback.playback 48000 [] (repeat 1 200) [mkGrain 0 4 0]
                          (fun _ => 1) (fun x => x) (fun _ => 0%Z) 10 4 st out with
  | Playback.Ok (Playback.ExitDelivered, st', out') =>
    Playback.stream out' = repeat (1 # 2) 4 /\
    Playback.restWav st' = repeat (1 # 2) 1500 /\
    Playback.accesses out' = [0; 1; 2; 3]%Z /\
    Playback.cursorSec st' == 4 # 48000 /\
    Playback.isAudioPlaying st' = true
  | _ => False
  end.
Proof.
  intros st out.
  destruct (Playback.playback 48000 [] (repeat 1 200) [mkGrain 0 4 0]
              (fun _ => 1) (fun x => x) (fun _ => 0%Z) 10 4 st out)
    as [[[[| |] st'] out'] | |] eqn:E; try (vm_compute in E; discriminate).
  destruct (playback_delivers 48000 [] (repeat 1 200) [mkGrain 0 4 0] (fun _ => 1)
              (fun x => x) (fun _ => 0%Z) 10 4 st st' out out')
    as (filled & _ & _ & Hsame & Hs & Hr & Ha & Hc & Hp); [lia | reflexivity | exact E |].
  rewrite Hsame in Hs, Hr by (vm_compute; discriminate).
  split; [exact Hs |]. split; [exact Hr |]. split; [exact Ha |].
  split; [rewrite Hc; reflexivity | exact Hp].
Defined.

(** X13: with the cursor below 0 or not below [duration()] the callback
    takes the Stopped branch whatever the playing flag: it clears the
    flag, pauses the device, empties the residual and leaves the cursor
    where it is. *)
Theorem playback_cursor_outside
    (sampleRate : Z) (markers : list Marker) (data : list Q) (grains : list Grain)
    (pow2 sinq : Q -> Q) (rand : nat -> Z)
    (fuel : nat) (dur : Z) (st : Playback.State) (out : Playback.Output) :
  Playback.cursorSec st < 0 \/
  value (Warp.duration sampleRate markers (sizeOf data)) (Playback.caches st)
  <= Playback.cursorSec st ->
  exists st' out',
    Playback.playback sampleRate markers data grains pow2 sinq rand fuel dur st out
    = Playback.Ok (Playback.ExitStopped, st', out') /\
    Playback.isAudioPlaying st' = false /\
    Playback.audioPaused st' = true /\
    Playback.restWav st' = [] /\
    Playback.cursorSec st' = Playback.cursorSec st.
Proof.
  intros Hout. unfold Playback.playback.
  set (st0 := if Qlt_bool (Playback.cursorSec st) 0 then _ else _).
  assert (H0 : Playback.cursorSec st0 = Playback.cursorSec st /\
               Playback.isAudioPlaying st0 = false).
  { subst st0. destruct (Qlt_bool (Playback.cursorSec st) 0) eqn:N; [split; reflexivity |].
    apply Qlt_bool_false in N.
    destruct Hout as [Hneg | Hend]; [lra |].
    unfold Playback.query, value in *.
    destruct (Warp.duration sampleRate markers (sizeOf data) (Playback.caches st))
      as [d c]. cbn [fst Playback.cursorSec] in *.
    apply Qle_bool_iff in Hend. rewrite Hend. split; reflexivity. }
  destruct H0 as [C0 P0]. clearbody st0. rewrite P0. cbn [negb].
  unfold Playback.stopped.
  destruct (Playback.zeroFill (Z.to_nat dur) 0 out) as [w out1].
  destruct (Playback.fadeOut (zrange 0 100) w out1) as [w2 out2].
  eexists _, _. split; [reflexivity |].
  cbn [Playback.isAudioPlaying Playback.audioPaused Playback.restWav Playback.cursorSec].
  repeat split; [exact P0 | exact C0].
Qed.

Lemma playback_cursor_outside_witness :
  exists st' out',
    Playback.playback 48000 [] (repeat 1 200) [mkGrain 0 4 0]
                      (fun _ => 1) (fun x => x) (fun _ => 0%Z) 10 4
                      (Playback.mkState 1 true [1 # 2] 0 None 0 false invalidateCache)
                      (Playback.mkOutput [9; 9; 9; 9] [])
    = Playback.Ok (Playback.ExitStopped, st', out') /\
    Playback.isAudioPlaying st' = false /\
    Playback.audioPaused st' = true /\
    Playback.restWav st' = [] /\
    Playback.cursorSec st'
    = Playback.cursorSec (Playback.mkState 1 true [1 # 2] 0 None 0 false invalidateCache).
Proof.
  apply (playback_cursor_outside 48000 [] (repeat 1 200) [mkGrain 0 4 0]
           (fun _ => 1) (fun x => x) (fun _ => 0%Z) 10 4
           (Playback.mkState 1 true [1 # 2] 0 None 0 false invalidateCache)
           (Playback.mkOutput [9; 9; 9; 9] [])).
  right. vm_compute. discriminate.
Defined.

(** ** A lookup miss and the output buffer *)

Section LookupMissFacts.

Import Playback.

Variable sampleRate : Z.
Variable markers : list Marker.
Variable data : list Q.
Variable grains : list Grain.
Variable pow2 sinq : Q -> Q.
Variable rand : nat -> Z.

Lemma query_paused {A} (m : Memo A) st :
  audioPaused (snd (query m st)) = audioPaused st.
Proof. unfold query. destruct (m (caches st)). reflexivity. Qed.

Lemma renderGrain_paused fuel g rate tmpCursor st st' sz :
  Playback.renderGrain sampleRate markers data grains sinq rand fuel g rate tmpCursor st
  = Ok (st', sz) ->
  audioPaused st' = audioPaused st.
Proof.
  unfold Playback.renderGrain.
  destruct (countRun _ _ _ _ _ _) as [n | |]; [| discriminate | discriminate].
  match goal with |- context [query ?m st] =>
    pose proof (query_paused m st) as K; destruct (query m st) as [smp st1]
  end.
  simpl in K.
  destruct (match lower_bound grains smp with
            | Some g' => readSample data (startSample g')
            | None => Some 0
            end) as [next |]; [| discriminate].
  cbn [cursorSec isAudioPlaying restWav bias prevGrain randCalls audioPaused caches].
  match goal with |- context [if ?b then _ else _] => destruct b end.
  - destruct (renderAdjacent _ _ _ _ _ _ _ _ _) as [[wav n'] | |];
      [| discriminate | discriminate].
    intros [= <- _]. simpl. exact K.
  - destruct (Qtrunc _ <? 0)%Z; [discriminate |].
    destruct (renderCrossfade _ _ _ _ _ _ _ _ _ _ _ _) as [[wav n'] | |];
      [| discriminate | discriminate].
    intros [= <- _]. simpl. exact K.
Qed.

(** The [while] loop does not touch the audio device. *)
Lemma fill_paused fuel dur sampleOffset tmpCursor st e st' :
  Playback.fill sampleRate markers data grains pow2 sinq rand fuel dur sampleOffset
                tmpCursor st = Ok (e, st') ->
  audioPaused st' = audioPaused st.
Proof.
  revert tmpCursor st.
  induction fuel as [| fuel IH]; intros tmpCursor st; [discriminate |].
  cbn [Playback.fill].
  destruct (Z.of_nat (length (restWav st)) <? dur + preferredGrainSize)%Z.
  2: { intros [= <- <-]. reflexivity. }
  match goal with |- context [query ?m st] =>
    pose proof (query_paused m st) as A1; destruct (query m st) as [smp st1]
  end.
  cbn [snd] in A1.
  match goal with |- context [query ?m st1] =>
    pose proof (query_paused m st1) as B1; destruct (query m st1) as [pb st2]
  end.
  cbn [snd] in B1.
  destruct (lower_bound grains _) as [g |].
  - destruct (Playback.renderGrain _ _ _ _ _ _ _ _ _ _ st2) as [[st3 n] | |] eqn:R;
      [| discriminate | discriminate].
    apply renderGrain_paused in R.
    intros H. apply IH in H. congruence.
  - intros [= <- <-]. simpl. congruence.
Qed.

End LookupMissFacts.

(** X14: the callback that misses the grain lookup returns with the output
    buffer as it found it and the device as it was: it writes no silence
    and does not pause. *)
Theorem lookup_miss_writes_nothing
    (sampleRate : Z) (markers : list Marker) (data : list Q) (grains : list Grain)
    (pow2 sinq : Q -> Q) (rand : nat -> Z)
    (fuel : nat) (dur : Z) (st st' : Playback.State) (out out' : Playback.Output) :
  Playback.playback sampleRate markers data grains pow2 sinq rand fuel dur st out
  = Playback.Ok (Playback.ExitLookupMiss, st', out') ->
  out' = out /\ Playback.audioPaused st' = Playback.audioPaused st.
Proof.
  unfold Playback.playback.
  set (st0 := if Qlt_bool (Playback.cursorSec st) 0 then _ else _).
  assert (H0 : Playback.audioPaused st0 = Playback.audioPaused st).
  { subst st0. destruct (Qlt_bool (Playback.cursorSec st) 0); [reflexivity |].
    unfold Playback.query.
    destruct (Warp.duration sampleRate markers (sizeOf data) (Playback.caches st)) as [d c].
    cbn [Playback.cursorSec].
    destruct (Qle_bool d (Playback.cursorSec st)); reflexivity. }
  clearbody st0.
  destruct (negb (Playback.isAudioPlaying st0)).
  - destruct (Playback.stopped dur st0 out). discriminate.
  - destruct (Playback.fill _ _ _ _ _ _ _ _ _ _ _ st0) as [[[|] st1] | |] eqn:F;
      try discriminate.
    + destruct (Playback.restWav st1); discriminate.
    + intros [= <- <-]. split; [reflexivity |].
      apply fill_paused in F. congruence.
Qed.

Lemma lookup_miss_writes_nothing_witness :
  let st := Playback.mkState (100 # 48000) true [1 # 2; 1 # 4] 0 None 0 false
                             invalidateCache in
  let out := Playback.mkOutput [9; 9; 9; 9] [] in
  match Playback.playback 48000 [] (repeat 1 200) [mkGrain 0 4 0]
                          (fun _ => 1) (fun x => x) (fun _ => 0%Z) 10 4 st out with
  | Playback.Ok (Playback.ExitLookupMiss, st', out') =>
    out' = out /\ Playback.audioPaused st' = Playback.audioPaused st
  | _ => False
  end.
Proof.
  intros st out.
  destruct (Playback.playback 48000 [] (repeat 1 200) [mkGrain 0 4 0]
              (fun _ => 1) (fun x => x) (fun _ => 0%Z) 10 4 st out)
    as [[[[| |] st'] out'] | |] eqn:E; try (vm_compute in E; discriminate).
  apply (lookup_miss_writes_nothing _ _ _ _ _ _ _ _ _ _ _ _ _ E).
Defined.

(** ** The waveform pyramid *)

Section PeaksFacts.

Import Peaks.

Variable data : list Q.

Local Abbreviation isMinMaxOf := (Peaks.isMinMaxOf data).
Local Abbreviation levelOf := (Peaks.levelOf data).

Lemma fmin_le_l a b : fmin a b <= a.
Proof. unfold fmin. destruct (Qlt_bool b a) eqn:E; [apply Qlt_bool_iff in E | ]; lra. Qed.

Lemma fmin_le_r a b : fmin a b <= b.
Proof. unfold fmin. destruct (Qlt_bool b a) eqn:E; [| apply Qlt_bool_false in E]; lra. Qed.

Lemma fmax_ge_l a b : a <= fmax a b.
Proof. unfold fmax. destruct (Qlt_bool a b) eqn:E; [apply Qlt_bool_iff in E | ]; lra. Qed.

Lemma fmax_ge_r a b : b <= fmax a b.
Proof. unfold fmax. destruct (Qlt_bool a b) eqn:E; [| apply Qlt_bool_false in E]; lra. Qed.

Lemma shiftl_1 k : (0 <= k)%Z -> Z.shiftl 1 k = (2 ^ k)%Z.
Proof. intros H. rewrite Z.shiftl_mul_pow2 by exact H. lia. Qed.

(** Two ranges that make up a third: the merged pair is the smallest and
    the largest of the third. *)
Lemma merge_isMinMaxOf a b p a' b' q a0 b0 :
  isMinMaxOf a b p -> isMinMaxOf a' b' q ->
  (forall j, (a0 <= j < b0)%Z <-> (a <= j < b)%Z \/ (a' <= j < b')%Z) ->
  isMinMaxOf a0 b0 (merge p q).
Proof.
  intros (P1 & (jp & Hjp & Ep) & (kp & Hkp & Fp)) (Q1 & (jq & Hjq & Eq) & (kq & Hkq & Fq)) U.
  split; [| split].
  - intros j Hj. apply U in Hj as [Hj | Hj].
    + destruct (P1 j Hj) as (x & Hx & H1 & H2). exists x. split; [exact Hx |]. simpl.
      pose proof (fmin_le_l (fst p) (fst q)). pose proof (fmax_ge_l (snd p) (snd q)).
      split; lra.
    + destruct (Q1 j Hj) as (x & Hx & H1 & H2). exists x. split; [exact Hx |]. simpl.
      pose proof (fmin_le_r (fst p) (fst q)). pose proof (fmax_ge_r (snd p) (snd q)).
      split; lra.
  - simpl. unfold fmin. destruct (Qlt_bool (fst q) (fst p)).
    + exists jq. split; [apply U; right; exact Hjq | exact Eq].
    + exists jp. split; [apply U; left; exact Hjp | exact Ep].
  - simpl. unfold fmax. destruct (Qlt_bool (snd p) (snd q)).
    + exists kq. split; [apply U; right; exact Hkq | exact Fq].
    + exists kp. split; [apply U; left; exact Hkp | exact Fp].
Qed.

Lemma sampleAt_isMinMaxOf idx :
  (0 <= idx < sizeOf data)%Z ->
  exists p, sampleAt data idx = Some p /\ isMinMaxOf idx (idx + 1) p.
Proof.
  intros H. destruct (readSample_in_range data idx H) as [x Hx].
  exists (x, x). unfold sampleAt. rewrite Hx. split; [reflexivity |].
  split; [| split].
  - intros j Hj. replace j with idx by lia. exists x. simpl. split; [exact Hx | split; lra].
  - exists idx. split; [lia | exact Hx].
  - exists idx. split; [lia | exact Hx].
Qed.

(** One level from the one below: blocks twice as wide. *)
Lemma buildLevel_blocks (below : Z -> option (Q * Q)) (w count : Z) indices :
  (forall k, (0 <= k < count)%Z ->
             exists p, below k = Some p /\ isMinMaxOf (k * w) ((k + 1) * w) p) ->
  Forall (fun i => 0 <= i /\ i * 2 + 1 < count)%Z indices ->
  exists level,
    buildLevel below indices = Some level /\
    Forall2 (fun i p => isMinMaxOf (i * (2 * w)) ((i + 1) * (2 * w)) p) indices level.
Proof.
  intros Hbelow. induction 1 as [| i rest [Hi1 Hi2] _ (level & E & F)]; simpl.
  - exists []. split; [reflexivity | constructor].
  - destruct (Hbelow (i * 2)%Z) as (p & -> & Hp); [lia |].
    destruct (Hbelow (i * 2 + 1)%Z) as (q & -> & Hq); [lia |].
    rewrite E. eexists. split; [reflexivity |]. constructor; [| exact F].
    eapply merge_isMinMaxOf; [exact Hp | exact Hq |]. intros j. nia.
Qed.

Lemma zrange_lookup n (k : nat) :
  (Z.of_nat k < n)%Z -> zrange 0 n !! k = Some (Z.of_nat k).
Proof.
  intros H. unfold zrange. rewrite list_lookup_fmap.
  rewrite lookup_seq_lt by lia. reflexivity.
Qed.

Lemma levelOf_zrange (w : Z) (level : list (Q * Q)) :
  (0 <= sizeOf data / w)%Z ->
  Forall2 (fun i p => isMinMaxOf (i * w) ((i + 1) * w) p) (zrange 0 (sizeOf data / w)) level ->
  levelOf w level.
Proof.
  intros Hn F. split.
  - apply Forall2_length in F. rewrite <- F. unfold zrange.
    rewrite length_map, length_seq. lia.
  - intros i Hi.
    destruct (Forall2_lookup_l _ _ _ (Z.to_nat i) i F) as (p & Hp & HP).
    { rewrite zrange_lookup by lia. f_equal. lia. }
    exists p. split; [| exact HP]. unfold pickAt. fails (i <? 0)%Z. exact Hp.
Qed.

Lemma half_blocks (size w i : Z) :
  (0 < w)%Z -> (0 <= i < size / (w * 2))%Z -> (0 <= i /\ i * 2 + 1 < size / w)%Z.
Proof.
  intros Hw Hi. rewrite <- Z.div_div in Hi by lia.
  pose proof (Z.mul_div_le (size / w) 2 ltac:(lia)). lia.
Qed.

(** The level above a level, as [App::calcPicks] builds it. *)
Lemma buildLevel_levelOf (below : Z -> option (Q * Q)) (w : Z) :
  (0 < w)%Z ->
  (forall k, (0 <= k < sizeOf data / w)%Z ->
             exists p, below k = Some p /\ isMinMaxOf (k * w) ((k + 1) * w) p) ->
  exists level,
    buildLevel below (zrange 0 (sizeOf data ÷ (w * 2))) = Some level /\
    levelOf (w * 2) level.
Proof.
  intros Hw Hbelow.
  assert (Hsize : (0 <= sizeOf data)%Z) by (unfold sizeOf; lia).
  rewrite Z.quot_div_nonneg by lia.
  destruct (buildLevel_blocks below w (sizeOf data / w)
              (zrange 0 (sizeOf data / (w * 2))) Hbelow) as (level & E & F).
  { apply Forall_forall. intros i Hi. apply list_elem_of_In, in_zrange in Hi.
    apply half_blocks; assumption. }
  exists level. split; [exact E |].
  apply levelOf_zrange; [apply Z.div_pos; lia |].
  rewrite (Z.mul_comm w 2) in *. exact F.
Qed.

Lemma upperLevels_pyramid fuel lvl prev :
  (1 <= lvl)%Z -> levelOf (2 ^ lvl) prev -> (1 <= fuel)%nat ->
  (sizeOf data <= 2 ^ (lvl + Z.of_nat fuel))%Z ->
  exists levels,
    upperLevels data fuel lvl prev = Some levels /\
    (forall k : nat, (k < length levels)%nat <-> (2 ^ (lvl + Z.of_nat k + 1) < sizeOf data)%Z) /\
    (forall (k : nat) level, levels !! k = Some level ->
                             levelOf (2 ^ (lvl + Z.of_nat k + 1)) level).
Proof.
  revert lvl prev. induction fuel as [| fuel IH]; intros lvl prev Hlvl Hprev Hfuel Hsize;
    [lia |].
  cbn [upperLevels]. rewrite shiftl_1 by lia.
  destruct (sizeOf data <=? 2 ^ (lvl + 1))%Z eqn:C.
  - apply Z.leb_le in C. exists []. split; [reflexivity |]. split.
    + intros k. simpl. split; [lia |]. intros H.
      assert (2 ^ (lvl + 1) <= 2 ^ (lvl + Z.of_nat k + 1))%Z
        by (apply Z.pow_le_mono_r; lia).
      lia.
    + intros k level H. rewrite lookup_nil in H. discriminate.
  - apply Z.leb_gt in C.
    assert (Hw : (0 < 2 ^ lvl)%Z) by (apply Z.pow_pos_nonneg; lia).
    assert (Ew : (2 ^ (lvl + 1) = 2 ^ lvl * 2)%Z) by (rewrite Z.pow_add_r by lia; lia).
    destruct (buildLevel_levelOf (pickAt prev) (2 ^ lvl) Hw (proj2 Hprev))
      as (level & E & Hlevel).
    rewrite <- Ew in E, Hlevel. rewrite E.
    assert (Hf : (1 <= fuel)%nat).
    { destruct fuel; [| lia]. simpl in Hsize. lia. }
    destruct (IH (lvl + 1)%Z level) as (levels & -> & H1 & H2);
      [lia | exact Hlevel | exact Hf
       | replace (lvl + 1 + Z.of_nat fuel)%Z with (lvl + Z.of_nat (S fuel))%Z by lia;
         exact Hsize |].
    exists (level :: levels). split; [reflexivity |]. split.
    + intros [| k]; simpl.
      * rewrite Z.add_0_r. split; [intros _; exact C | lia].
      * rewrite <- Nat.succ_lt_mono, H1.
        match goal with |- _ <-> (2 ^ ?e < _)%Z =>
          replace e with (lvl + 1 + Z.of_nat k + 1)%Z by lia
        end.
        reflexivity.
    + intros [| k] lv; simpl.
      * intros [= <-]. rewrite Z.add_0_r. exact Hlevel.
      * intros H. apply H2 in H.
        match goal with |- Peaks.levelOf _ (2 ^ ?e) _ =>
          replace e with (lvl + 1 + Z.of_nat k + 1)%Z by lia
        end.
        exact H.
Qed.

(** [App::calcPicks] builds the pyramid of [data], within
    [log2(data.size())] iterations of its outer loop. *)
Lemma calcPicks_pyramid fuel :
  (Z.log2 (sizeOf data) <= Z.of_nat fuel)%Z ->
  exists picks, calcPicks data fuel = Some picks /\ pyramid data picks.
Proof.
  intros Hfuel. unfold calcPicks. rewrite shiftl_1 by lia.
  change (2 ^ (0 + 1))%Z with 2%Z.
  destruct (sizeOf data <=? 2)%Z eqn:C.
  - apply Z.leb_le in C. exists []. split; [reflexivity |]. split.
    + intros l. simpl. split; [lia |]. intros H.
      assert (2 ^ 1 <= 2 ^ (Z.of_nat l + 1))%Z by (apply Z.pow_le_mono_r; lia).
      lia.
    + intros l level H. rewrite lookup_nil in H. discriminate.
  - apply Z.leb_gt in C.
    destruct (buildLevel_levelOf (sampleAt data) 1 ltac:(lia)) as (level & E & Hlevel).
    { intros k Hk. rewrite Z.div_1_r in Hk.
      destruct (sampleAt_isMinMaxOf k Hk) as (p & Hp & HP).
      exists p. split; [exact Hp |].
      replace (k * 1)%Z with k by lia. replace ((k + 1) * 1)%Z with (k + 1)%Z by lia.
      exact HP. }
    change (1 * 2)%Z with 2%Z in E, Hlevel. rewrite E.
    assert (Hlog : (1 <= Z.log2 (sizeOf data))%Z).
    { apply Z.log2_le_pow2; simpl; lia. }
    destruct (upperLevels_pyramid fuel 1 level) as (levels & -> & H1 & H2);
      [lia | exact Hlevel | lia | |].
    { pose proof (Z.log2_spec (sizeOf data) ltac:(lia)) as [_ Hs].
      assert (2 ^ Z.succ (Z.log2 (sizeOf data)) <= 2 ^ (1 + Z.of_nat fuel))%Z
        by (apply Z.pow_le_mono_r; lia).
      lia. }
    exists (level :: levels). split; [reflexivity |]. split.
    + intros [| l]; simpl.
      * split; [intros _; exact C | lia].
      * rewrite <- Nat.succ_lt_mono, H1.
        match goal with |- _ <-> (2 ^ ?e < _)%Z =>
          replace e with (1 + Z.of_nat l + 1)%Z by lia
        end.
        reflexivity.
    + intros [| l] lv; simpl.
      * intros [= <-]. exact Hlevel.
      * intros H. apply H2 in H.
        match goal with |- Peaks.levelOf _ (2 ^ ?e) _ =>
          replace e with (1 + Z.of_nat l + 1)%Z by lia
        end.
        exact H.
Qed.

Lemma blockStart_bounds start end_ :
  (0 <= start < end_)%Z ->
  let lvl := Z.log2 (end_ - start) in
  (0 <= blockStart start end_ <= start)%Z /\
  (start < blockStart start end_ + 2 ^ lvl)%Z /\
  (0 < 2 ^ lvl <= end_ - start)%Z.
Proof.
  intros H lvl. unfold blockStart. fold lvl.
  pose proof (Z.log2_nonneg (end_ - start)) as Hl. fold lvl in Hl.
  pose proof (Z.log2_spec (end_ - start) ltac:(lia)) as [Hw _]. fold lvl in Hw.
  rewrite shiftl_1 by exact Hl.
  assert (Hp : (0 < 2 ^ lvl)%Z) by (apply Z.pow_pos_nonneg; lia).
  rewrite Z.quot_div_nonneg by lia.
  pose proof (Z.mul_div_le start _ Hp).
  pose proof (Z.mul_succ_div_gt start _ Hp).
  assert (0 <= start / 2 ^ lvl)%Z by (apply Z.div_pos; lia).
  nia.
Qed.

(** A range that starts at a multiple of [2^lvl] and is shorter than
    [2^(lvl + 1)] starts at the start of its block. *)
Lemma blockStart_aligned k lvl end_ :
  (0 <= lvl)%Z -> (0 <= k)%Z -> (k * 2 ^ lvl < end_ < k * 2 ^ lvl + 2 ^ (lvl + 1))%Z ->
  blockStart (k * 2 ^ lvl) end_ = (k * 2 ^ lvl)%Z.
Proof.
  intros Hlvl Hk H. unfold blockStart.
  set (len := (end_ - k * 2 ^ lvl)%Z).
  pose proof (Z.log2_nonneg len) as Hl.
  assert (Hle : (Z.log2 len <= lvl)%Z).
  { assert (Z.log2 len < lvl + 1)%Z by (apply Z.log2_lt_pow2; unfold len; lia). lia. }
  rewrite shiftl_1 by exact Hl.
  replace (k * 2 ^ lvl)%Z with (k * 2 ^ (lvl - Z.log2 len) * 2 ^ Z.log2 len)%Z.
  - rewrite Z.quot_mul; [reflexivity |].
    assert (0 < 2 ^ Z.log2 len)%Z by (apply Z.pow_pos_nonneg; lia). lia.
  - rewrite <- Z.mul_assoc, <- Z.pow_add_r by lia. do 2 f_equal. lia.
Qed.

Variable picks : list (list (Q * Q)).

Hypothesis picks_pyramid : pyramid data picks.
Hypothesis size_int : (sizeOf data < 2 ^ 31)%Z.

Local Abbreviation getMinMaxFromRange := (Peaks.getMinMaxFromRange data picks).

(** The entry the call starts from is the block that holds [start]. *)
Lemma levelEntry_block start end_ :
  (0 <= start < end_)%Z -> (end_ < sizeOf data)%Z -> (2 <= end_ - start)%Z ->
  let lvl := Z.log2 (end_ - start) in
  exists p,
    levelEntry picks lvl (start ÷ Z.shiftl 1 lvl) = Some p /\
    isMinMaxOf (blockStart start end_) (blockStart start end_ + 2 ^ lvl) p /\
    (blockStart start end_ + 2 ^ lvl <= end_)%Z.
Proof.
  intros Hr Hend Hlen lvl.
  pose proof (Z.log2_spec (end_ - start) ltac:(lia)) as [Hw _]. fold lvl in Hw.
  assert (Hlvl : (1 <= lvl)%Z) by (apply Z.log2_le_pow2; [lia | simpl; lia]).
  assert (Hlt : (lvl < 31)%Z) by (apply Z.log2_lt_pow2; lia).
  assert (Hp : (0 < 2 ^ lvl)%Z) by (apply Z.pow_pos_nonneg; lia).
  unfold blockStart. fold lvl.
  rewrite shiftl_1 by lia.
  rewrite Z.quot_div_nonneg in * by lia.
  set (lvlStart := (start / 2 ^ lvl)%Z) in *.
  pose proof (Z.mul_succ_div_gt start _ Hp) as Hgt. fold lvlStart in Hgt.
  pose proof (Z.mul_div_le start _ Hp) as Hle. fold lvlStart in Hle.
  assert (Hls : (0 <= lvlStart)%Z) by (apply Z.div_pos; lia).
  destruct picks_pyramid as [Hcount Hlevels].
  unfold levelEntry, wrap64. rewrite Z.mod_small by lia.
  assert (Hin : (Z.to_nat (lvl - 1) < length picks)%nat).
  { apply Hcount. replace (Z.of_nat (Z.to_nat (lvl - 1)) + 1)%Z with lvl by lia. lia. }
  fails (Z.of_nat (length picks) <=? lvl - 1)%Z.
  destruct (lookup_lt_is_Some_2 _ _ Hin) as [level Hlevel]. rewrite Hlevel.
  apply Hlevels in Hlevel.
  replace (Z.of_nat (Z.to_nat (lvl - 1)) + 1)%Z with lvl in Hlevel by lia.
  destruct Hlevel as [Hlen' Hent].
  assert (Hq : (lvlStart + 1 <= sizeOf data / 2 ^ lvl)%Z)
    by (apply Z.div_le_lower_bound; lia).
  assert (sizeOf data / 2 ^ lvl <= sizeOf data)%Z
    by (apply Z.div_le_upper_bound; nia).
  rewrite Hlen'. unfold wrap64. rewrite Z.mod_small by lia.
  unfold to_int. rewrite (Z.mod_small (_ + 2 ^ 31)) by lia.
  fails (sizeOf data / 2 ^ lvl + 2 ^ 31 - 2 ^ 31 <=? lvlStart)%Z.
  destruct (Hent lvlStart ltac:(lia)) as (p & Hp1 & Hp2).
  exists p. split; [exact Hp1 |]. split; [| lia].
  replace (lvlStart * 2 ^ lvl + 2 ^ lvl)%Z with ((lvlStart + 1) * 2 ^ lvl)%Z by lia.
  exact Hp2.
Qed.

(** On a range inside [data] the call returns the smallest and the
    largest sample from the start of the first block to [end]. *)
Lemma getMinMaxFromRange_block fuel start end_ :
  (0 <= start < end_)%Z -> (end_ < sizeOf data)%Z -> (end_ - start < Z.of_nat fuel)%Z ->
  exists p,
    getMinMaxFromRange fuel start end_ = Some p /\
    isMinMaxOf (blockStart start end_) end_ p.
Proof.
  revert start end_. induction fuel as [| fuel IH]; intros start end_ Hr Hend Hfuel; [lia |].
  assert (Hsize : (0 <= sizeOf data)%Z) by (unfold sizeOf; lia).
  cbn [Peaks.getMinMaxFromRange]. rewrite to_int_wrap64 by lia.
  fails (end_ <=? start)%Z. fails (start <? 0)%Z. fails (end_ <? 0)%Z.
  fails (sizeOf data <=? start)%Z. fails (sizeOf data <=? end_)%Z. cbn [orb].
  destruct (end_ - start =? 1)%Z eqn:L1.
  { apply Z.eqb_eq in L1.
    destruct (sampleAt_isMinMaxOf start ltac:(lia)) as (p & -> & Hp).
    exists p. split; [reflexivity |].
    unfold blockStart. rewrite L1. simpl Z.log2. rewrite shiftl_1 by lia.
    rewrite Z.quot_1_r, Z.mul_1_r. replace end_ with (start + 1)%Z by lia. exact Hp. }
  apply Z.eqb_neq in L1.
  destruct (levelEntry_block start end_ Hr Hend ltac:(lia)) as (p0 & -> & Hp0 & Hright).
  pose proof (blockStart_bounds start end_ Hr) as (Hb1 & Hb2 & Hb3).
  set (lvl := Z.log2 (end_ - start)) in *.
  assert (Hlvl : (0 <= lvl)%Z) by apply Z.log2_nonneg.
  pose proof (Z.log2_spec (end_ - start) ltac:(lia)) as [_ Hw]. fold lvl in Hw.
  rewrite Z.pow_succ_r in Hw by lia.
  change (start ÷ Z.shiftl 1 lvl * Z.shiftl 1 lvl)%Z with (blockStart start end_).
  replace ((start ÷ Z.shiftl 1 lvl + 1) * Z.shiftl 1 lvl)%Z
    with (blockStart start end_ + 2 ^ lvl)%Z
    by (unfold blockStart; fold lvl; rewrite shiftl_1 by lia; lia).
  set (leftEnd := blockStart start end_) in *.
  assert (L : exists p1,
            (if (start <=? leftEnd)%Z
             then match getMinMaxFromRange fuel start leftEnd with
                  | Some leftMinMax => Some (merge p0 leftMinMax)
                  | None => None
                  end
             else Some p0) = Some p1 /\
            isMinMaxOf leftEnd (leftEnd + 2 ^ lvl) p1).
  { destruct (start <=? leftEnd)%Z eqn:LE; [| exists p0; split; [reflexivity | exact Hp0]].
    apply Z.leb_le in LE.
    destruct fuel as [| fuel']; [lia |].
    cbn [Peaks.getMinMaxFromRange]. rewrite to_int_wrap64 by lia.
    holds (leftEnd <=? start)%Z. holds (0 <=? start)%Z. holds (start <? sizeOf data)%Z.
    cbn [andb].
    destruct (sampleAt_isMinMaxOf start ltac:(lia)) as (q & -> & Hq).
    exists (merge p0 q). split; [reflexivity |].
    eapply merge_isMinMaxOf; [exact Hp0 | exact Hq |]. intros j. lia. }
  destruct L as (p1 & -> & Hp1).
  destruct (leftEnd + 2 ^ lvl <? end_)%Z eqn:R.
  - apply Z.ltb_lt in R.
    destruct (IH (leftEnd + 2 ^ lvl)%Z end_) as (p2 & -> & Hp2); [lia | lia | lia |].
    exists (merge p1 p2). split; [reflexivity |].
    assert (Ea : blockStart (leftEnd + 2 ^ lvl) end_ = (leftEnd + 2 ^ lvl)%Z).
    { assert (El : leftEnd = (start / 2 ^ lvl * 2 ^ lvl)%Z).
      { unfold leftEnd, blockStart. fold lvl. rewrite shiftl_1 by lia.
        rewrite Z.quot_div_nonneg by lia. reflexivity. }
      assert (0 <= start / 2 ^ lvl)%Z by (apply Z.div_pos; lia).
      rewrite El in *.
      replace (start / 2 ^ lvl * 2 ^ lvl + 2 ^ lvl)%Z
        with ((start / 2 ^ lvl + 1) * 2 ^ lvl)%Z in * by lia.
      apply blockStart_aligned; [lia | lia |].
      rewrite Z.pow_add_r by lia. lia. }
    rewrite Ea in Hp2.
    eapply merge_isMinMaxOf; [exact Hp1 | exact Hp2 |]. intros j. lia.
  - apply Z.ltb_ge in R. exists p1. split; [reflexivity |].
    replace end_ with (leftEnd + 2 ^ lvl)%Z by lia. exact Hp1.
Qed.

(** With the pyramid of [data] the call returns a pair for every
    [start] and [end]; [{0, 0}] for a range that starts below 0 or ends
    at or after [data.size()], and the sample at [start] where [end] is
    not above [start] and [start] is inside [data]. *)
Lemma getMinMaxFromRange_total fuel start end_ :
  (Z.max 0 (end_ - start) < Z.of_nat fuel)%Z ->
  exists p,
    getMinMaxFromRange fuel start end_ = Some p /\
    ((start < end_)%Z -> (start < 0 \/ sizeOf data <= end_)%Z -> p = (0, 0)) /\
    ((end_ <= start)%Z ->
     p = match readSample data start with Some x => (x, x) | None => (0, 0) end).
Proof.
  intros Hfuel.
  assert (Hsize : (0 <= sizeOf data)%Z) by (unfold sizeOf; lia).
  destruct (Z_le_gt_dec end_ start) as [Hle | Hgt].
  - destruct fuel as [| fuel]; [lia |].
    cbn [Peaks.getMinMaxFromRange]. rewrite to_int_wrap64 by lia.
    holds (end_ <=? start)%Z.
    destruct ((0 <=? start)%Z && (start <? sizeOf data)%Z) eqn:In.
    + apply andb_true_iff in In as [I1 I2]. apply Z.leb_le in I1. apply Z.ltb_lt in I2.
      destruct (readSample_in_range data start ltac:(lia)) as [x Hx].
      unfold sampleAt. rewrite Hx. exists (x, x). split; [reflexivity |].
      split; [lia | reflexivity].
    + exists (0, 0). split; [reflexivity |]. split; [lia |]. intros _.
      unfold readSample.
      apply andb_false_iff in In as [I | I].
      * apply Z.leb_gt in I. holds (start <? 0)%Z. reflexivity.
      * apply Z.ltb_ge in I. destruct (start <? 0)%Z; [reflexivity |].
        replace (nth_error data (Z.to_nat start)) with (@None Q); [reflexivity |].
        symmetry. apply nth_error_None. unfold sizeOf in I. lia.
  - destruct (Z_lt_dec start 0) as [Hneg | Hnn];
      [| destruct (Z_le_dec (sizeOf data) end_) as [Hbig | Hin]].
    + destruct fuel as [| fuel]; [lia |].
      cbn [Peaks.getMinMaxFromRange]. fails (end_ <=? start)%Z. holds (start <? 0)%Z.
      cbn [orb]. exists (0, 0). split; [reflexivity |]. split; [reflexivity | lia].
    + destruct fuel as [| fuel]; [lia |].
      cbn [Peaks.getMinMaxFromRange]. rewrite to_int_wrap64 by lia.
      fails (end_ <=? start)%Z. fails (start <? 0)%Z. fails (end_ <? 0)%Z. cbn [orb].
      holds (sizeOf data <=? end_)%Z. rewrite orb_true_r.
      exists (0, 0). split; [reflexivity |]. split; [reflexivity | lia].
    + destruct (getMinMaxFromRange_block fuel start end_) as (p & Hp & _); [lia | lia | lia |].
      exists p. split; [exact Hp |]. split; lia.
Qed.

End PeaksFacts.

(** X15: [App::calcPicks] returns within [log2(data.size())] iterations
    of its outer loop without reading outside a vector; level [l] of
    [picks] exists exactly when [2^(l + 1) < data.size()], has
    [data.size() / 2^(l + 1)] entries, and entry [i] holds the smallest
    and the largest sample of the block that starts at [i * 2^(l + 1)]. *)
Theorem calcPicks_blocks (data : list Q) (fuel : nat) :
  (sizeOf data <= 2 ^ 30)%Z -> (Z.log2 (sizeOf data) <= Z.of_nat fuel)%Z ->
  exists picks,
    Peaks.calcPicks data fuel = Some picks /\
    (forall l : nat, (l < length picks)%nat <-> (2 ^ (Z.of_nat l + 1) < sizeOf data)%Z) /\
    (forall (l : nat) level,
       picks !! l = Some level ->
       Z.of_nat (length level) = (sizeOf data / 2 ^ (Z.of_nat l + 1))%Z /\
       forall i, (0 <= i < sizeOf data / 2 ^ (Z.of_nat l + 1))%Z ->
                 exists p,
                   Peaks.pickAt level i = Some p /\
                   Peaks.isMinMaxOf data (i * 2 ^ (Z.of_nat l + 1))
                                    ((i + 1) * 2 ^ (Z.of_nat l + 1)) p).
Proof.
  intros _ Hfuel.
  destruct (calcPicks_pyramid data fuel Hfuel) as (picks & E & H1 & H2).
  exists picks. split; [exact E |]. split; [exact H1 |].
  intros l level Hl. exact (H2 l level Hl).
Qed.

Lemma calcPicks_blocks_witness :
  exists picks,
    Peaks.calcPicks DemoPeaks.data 3 = Some picks /\
    (forall l : nat,
       (l < length picks)%nat
       <-> (2 ^ (Z.of_nat l + 1) < sizeOf DemoPeaks.data)%Z) /\
    (forall (l : nat) level,
       picks !! l = Some level ->
       Z.of_nat (length level)
       = (sizeOf DemoPeaks.data / 2 ^ (Z.of_nat l + 1))%Z /\
       forall i,
         (0 <= i < sizeOf DemoPeaks.data / 2 ^ (Z.of_nat l + 1))%Z ->
         exists p,
           Peaks.pickAt level i = Some p /\
           Peaks.isMinMaxOf DemoPeaks.data
                            (i * 2 ^ (Z.of_nat l + 1)) ((i + 1) * 2 ^ (Z.of_nat l + 1)) p).
Proof.
  apply (calcPicks_blocks DemoPeaks.data 3);
    [vm_compute; discriminate | vm_compute; discriminate].
Defined.

(** X16: with the [picks] of [App::calcPicks] and
    [0 <= start < end < data.size()], [getMinMaxFromRange(start, end)]
    returns the smallest and the largest sample of [data[a .. end)],
    [a] being [start] rounded down to a multiple of
    [2^floor(log2(end - start))]: the pair brackets every sample of the
    range asked for, and takes in fewer than [end - start] samples before
    [start]. *)
Theorem getMinMaxFromRange_block_range
    (data : list Q) (fuel0 : nat) (picks : list (list (Q * Q)))
    (fuel : nat) (start end_ : Z) :
  (sizeOf data <= 2 ^ 30)%Z -> (Z.log2 (sizeOf data) <= Z.of_nat fuel0)%Z ->
  Peaks.calcPicks data fuel0 = Some picks ->
  (0 <= start < end_)%Z -> (end_ < sizeOf data)%Z -> (end_ - start < Z.of_nat fuel)%Z ->
  exists p,
    Peaks.getMinMaxFromRange data picks fuel start end_ = Some p /\
    Peaks.isMinMaxOf data (Peaks.blockStart start end_) end_ p /\
    (start - (end_ - start) < Peaks.blockStart start end_ <= start)%Z /\
    (forall j, (start <= j < end_)%Z ->
               exists x, readSample data j = Some x /\ fst p <= x /\ x <= snd p).
Proof.
  intros Hsize Hfuel0 Hpicks Hr Hend Hfuel.
  destruct (calcPicks_pyramid data fuel0 Hfuel0) as (picks' & E & Hpyr).
  rewrite Hpicks in E. injection E as <-.
  destruct (getMinMaxFromRange_block data picks Hpyr ltac:(lia) fuel start end_ Hr Hend Hfuel)
    as (p & Hp & Hmm).
  destruct (blockStart_bounds start end_ Hr) as (B1 & B2 & B3).
  exists p. split; [exact Hp |]. split; [exact Hmm |]. split; [lia |].
  intros j Hj. apply (proj1 Hmm). lia.
Qed.

Lemma getMinMaxFromRange_block_range_witness :
  exists p,
    Peaks.getMinMaxFromRange DemoPeaks.data
      DemoPeaks.picks
      6 3 8 = Some p /\
    Peaks.isMinMaxOf DemoPeaks.data (Peaks.blockStart 3 8) 8 p /\
    (3 - (8 - 3) < Peaks.blockStart 3 8 <= 3)%Z /\
    (forall j, (3 <= j < 8)%Z ->
               exists x, readSample DemoPeaks.data j = Some x /\
                         fst p <= x /\ x <= snd p).
Proof.
  apply (getMinMaxFromRange_block_range DemoPeaks.data 3
           DemoPeaks.picks
           6 3 8);
    [vm_compute; discriminate | vm_compute; discriminate | vm_compute; reflexivity
     | lia | vm_compute; reflexivity | lia].
Defined.

(** X17: with the [picks] of [App::calcPicks],
    [getMinMaxFromRange] returns a pair for every [start] and [end]
    without reading outside a vector: [{0, 0}] for a range that starts
    below 0 or ends at or after [data.size()], and, where [end] is not
    above [start], the sample at [start], or [{0, 0}] outside [data]. *)
Theorem getMinMaxFromRange_defined
    (data : list Q) (fuel0 : nat) (picks : list (list (Q * Q)))
    (fuel : nat) (start end_ : Z) :
  (sizeOf data <= 2 ^ 30)%Z -> (Z.log2 (sizeOf data) <= Z.of_nat fuel0)%Z ->
  Peaks.calcPicks data fuel0 = Some picks ->
  (Z.max 0 (end_ - start) < Z.of_nat fuel)%Z ->
  exists p,
    Peaks.getMinMaxFromRange data picks fuel start end_ = Some p /\
    ((start < end_)%Z -> (start < 0 \/ sizeOf data <= end_)%Z -> p = (0, 0)) /\
    ((end_ <= start)%Z ->
     p = match readSample data start with Some x => (x, x) | None => (0, 0) end).
Proof.
  intros Hsize Hfuel0 Hpicks Hfuel.
  destruct (calcPicks_pyramid data fuel0 Hfuel0) as (picks' & E & Hpyr).
  rewrite Hpicks in E. injection E as <-.
  apply getMinMaxFromRange_total; [exact Hpyr | lia | exact Hfuel].
Qed.

Lemma getMinMaxFromRange_defined_witness :
  exists p,
    Peaks.getMinMaxFromRange DemoPeaks.data
      DemoPeaks.picks
      8 3 10 = Some p /\
    ((3 < 10)%Z -> (3 < 0 \/ sizeOf DemoPeaks.data <= 10)%Z -> p = (0, 0)) /\
    ((10 <= 3)%Z ->
     p = match readSample DemoPeaks.data 3 with
         | Some x => (x, x)
         | None => (0, 0)
         end).
Proof.
  apply (getMinMaxFromRange_defined DemoPeaks.data 3
           DemoPeaks.picks
           8 3 10);
    [vm_compute; discriminate | vm_compute; discriminate | vm_compute; reflexivity | lia].
Defined.

(** ** Editing the markers *)

Section RippleFacts.

Variable sampleRate : Z.

Local Abbreviation sumUpTo := Shape.sumUpTo.
Local Abbreviation sumDTime := Shape.sumDTime.
Local Abbreviation ascending := Shape.ascending.

Lemma sumDTime_app l1 l2 : sumDTime (l1 ++ l2) == sumDTime l1 + sumDTime l2.
Proof.
  induction l1 as [| m rest IH]; simpl; [ring |].
  unfold Shape.sumDTime in *. simpl. rewrite IH. ring.
Qed.

Lemma sumUpTo_app s l1 l2 : sumUpTo s (l1 ++ l2) == sumUpTo s l1 + sumUpTo s l2.
Proof. induction l1 as [| m rest IH]; simpl; [ring |]. rewrite IH. ring. Qed.

Lemma sumUpTo_before s l :
  Forall (fun m => (sample m <= s)%Z) l -> sumUpTo s l == sumDTime l.
Proof.
  induction 1 as [| m rest Hm _ IH]; simpl; [reflexivity |].
  holds (sample m <=? s)%Z. unfold Shape.sumDTime in *. simpl. rewrite IH. reflexivity.
Qed.

Lemma sumUpTo_after s l :
  Forall (fun m => (s < sample m)%Z) l -> sumUpTo s l == 0.
Proof.
  induction 1 as [| m rest Hm _ IH]; simpl; [reflexivity |].
  fails (sample m <=? s)%Z. rewrite IH. ring.
Qed.

Lemma ascending_above l p :
  ascending l p = true -> Forall (fun m => (p < sample m)%Z) l.
Proof.
  revert p. induction l as [| m rest IH]; intros p H; [constructor |].
  simpl in H. apply andb_true_iff in H as [H1 H2]. apply Z.ltb_lt in H1.
  constructor; [exact H1 |].
  eapply Forall_impl; [apply IH, H2 |]. simpl. intros x Hx. lia.
Qed.

Lemma ascending_lower l p q :
  ascending l p = true -> (q <= p)%Z -> ascending l q = true.
Proof.
  destruct l as [| m rest]; [reflexivity |]. simpl. intros H Hq.
  apply andb_true_iff in H as [H1 H2]. apply Z.ltb_lt in H1.
  rewrite H2. holds (q <? sample m)%Z. reflexivity.
Qed.

(** An ascending list about one of its markers. *)
Lemma ascending_split l1 m l2 p :
  ascending (l1 ++ m :: l2) p = true ->
  ascending (l1 ++ [m]) p = true /\
  Forall (fun x => (sample x <= sample m)%Z) (l1 ++ [m]) /\
  Forall (fun x => (sample m < sample x)%Z) l2.
Proof.
  revert p. induction l1 as [| b l1 IH]; intros p H; simpl in H.
  - apply andb_true_iff in H as [H1 H2]. simpl. rewrite H1.
    split; [reflexivity |]. split; [repeat constructor; lia |].
    apply ascending_above, H2.
  - apply andb_true_iff in H as [H1 H2].
    destruct (IH _ H2) as (A & B & C). simpl. rewrite H1, A.
    split; [reflexivity |]. split; [| exact C].
    constructor; [| exact B].
    pose proof (ascending_last _ _ _ A). lia.
Qed.

(** At the sample of a marker the time is the unwarped time plus the
    [dTime]s of the markers up to that sample. *)
Lemma sample2Time_at_sample ms s :
  ascending ms 0 = true -> In s (map sample ms) ->
  Warp.sample2Time_uncached sampleRate ms s
  == inject_Z s / inject_Z sampleRate + sumUpTo s ms.
Proof.
  intros Hasc Hin. apply in_map_iff in Hin as (m & <- & Hin).
  apply in_split in Hin as (l1 & l2 & ->).
  destruct (ascending_split _ _ _ _ Hasc) as (A & B & C).
  pose proof (ascending_last _ _ _ A) as Hpos.
  unfold Warp.sample2Time_uncached. fails (sample m <=? 0)%Z.
  rewrite sample2Time_loop_at by exact A.
  replace (l1 ++ m :: l2) with ((l1 ++ [m]) ++ l2) by (rewrite <- app_assoc; reflexivity).
  rewrite sumUpTo_app, (sumUpTo_before _ _ B), (sumUpTo_after _ _ C), sumDTime_app.
  unfold Shape.sumDTime at 3. simpl. rewrite Z.sub_0_r. ring.
Qed.

Lemma sumUpTo_Permutation s l l' : Permutation l l' -> sumUpTo s l == sumUpTo s l'.
Proof.
  induction 1 as [| x l l' _ IH | x y l | l l' l'' _ IH1 _ IH2]; simpl.
  - reflexivity.
  - rewrite IH. reflexivity.
  - ring.
  - rewrite IH1. exact IH2.
Qed.

Lemma sumDTime_Permutation l l' : Permutation l l' -> sumDTime l == sumDTime l'.
Proof.
  unfold Shape.sumDTime.
  induction 1 as [| x l l' _ IH | x y l | l l' l'' _ IH1 _ IH2]; simpl.
  - reflexivity.
  - rewrite IH. reflexivity.
  - ring.
  - rewrite IH1. exact IH2.
Qed.

(** A drag leaves the samples as they are. *)
Lemma alter_drag_samples dX dY i l :
  map sample (alter (Editor.drag dX dY) i l) = map sample l.
Proof.
  unfold alter. revert i. induction l as [| m rest IH]; intros [| i]; simpl; try reflexivity.
  rewrite IH. reflexivity.
Qed.

Lemma ascending_samples l l' p :
  map sample l = map sample l' -> ascending l p = ascending l' p.
Proof.
  revert l' p. induction l as [| m rest IH]; intros [| m' rest'] p H; simpl in *;
    try discriminate; [reflexivity |].
  injection H as H1 H2. rewrite H1, (IH _ _ H2). reflexivity.
Qed.

Lemma sumUpTo_drag s dX dY i l mi :
  l !! i = Some mi ->
  sumUpTo s (alter (Editor.drag dX dY) i l)
  == sumUpTo s l + (if (sample mi <=? s)%Z then dX else 0).
Proof.
  unfold alter. revert i. induction l as [| m rest IH]; intros [| i] H; simpl in *; try discriminate.
  - injection H as ->. destruct (sample mi <=? s)%Z; ring.
  - rewrite (IH _ H). ring.
Qed.

Lemma sumDTime_drag dX dY i l mi :
  l !! i = Some mi -> sumDTime (alter (Editor.drag dX dY) i l) == sumDTime l + dX.
Proof.
  unfold Shape.sumDTime, alter.
  revert i. induction l as [| m rest IH]; intros [| i] H; simpl in *; try discriminate.
  - ring.
  - rewrite (IH _ H). ring.
Qed.

Lemma ascending_delete i l p : ascending l p = true -> ascending (delete i l) p = true.
Proof.
  unfold delete. revert i p. induction l as [| m rest IH]; intros [| i] p H; simpl in *;
    try reflexivity; apply andb_true_iff in H as [H1 H2].
  - apply Z.ltb_lt in H1. apply ascending_lower with (sample m); [exact H2 | lia].
  - rewrite H1. simpl. apply IH, H2.
Qed.

Lemma sumUpTo_delete s i l mi :
  l !! i = Some mi ->
  sumUpTo s (delete i l) == sumUpTo s l - (if (sample mi <=? s)%Z then dTime mi else 0).
Proof.
  unfold delete. revert i. induction l as [| m rest IH]; intros [| i] H; simpl in *; try discriminate.
  - injection H as ->. ring.
  - rewrite (IH _ H). ring.
Qed.

Lemma sumDTime_delete i l mi :
  l !! i = Some mi -> sumDTime (delete i l) == sumDTime l - dTime mi.
Proof.
  unfold Shape.sumDTime, delete.
  revert i. induction l as [| m rest IH]; intros [| i] H; simpl in *; try discriminate.
  - injection H as ->. ring.
  - rewrite (IH _ H). ring.
Qed.

Lemma samples_delete s i l mi :
  l !! i = Some mi -> In s (map sample l) -> s <> sample mi ->
  In s (map sample (delete i l)).
Proof.
  unfold delete. revert i. induction l as [| m rest IH]; intros [| i] H Hin Hne; simpl in *;
    try discriminate.
  - injection H as ->. destruct Hin as [Hin | Hin]; [congruence | exact Hin].
  - destruct Hin as [Hin | Hin]; [left; exact Hin | right; eapply IH; eassumption].
Qed.

End RippleFacts.

Lemma duration_uncached_sum sampleRate ms dataSize :
  (1 < dataSize <= 2 ^ 31)%Z ->
  Forall (fun m => (sample m < dataSize - 1)%Z) ms ->
  Warp.duration_uncached sampleRate ms dataSize
  == inject_Z (dataSize - 1) / inject_Z sampleRate + Shape.sumDTime ms.
Proof.
  intros Hsize Hall. unfold Warp.duration_uncached, Warp.sample2Time_uncached.
  rewrite to_int_wrap64 by lia.
  fails (dataSize - 1 <=? 0)%Z.
  rewrite sample2Time_loop_past by exact Hall.
  rewrite Z.sub_0_r. ring.
Qed.

Lemma Forall_samples (P : Z -> Prop) l l' :
  map sample l = map sample l' ->
  Forall (fun m => P (sample m)) l -> Forall (fun m => P (sample m)) l'.
Proof.
  revert l'. induction l as [| m rest IH]; intros [| m' rest'] E H; simpl in E;
    try discriminate; [constructor |].
  injection E as E1 E2. inversion H as [| ? ? Hm Hrest]; subst.
  constructor; [rewrite <- E1; exact Hm | apply IH; assumption].
Qed.

(** The hit that [std::find_if] returns is a position of the list. *)
Lemma findHit_position sampleRate all ms k time mouseNote dTime dNote c i c' :
  Editor.findHit sampleRate all ms k time mouseNote dTime dNote c = (Some i, c') ->
  exists m, ms !! (i - k)%nat = Some m /\ (k <= i)%nat.
Proof.
  revert k c. induction ms as [| m rest IH]; intros k c; cbn [Editor.findHit];
    [discriminate |].
  unfold bind, ret. destruct (Warp.sample2Time sampleRate all (sample m) c) as [t c1].
  match goal with |- context [if ?b then _ else _] => destruct b end.
  - intros [= <- _]. exists m. rewrite Nat.sub_diag. split; [reflexivity | lia].
  - intros H. apply IH in H as (m' & Hm & Hk). exists m'.
    replace (i - k)%nat with (S (i - S k)) by lia. split; [exact Hm | lia].
Qed.

(** X18: dragging the selected marker with the left button adds
    [dX = dx * rangeTime / Width] to its [dTime], clears the caches and
    leaves every sample where it is; after it the edited time of that
    marker and of every later one is later by [dX], the earlier markers
    keep theirs, and [duration()] is longer by [dX]. *)
Theorem mouseMotion_drag
    (sampleRate dataSize : Z) (hasAudio : bool) (Width DisplayY : Q)
    (x y dx dy : Z) (ctrl alt : bool) (st : Editor.State) (i : nat) (mi : Marker) :
  dataSize <> 0%Z ->
  inject_Z (y - 20) <= Editor.Height DisplayY ->
  Editor.selectedMarker st = Some i -> Editor.markers st !! i = Some mi ->
  Shape.ascending (Editor.markers st) 0 = true ->
  let st' :=
    Editor.mouseMotion sampleRate dataSize hasAudio Width DisplayY
                       x y dx dy false true ctrl alt st in
  let dX := inject_Z dx * Editor.rangeTime st / Width in
  Editor.caches st' = invalidateCache /\
  map sample (Editor.markers st') = map sample (Editor.markers st) /\
  (forall s qs,
     In s (map sample (Editor.markers st)) ->
     value (Warp.sample2Time sampleRate (Editor.markers st') s)
           (Warp.history sampleRate (Editor.markers st') dataSize qs (Editor.caches st'))
     == Warp.sample2Time_uncached sampleRate (Editor.markers st) s
        + (if (sample mi <=? s)%Z then dX else 0)) /\
  ((1 < dataSize <= 2 ^ 31)%Z ->
   Forall (fun m => (sample m < dataSize - 1)%Z) (Editor.markers st) ->
   forall qs,
     value (Warp.duration sampleRate (Editor.markers st') dataSize)
           (Warp.history sampleRate (Editor.markers st') dataSize qs (Editor.caches st'))
     == Warp.duration_uncached sampleRate (Editor.markers st) dataSize + dX).
Proof.
  intros Hdata Hy Hsel Hmi Hasc st' dX.
  set (dY := inject_Z dy * Editor.rangeNote st / Editor.Height DisplayY).
  assert (E : st' = Editor.withMarkers st (alter (Editor.drag dX dY) i (Editor.markers st))
                                       (Editor.selectedMarker st) invalidateCache).
  { unfold st', Editor.mouseMotion.
    fails (dataSize =? 0)%Z.
    fails (Qlt_bool (Editor.Height DisplayY) (inject_Z (y - 20))).
    rewrite Hsel. reflexivity. }
  rewrite E. cbn [Editor.withMarkers Editor.caches Editor.markers].
  set (ms' := alter (Editor.drag dX dY) i (Editor.markers st)).
  assert (Hs : map sample ms' = map sample (Editor.markers st))
    by apply alter_drag_samples.
  assert (Hasc' : Shape.ascending ms' 0 = true)
    by (rewrite (ascending_samples _ _ _ Hs); exact Hasc).
  split; [reflexivity |]. split; [exact Hs |]. split.
  - intros s qs Hin.
    rewrite sample2Time_value with (dataSize := dataSize) by apply coherent_history.
    rewrite !sample2Time_at_sample; [| exact Hasc | exact Hin | exact Hasc'
                                      | rewrite Hs; exact Hin].
    unfold ms'. rewrite (sumUpTo_drag _ _ _ _ _ _ Hmi). ring.
  - intros Hsize Hall qs.
    rewrite duration_value by apply coherent_history.
    rewrite !duration_uncached_sum;
      [| exact Hsize | exact Hall | exact Hsize
       | apply (Forall_samples (fun s => (s < dataSize - 1)%Z) (Editor.markers st));
         [symmetry; exact Hs | exact Hall]].
    unfold ms'. rewrite (sumDTime_drag _ _ _ _ _ Hmi). ring.
Qed.

Lemma mouseMotion_drag_witness :
  let st := Editor.mkState [mkMarker 12000 62 (1 # 4) 1; mkMarker 24000 60 (1 # 2) 0]
                           (Some 0%nat) invalidateCache 0 0 10 40 24 false in
  let st' := Editor.mouseMotion 48000 48001 true 1000 1000 300 100 50 0
                                false true false false st in
  let dX := inject_Z 50 * Editor.rangeTime st / 1000 in
  Editor.caches st' = invalidateCache /\
  map sample (Editor.markers st') = map sample (Editor.markers st) /\
  (forall s qs,
     In s (map sample (Editor.markers st)) ->
     value (Warp.sample2Time 48000 (Editor.markers st') s)
           (Warp.history 48000 (Editor.markers st') 48001 qs (Editor.caches st'))
     == Warp.sample2Time_uncached 48000 (Editor.markers st) s
        + (if (sample (mkMarker 12000 62 (1 # 4) 1) <=? s)%Z then dX else 0)) /\
  ((1 < 48001 <= 2 ^ 31)%Z ->
   Forall (fun m => (sample m < 48001 - 1)%Z) (Editor.markers st) ->
   forall qs,
     value (Warp.duration 48000 (Editor.markers st') 48001)
           (Warp.history 48000 (Editor.markers st') 48001 qs (Editor.caches st'))
     == Warp.duration_uncached 48000 (Editor.markers st) 48001 + dX).
Proof.
  intros st st' dX.
  apply (mouseMotion_drag 48000 48001 true 1000 1000 300 100 50 0 false false st 0
           (mkMarker 12000 62 (1 # 4) 1));
    [lia | vm_compute; discriminate | reflexivity | reflexivity | reflexivity].
Defined.

(** X20: with the audio device set, a click of the right button on a
    marker erases it, clears the caches and the selection; after it every
    later marker is earlier by the erased marker's [dTime], the earlier
    ones keep their edited time, and [duration()] is shorter by that
    [dTime]. *)
Theorem mouseButton_remove
    (sampleRate dataSize : Z) (Width DisplayY : Q)
    (sort : list Marker -> list Marker)
    (x y : Z) (st : Editor.State) (i : nat) (c : Caches) :
  (2 <= dataSize)%Z ->
  let sorted := sort (Editor.markers st) in
  let Height := Editor.Height DisplayY in
  Editor.findHit sampleRate sorted sorted 0
    (inject_Z x * Editor.rangeTime st / Width + Editor.startTime st)
    ((Height - inject_Z (y - 20)) * Editor.rangeNote st / Height + Editor.startNote st)
    (8 * Editor.rangeTime st / Width) (8 * Editor.rangeNote st / Height)
    (Editor.caches st)
  = (Some i, c) ->
  Shape.ascending sorted 0 = true ->
  exists st' mi,
    Editor.mouseButton sampleRate dataSize true Width DisplayY sort
                       x y true Editor.ButtonRight st = Some st' /\
    sorted !! i = Some mi /\
    Editor.markers st' = delete i sorted /\
    Editor.selectedMarker st' = None /\
    Editor.caches st' = invalidateCache /\
    (forall s qs,
       In s (map sample sorted) -> s <> sample mi ->
       value (Warp.sample2Time sampleRate (Editor.markers st') s)
             (Warp.history sampleRate (Editor.markers st') dataSize qs (Editor.caches st'))
       == Warp.sample2Time_uncached sampleRate sorted s
          - (if (sample mi <=? s)%Z then dTime mi else 0)) /\
    ((dataSize <= 2 ^ 31)%Z ->
     Forall (fun m => (sample m < dataSize - 1)%Z) sorted ->
     forall qs,
       value (Warp.duration sampleRate (Editor.markers st') dataSize)
             (Warp.history sampleRate (Editor.markers st') dataSize qs (Editor.caches st'))
       == Warp.duration_uncached sampleRate sorted dataSize - dTime mi).
Proof.
  intros Hsize sorted Height Hhit Hasc.
  set (st' := Editor.handleButton sampleRate dataSize true Width DisplayY sort
                                  x y true Editor.ButtonRight st).
  destruct (findHit_position _ _ _ _ _ _ _ _ _ _ _ Hhit) as (mi & Hmi & _).
  rewrite Nat.sub_0_r in Hmi.
  assert (E : st' = Editor.withMarkers
                      (Editor.withMarkers st sorted (Editor.selectedMarker st)
                                          (Editor.caches st))
                      (delete i sorted) None invalidateCache).
  { unfold st', Editor.handleButton. cbn [negb].
    fails (dataSize <? 2)%Z.
    cbn [Editor.withMarkers Editor.markers Editor.caches Editor.rangeTime
         Editor.startTime Editor.rangeNote Editor.startNote].
    fold sorted. fold Height. rewrite Hhit. reflexivity. }
  exists st', mi. split; [reflexivity |].
  rewrite E. cbn [Editor.withMarkers Editor.caches Editor.markers Editor.selectedMarker].
  pose proof (ascending_delete i sorted 0 Hasc) as Hasc'.
  split; [exact Hmi |]. split; [reflexivity |]. split; [reflexivity |].
  split; [reflexivity |]. split.
  - intros s qs Hin Hne.
    rewrite sample2Time_value with (dataSize := dataSize) by apply coherent_history.
    rewrite !sample2Time_at_sample;
      [| exact Hasc | exact Hin | exact Hasc'
       | eapply samples_delete; [exact Hmi | exact Hin | exact Hne]].
    rewrite (sumUpTo_delete _ _ _ _ Hmi). ring.
  - intros Hmax Hall qs.
    rewrite duration_value by apply coherent_history.
    rewrite !duration_uncached_sum; [| lia | exact Hall | lia |].
    + rewrite (sumDTime_delete _ _ _ Hmi). ring.
    + apply Forall_forall. intros m Hm. rewrite Forall_forall in Hall. apply Hall.
      apply list_elem_of_In. apply list_elem_of_In in Hm.
      revert Hm. clear. revert i. unfold delete.
      induction sorted as [| a l IH]; intros [| i]; simpl; try tauto.
      intros [H | H]; [left; exact H | right; eapply IH, H].
Qed.

Lemma mouseButton_remove_witness :
  let st := Editor.mkState [mkMarker 12000 62 (1 # 4) 1; mkMarker 24000 60 (1 # 2) 0]
                           None invalidateCache 0 0 1 40 24 false in
  exists st' mi,
    Editor.mouseButton 48000 48001 true 1000 1000 (fun ms => ms)
                       500 57 true Editor.ButtonRight st = Some st' /\
    [mkMarker 12000 62 (1 # 4) 1; mkMarker 24000 60 (1 # 2) 0] !! 0%nat = Some mi /\
    Editor.markers st' = delete 0%nat [mkMarker 12000 62 (1 # 4) 1; mkMarker 24000 60 (1 # 2) 0]
    /\ Editor.selectedMarker st' = None
    /\ Editor.caches st' = invalidateCache.
Proof.
  intros st.
  destruct (Editor.findHit 48000 (Editor.markers st) (Editor.markers st) 0
              (inject_Z 500 * Editor.rangeTime st / 1000 + Editor.startTime st)
              ((Editor.Height 1000 - inject_Z (57 - 20)) * Editor.rangeNote st
               / Editor.Height 1000 + Editor.startNote st)
              (8 * Editor.rangeTime st / 1000) (8 * Editor.rangeNote st / Editor.Height 1000)
              (Editor.caches st)) as [[[| i] |] c] eqn:E;
    try (vm_compute in E; discriminate).
  destruct (mouseButton_remove 48000 48001 1000 1000 (fun ms => ms) 500 57 st 0 c)
    as (st' & mi & H0 & H1 & H2 & H3 & H4 & _); [lia | exact E | reflexivity |].
  exists st', mi. repeat split; assumption.
Defined.

(** X19: with the audio device set, a click of the left button leaves
    the sorted marker list as it is or adds one marker, with [dTime = 0] and [note + pitchBend] at the
    note under the mouse, and then clears the caches; when [std::sort]
    returns a rearrangement and the samples ascend strictly before and
    after, every marker that was there keeps its edited time and
    [duration()] stays the same. *)
Theorem mouseButton_left_keeps_times
    (sampleRate dataSize : Z) (Width DisplayY : Q)
    (sort : list Marker -> list Marker)
    (x y : Z) (pressed : bool) (st st' : Editor.State) :
  (forall ms, Permutation (sort ms) ms) ->
  let sorted := sort (Editor.markers st) in
  let Height := Editor.Height DisplayY in
  Editor.mouseButton sampleRate dataSize true Width DisplayY sort
                     x y pressed Editor.ButtonLeft st = Some st' ->
  Shape.ascending sorted 0 = true ->
  Shape.ascending (Editor.markers st') 0 = true ->
  (Editor.markers st' = sorted \/
   exists new,
     Permutation (Editor.markers st') (sorted ++ [new]) /\
     dTime new = 0 /\
     note new + pitchBend new
     == (Height - inject_Z (y - 20)) * Editor.rangeNote st / Height + Editor.startNote st /\
     Editor.caches st' = invalidateCache) /\
  (forall s,
     In s (map sample sorted) ->
     Warp.sample2Time_uncached sampleRate (Editor.markers st') s
     == Warp.sample2Time_uncached sampleRate sorted s) /\
  ((1 < dataSize <= 2 ^ 31)%Z ->
   Forall (fun m => (sample m < dataSize - 1)%Z) (Editor.markers st') ->
   Warp.duration_uncached sampleRate (Editor.markers st') dataSize
   == Warp.duration_uncached sampleRate sorted dataSize).
Proof.
  intros Hperm sorted Height Hst Hasc Hasc'.
  injection Hst as Hst. symmetry in Hst.
  assert (D : Editor.markers st' = sorted \/
              exists new,
                Permutation (Editor.markers st') (sorted ++ [new]) /\
                dTime new = 0 /\
                note new + pitchBend new
                == (Height - inject_Z (y - 20)) * Editor.rangeNote st / Height
                   + Editor.startNote st /\
                Editor.caches st' = invalidateCache).
  { rewrite Hst. unfold Editor.handleButton. fold sorted. fold Height.
    destruct pressed; cbn [negb]; [| left; reflexivity].
    destruct (dataSize <? 2)%Z; [left; reflexivity |].
    match goal with |- context [if Qlt_bool ?a ?b then _ else _] =>
      destruct (Qlt_bool a b)
    end.
    - unfold Editor.scrub.
      match goal with |- context [Warp.duration ?a ?b ?c ?d] =>
        destruct (Warp.duration a b c d) as [d0 c0]
      end.
      left. reflexivity.
    - match goal with |- context [Warp.time2Sample ?a ?b ?c ?d] =>
        destruct (Warp.time2Sample a b c d) as [s c1]
      end.
      match goal with |- context [Editor.findHit ?a ?b ?c ?d ?e ?f ?g ?h ?k] =>
        destruct (Editor.findHit a b c d e f g h k) as [[i |] c2]
      end; [left; reflexivity |].
      match goal with |- context [Warp.time2PitchBend ?a ?b ?c ?d ?e] =>
        destruct (Warp.time2PitchBend a b c d e) as [pb c3]
      end.
      right. cbn [Editor.withMarkers Editor.markers Editor.caches Editor.rangeNote
                  Editor.startNote].
      eexists. split; [apply Hperm |]. split; [reflexivity |].
      split; [| reflexivity]. cbn [note pitchBend]. ring. }
  split; [exact D |].
  assert (S : forall s, Shape.sumUpTo s (Editor.markers st') == Shape.sumUpTo s sorted).
  { intros s. destruct D as [-> | (new & P & Hd & _)]; [reflexivity |].
    rewrite (sumUpTo_Permutation s _ _ P), sumUpTo_app. simpl. rewrite Hd.
    destruct (sample new <=? s)%Z; ring. }
  assert (I : forall s, In s (map sample sorted) -> In s (map sample (Editor.markers st'))).
  { intros s Hin. destruct D as [-> | (new & P & _)]; [exact Hin |].
    apply in_map_iff in Hin as (m & <- & Hm). apply in_map.
    apply list_elem_of_In. rewrite P. apply list_elem_of_In.
    apply in_or_app. left. exact Hm. }
  split.
  - intros s Hin.
    rewrite !sample2Time_at_sample; [| exact Hasc | exact Hin | exact Hasc' | apply I, Hin].
    rewrite S. reflexivity.
  - intros Hsize Hall.
    assert (Hall' : Forall (fun m => (sample m < dataSize - 1)%Z) sorted).
    { destruct D as [<- | (new & P & _)]; [exact Hall |].
      rewrite P in Hall. apply Forall_app in Hall as [Hall _]. exact Hall. }
    rewrite !duration_uncached_sum by assumption.
    assert (E : Shape.sumDTime (Editor.markers st') == Shape.sumDTime sorted).
    { destruct D as [-> | (new & P & Hd & _)]; [reflexivity |].
      rewrite (sumDTime_Permutation _ _ P), sumDTime_app.
      assert (E0 : Shape.sumDTime [new] == 0)
        by (unfold Shape.sumDTime; simpl; rewrite Hd; ring).
      rewrite E0. ring. }
    rewrite E. reflexivity.
Qed.

Lemma mouseButton_left_keeps_times_witness :
  let st := Editor.mkState [mkMarker 12000 62 (1 # 4) 1; mkMarker 24000 60 (1 # 2) 0]
                           None invalidateCache 0 0 2 40 24 false in
  let st' := Editor.handleButton 48000 48001 true 1000 1000 (fun ms => ms)
                                 700 57 true Editor.ButtonLeft st in
  Editor.mouseButton 48000 48001 true 1000 1000 (fun ms => ms)
                     700 57 true Editor.ButtonLeft st = Some st' /\
  (Editor.markers st' = Editor.markers st \/
   exists new,
     Permutation (Editor.markers st') (Editor.markers st ++ [new]) /\
     dTime new = 0 /\
     note new + pitchBend new
     == (Editor.Height 1000 - inject_Z (57 - 20)) * Editor.rangeNote st / Editor.Height 1000
        + Editor.startNote st /\
     Editor.caches st' = invalidateCache) /\
  (forall s,
     In s (map sample (Editor.markers st)) ->
     Warp.sample2Time_uncached 48000 (Editor.markers st') s
     == Warp.sample2Time_uncached 48000 (Editor.markers st) s) /\
  ((1 < 48001 <= 2 ^ 31)%Z ->
   Forall (fun m => (sample m < 48001 - 1)%Z) (Editor.markers st') ->
   Warp.duration_uncached 48000 (Editor.markers st') 48001
   == Warp.duration_uncached 48000 (Editor.markers st) 48001).
Proof.
  intros st st'. split; [reflexivity |].
  apply (mouseButton_left_keeps_times 48000 48001 1000 1000 (fun ms => ms)
           700 57 true st st');
    [intros ms; reflexivity | reflexivity | reflexivity | vm_compute; reflexivity].
Defined.

(** ** File names *)

Section FileFacts.

Import Files.

Lemma differs_false a b : differs a b = false <-> a = b.
Proof.
  unfold differs. rewrite negb_false_iff, String.eqb_eq. split.
  - intros H. rewrite <- (list_ascii_of_string_of_list_ascii a),
                      <- (list_ascii_of_string_of_list_ascii b), H. reflexivity.
  - intros ->. reflexivity.
Qed.

Lemma find_last_of_absent s c i found :
  ~ In c s -> find_last_of_from s c i found = found.
Proof.
  revert i found. induction s as [| x rest IH]; intros i found Hn; simpl; [reflexivity |].
  destruct (Ascii.eqb x c) eqn:E.
  - apply Ascii.eqb_eq in E. subst. exfalso. apply Hn. left. reflexivity.
  - apply IH. intros H. apply Hn. right. exact H.
Qed.

Lemma find_last_of_present s1 s2 c i found :
  ~ In c s2 ->
  find_last_of_from (s1 ++ c :: s2) c i found = (i + Z.of_nat (length s1))%Z.
Proof.
  intros Hn. revert i found. induction s1 as [| x rest IH]; intros i found; simpl.
  - rewrite Ascii.eqb_refl. rewrite find_last_of_absent by exact Hn. lia.
  - rewrite IH. lia.
Qed.

(** A string without [c], or its split at the last [c]. *)
Lemma split_at_last (c : ascii) (s : list ascii) :
  ~ In c s \/ exists s1 s2, s = s1 ++ c :: s2 /\ ~ In c s2.
Proof.
  induction s as [| x rest IH].
  - left. intros [].
  - destruct IH as [Hn | (s1 & s2 & -> & Hn)].
    + destruct (Ascii.eqb x c) eqn:E.
      * apply Ascii.eqb_eq in E. subst. right. exists [], rest. split; [reflexivity | exact Hn].
      * apply Ascii.eqb_neq in E. left. intros [H | H]; [congruence | exact (Hn H)].
    + right. exists (x :: s1), s2. split; [reflexivity | exact Hn].
Qed.

(** The extension [openFile] computes: the whole name when it has no
    period, else what follows the last period. *)
Lemma openFile_no_period fileName :
  ~ In "."%char fileName ->
  substr fileName (wrap64 (find_last_of fileName "." + 1)) = Some fileName.
Proof.
  intros Hn. unfold find_last_of, substr.
  rewrite find_last_of_absent by exact Hn.
  change (wrap64 (npos + 1)) with 0%Z.
  holds (0 <=? Z.of_nat (length fileName))%Z. reflexivity.
Qed.

Lemma openFile_last_period base extension :
  ~ In "."%char extension ->
  (Z.of_nat (length (base ++ "."%char :: extension)) < 2 ^ 64)%Z ->
  substr (base ++ "."%char :: extension)
         (wrap64 (find_last_of (base ++ "."%char :: extension) "." + 1))
  = Some extension.
Proof.
  intros Hn Hlen. unfold find_last_of, substr.
  rewrite find_last_of_present by exact Hn.
  rewrite length_app in *. simpl length in *.
  unfold wrap64. rewrite Z.mod_small by lia.
  holds (0 + Z.of_nat (length base) + 1
         <=? Z.of_nat (length base + S (length extension)))%Z.
  replace (Z.to_nat (0 + Z.of_nat (length base) + 1)) with (length base + 1)%nat by lia.
  rewrite <- drop_drop, drop_app_length. reflexivity.
Qed.

Lemma melonix_no_period : ~ In "."%char melonix.
Proof.
  unfold melonix. simpl. intros H.
  repeat (destruct H as [H | H]; [discriminate |]). exact H.
Qed.

(** The [substr] of [App::openFile] is asked for a position inside the
    name, and its result is [melonix] exactly for the name [melonix] and
    the names that end in [.melonix]. *)
Lemma openFile_extension fileName :
  (Z.of_nat (length fileName) < 2 ^ 64)%Z ->
  exists extension,
    substr fileName (wrap64 (find_last_of fileName "." + 1)) = Some extension /\
    (extension = melonix <->
     fileName = melonix \/ exists base, fileName = base ++ dotMelonix).
Proof.
  intros Hlen.
  destruct (split_at_last "." fileName) as [Hn | (s1 & s2 & -> & Hn)].
  - exists fileName. split; [apply openFile_no_period, Hn |]. split.
    + intros H. left. exact H.
    + intros [H | (base & H)]; [exact H |]. exfalso. apply Hn. rewrite H.
      apply in_or_app. right. left. reflexivity.
  - exists s2. split; [apply openFile_last_period; assumption |]. split.
    + intros ->. right. exists s1. reflexivity.
    + intros [H | (base & H)].
      * exfalso. apply melonix_no_period. rewrite <- H.
        apply in_or_app. right. left. reflexivity.
      * pose proof (openFile_last_period s1 s2 Hn Hlen) as E1.
        pose proof (openFile_last_period base melonix melonix_no_period) as E2.
        change (base ++ "."%char :: melonix) with (base ++ dotMelonix) in E2.
        rewrite <- H in E2. rewrite E1 in E2. specialize (E2 Hlen). congruence.
Qed.

(** Which of its two callees [App::openFile] goes on with. *)
Lemma openFile_callee fileName :
  (Z.of_nat (length fileName) < 2 ^ 64)%Z ->
  (openFile fileName = Some (LoadMelonixFile fileName) \/
   openFile fileName = Some (ExportFile fileName)) /\
  (openFile fileName = Some (LoadMelonixFile fileName) <->
   fileName = melonix \/ exists base, fileName = base ++ dotMelonix).
Proof.
  intros Hlen. unfold openFile.
  destruct (openFile_extension fileName Hlen) as (extension & -> & Hext).
  destruct (differs extension melonix) eqn:D.
  - split; [right; reflexivity |]. split; [discriminate |].
    intros H. apply Hext in H. apply differs_false in H. congruence.
  - split; [left; reflexivity |]. split; [| reflexivity].
    intros _. apply Hext, differs_false, D.
Qed.

End FileFacts.

(** X21: the test of the file name in [App::openFile]: the [substr]
    call is given a position inside the name, so it does not throw, and
    the callee chosen is [loadMelonixFile] exactly when the name is
    [melonix] or ends in [.melonix], [exportFile] for every other name.
    What the callee then does with the file is not part of the
    statement. *)
Theorem openFile_dispatch (fileName : list ascii) :
  (Z.of_nat (length fileName) < 2 ^ 64)%Z ->
  (Files.openFile fileName = Some (Files.LoadMelonixFile fileName) \/
   Files.openFile fileName = Some (Files.ExportFile fileName)) /\
  (Files.openFile fileName = Some (Files.LoadMelonixFile fileName) <->
   fileName = Files.melonix \/ exists base, fileName = base ++ Files.dotMelonix).
Proof.
  exact (openFile_callee fileName).
Qed.

Lemma openFile_dispatch_witness :
  (Files.openFile (list_ascii_of_string "song.melonix")
   = Some (Files.LoadMelonixFile (list_ascii_of_string "song.melonix")) \/
   Files.openFile (list_ascii_of_string "song.melonix")
   = Some (Files.ExportFile (list_ascii_of_string "song.melonix"))) /\
  (Files.openFile (list_ascii_of_string "song.melonix")
   = Some (Files.LoadMelonixFile (list_ascii_of_string "song.melonix")) <->
   list_ascii_of_string "song.melonix" = Files.melonix \/
   exists base, list_ascii_of_string "song.melonix" = base ++ Files.dotMelonix).
Proof.
  apply (openFile_dispatch (list_ascii_of_string "song.melonix")). simpl. lia.
Defined.

(** X22: [App::saveMelonixFile] appends [.melonix] to every file name,
    also to one that ends in [.melonix] already, since the extension that
    [std::filesystem::path] returns is empty or begins with a period and
    so never equals [melonix]; the name saved to is one that
    [App::openFile] loads as a melonix document. *)
Theorem saveMelonixFile_appends (extension : list ascii -> list ascii)
    (fileName : list ascii) :
  Files.dotted extension ->
  Files.saveMelonixFile extension fileName = fileName ++ Files.dotMelonix /\
  ((Z.of_nat (length fileName) + 8 < 2 ^ 64)%Z ->
   Files.openFile (Files.saveMelonixFile extension fileName)
   = Some (Files.LoadMelonixFile (fileName ++ Files.dotMelonix))).
Proof.
  intros Hdot.
  assert (E : Files.saveMelonixFile extension fileName = fileName ++ Files.dotMelonix).
  { unfold Files.saveMelonixFile.
    destruct (Files.differs (extension fileName) Files.melonix) eqn:D; [reflexivity |].
    apply differs_false in D.
    destruct (Hdot fileName) as [H | (rest & H)]; rewrite H in D; discriminate. }
  split; [exact E |]. intros Hlen. rewrite E.
  apply openFile_callee.
  - rewrite length_app. simpl. lia.
  - right. exists fileName. reflexivity.
Qed.

Lemma saveMelonixFile_appends_witness :
  Files.saveMelonixFile (fun _ => Files.dotMelonix) (list_ascii_of_string "song.melonix")
  = list_ascii_of_string "song.melonix" ++ Files.dotMelonix /\
  ((Z.of_nat (length (list_ascii_of_string "song.melonix")) + 8 < 2 ^ 64)%Z ->
   Files.openFile (Files.saveMelonixFile (fun _ => Files.dotMelonix)
                     (list_ascii_of_string "song.melonix"))
   = Some (Files.LoadMelonixFile (list_ascii_of_string "song.melonix" ++ Files.dotMelonix))).
Proof.
  apply (saveMelonixFile_appends (fun _ => Files.dotMelonix)
           (list_ascii_of_string "song.melonix")).
  intros fileName. right. exists Files.melonix. reflexivity.
Defined.
